(** * Thread keys for flat parent-referencing records

    A shallow embedding of [src/index.ts] (functions [sortThread] and
    [formatThread] with their local helpers) and the properties of the
    hierarchy keys it computes.

    Modelling conventions.
    - A JavaScript string is a Rocq [string]; a character is a code unit
      below 256.
    - An optional field ([parent?], [order?]) is an [option string];
      [None] is [undefined].
    - The array [items] holds distinct objects that are mutated in place:
      it is a [list Item] threaded through the calls, and an object is
      named by its position in that list.
    - A JavaScript number is an [option Z], [None] being [NaN]; integers
      are exact, which agrees with the doubles of the source below 2^53.
    - [String.prototype.localeCompare] is the code-unit lexicographic
      comparison.  On the alphabet of the keys built with the default
      options (digits, lower-case letters, '.' and '/') the two orders
      coincide.
    - [Array.prototype.sort] and [toSorted] are stable; with a comparator
      that is a total preorder their result is the unique stable sorted
      arrangement, computed here by a stable insertion sort.
    - The call stack is unbounded: recursion is cut by a fuel that only a
      cyclic chain of unkeyed parents can exhaust. *)

From Stdlib Require Import ZArith Ascii String Lia Bool.

From stdpp Require Import base option list sorting.

Local Open Scope string_scope.

Local Open Scope Z_scope.

(** * The program *)

(** ** Data model *)

Record Item := mkItem {
  id : string;
  parent : option string;
  order : option string
}.

Record ThreadSortOptions := mkOptions {
  endOfRecord : string;
  delimiter : string
}.

Definition defaults : ThreadSortOptions :=
  {| endOfRecord := "."; delimiter := "/" |}.

(** A JavaScript number as far as this program needs it. *)
Definition JsNum := option Z.

(** What a call can do: return, throw the error of line 61, or recurse
    without end. *)
Inductive Outcome (A : Type) :=
  | Done (a : A)
  | ParentNotFound
  | StackExhausted.

Arguments Done {A} a.

Arguments ParentNotFound {A}.

Arguments StackExhausted {A}.

(** ** JavaScript primitives used by the source *)

Module Js.

(** Truthiness of an optional string: [undefined] and [""] are falsy. *)
Definition truthy (s : option string) : bool :=
  match s with
  | Some (String _ _) => true
  | _ => false
  end.

(** [s.endsWith(suf)] *)
Fixpoint endsWith (s suf : string) : bool :=
  String.eqb s suf ||
  match s with
  | EmptyString => false
  | String _ s' => endsWith s' suf
  end.

(** [s.slice(0, -1)] *)
Fixpoint dropLast (s : string) : string :=
  match s with
  | EmptyString => EmptyString
  | String _ EmptyString => EmptyString
  | String c s' => String c (dropLast s')
  end.

(** String conversion of an optional string in a concatenation. *)
Definition toStr (s : option string) : string :=
  match s with
  | Some t => t
  | None => "undefined"
  end.

(** [s.split(sep)] for a non-empty separator: [skip] counts the code
    units of a matched separator still to be passed over, [acc] is the
    piece being read. *)
Fixpoint splitGo (sep : string) (skip : nat) (acc s : string) : list string :=
  match s with
  | EmptyString => [acc]
  | String c s' =>
      match skip with
      | S k => splitGo sep k acc s'
      | O =>
          if String.prefix sep s
          then acc :: splitGo sep (Nat.pred (String.length sep)) EmptyString s'
          else splitGo sep O (acc ++ String c EmptyString) s'
      end
  end.

Fixpoint chars (s : string) : list string :=
  match s with
  | EmptyString => []
  | String c s' => String c EmptyString :: chars s'
  end.

Definition split (sep s : string) : list string :=
  match sep with
  | EmptyString => chars s
  | _ => splitGo sep O EmptyString s
  end.

(** [parts[i]] converted to a string, as [parseInt] does with its
    argument: a missing element reads as ["undefined"]. *)
Definition at_ (parts : list string) (i : nat) : string :=
  toStr (parts !! i).

(** Value of a digit in radix 36, letters in either case. *)
Definition digitVal (c : ascii) : option Z :=
  let n := Z.of_N (N_of_ascii c) in
  if (48 <=? n) && (n <=? 57) then Some (n - 48)
  else if (97 <=? n) && (n <=? 122) then Some (n - 87)
  else if (65 <=? n) && (n <=? 90) then Some (n - 55)
  else None.

Definition isWhite (c : ascii) : bool :=
  let n := N_of_ascii c in
  ((9 <=? n) && (n <=? 13) || (n =? 32) || (n =? 160))%N.

Fixpoint trimStart (s : string) : string :=
  match s with
  | String c s' => if isWhite c then trimStart s' else s
  | EmptyString => EmptyString
  end.

(** The longest prefix of radix-36 digits, read as an integer; [acc] is
    [None] while no digit has been seen. *)
Fixpoint parseDigits (acc : option Z) (s : string) : option Z :=
  match s with
  | EmptyString => acc
  | String c s' =>
      match digitVal c with
      | Some d => parseDigits (Some (default 0 acc * 36 + d)) s'
      | None => acc
      end
  end.

(** [Number.parseInt(s, 36)] *)
Definition parseInt36 (s : string) : JsNum :=
  match trimStart s with
  | String "-" r => Z.opp <$> parseDigits None r
  | String "+" r => parseDigits None r
  | r => parseDigits None r
  end.

Definition digitChar (d : Z) : ascii :=
  ascii_of_N (Z.to_N (if d <? 10 then 48 + d else 87 + d)).

Fixpoint digits36 (fuel : nat) (z : Z) (acc : string) : string :=
  match fuel with
  | O => acc
  | S f =>
      let acc' := String (digitChar (z mod 36)) acc in
      if z / 36 =? 0 then acc' else digits36 f (z / 36) acc'
  end.

(** [n.toString(36)] *)
Definition toString36 (n : JsNum) : string :=
  match n with
  | None => "NaN"
  | Some z =>
      if z <? 0
      then String "-" (digits36 (S (Z.to_nat (Z.log2 (- z)))) (- z) EmptyString)
      else digits36 (S (Z.to_nat (Z.log2 z))) z EmptyString
  end.

(** [s.padStart(2, '0')] *)
Definition padStart2 (s : string) : string :=
  match s with
  | EmptyString => "00"
  | String c EmptyString => String "0" s
  | _ => s
  end.

(** [++n] *)
Definition incr (n : JsNum) : JsNum := Z.succ <$> n.

(** [a.localeCompare(b)], as a three-way result. *)
Definition localeCompare (a b : string) : comparison := String.compare a b.

(** [a === b] and [a == b] on values that are strings or [undefined]:
    no conversion applies, both are equality. *)
Definition strictEq (a b : option string) : bool :=
  match a, b with
  | Some s, Some t => String.eqb s t
  | None, None => true
  | _, _ => false
  end.

Definition looseEq (a b : option string) : bool :=
  match a, b with
  | Some s, Some t => String.eqb s t
  | None, None => true
  | _, _ => false
  end.

(** [items.find(p)]: the first element that satisfies [p], with its
    position. *)
Definition find {A} (p : A → bool) (l : list A) : option (nat * A) :=
  list_find (λ x, Is_true (p x)) l.

(** Stable sorting with a three-way comparator. *)
Section Sort.

Context {A : Type} (cmp : A → A → comparison).

Fixpoint insert (x : A) (l : list A) : list A :=
  match l with
  | [] => [x]
  | y :: l' =>
      match cmp x y with
      | Gt => y :: insert x l'
      | _ => x :: l
      end
  end.

Definition sort (l : list A) : list A := foldr insert [] l.

End Sort.

End Js.

(** ** The program *)

Section SortThread.

Variable opt : ThreadSortOptions.

Definition startNum : JsNum := Some (-1).

Definition compareThread (a b : Item) : comparison :=
  match order a, order b with
  | Some x, Some y => Js.localeCompare x y
  | _, _ => Eq
  end.

Definition stripEor (thread : option string) : option string :=
  match thread with
  | Some t =>
      if Js.truthy thread && Js.endsWith t (endOfRecord opt)
      then Some (Js.dropLast t)
      else thread
  | None => None
  end.

Definition setThread (items : list Item) (node : nat) (value : option string)
  : list Item :=
  alter (λ c, {| id := id c; parent := parent c; order := value |}) node items.

Definition getThread (items : list Item) (node : nat) : option string :=
  items !! node ≫= order.

Definition getMaxThread (items : list Item) : option string :=
  last (Js.sort compareThread (List.filter (λ t, Js.truthy (order t)) items))
    ≫= order.

Definition getMaxThreadPerThread (items : list Item) (pid : option string)
  : option string :=
  let justChildren :=
    Js.sort compareThread
      (List.filter (λ i, Js.strictEq (parent i) pid && Js.truthy (order i)) items) in
  last justChildren ≫= order.

(** The test of line 46. *)
Definition isRoot (items : list Item) (c : Item) : bool :=
  match parent c with
  | None => true
  | Some _ => negb (bool_decide (is_Some (Js.find (λ i, Js.strictEq (Some (id i)) (parent c)) items)))
  end.

(** The number read in the root branch (lines 49-51). *)
Definition rootNum (items : list Item) : JsNum :=
  let max := stripEor (getMaxThread items) in
  let parts := from_option (Js.split (delimiter opt)) [] max in
  if Js.truthy max then Js.parseInt36 (Js.at_ parts 0) else startNum.

(** The number read in the child branch (lines 70-86). *)
Definition childNum (items : list Item) (pid : option string) : JsNum :=
  match stripEor (getMaxThreadPerThread items pid) with
  | None => startNum
  | Some m =>
      let max := stripEor (Some m) in
      let parts := from_option (Js.split (delimiter opt)) [] max in
      let parent_depth := length parts in
      Js.parseInt36 (Js.at_ parts (parent_depth - 1))
  end.

(** Line 89. *)
Definition newThread (prefix : string) (n : JsNum) : string :=
  prefix ++ Js.padStart2 (Js.toString36 (Js.incr n)) ++ endOfRecord opt.

Fixpoint populateThreadForItem (fuel : nat) (items : list Item) (ci : nat)
  : Outcome (list Item) :=
  match fuel with
  | O => StackExhausted
  | S fuel' =>
      match items !! ci with
      | None => Done items
      | Some c =>
          match order c with
          | Some _ => Done items
          | None =>
              if isRoot items c then
                Done (setThread items ci (Some (newThread "" (rootNum items))))
              else
                match Js.find (λ i, Js.looseEq (Some (id i)) (parent c)) items with
                | None => ParentNotFound
                | Some (pi, _) =>
                    match populateThreadForItem fuel' items pi with
                    | Done items1 =>
                        let prefix :=
                          Js.toStr (stripEor (getThread items1 pi)) ++ delimiter opt in
                        let n := childNum items1 (parent c) in
                        Done (setThread items1 ci (Some (newThread prefix n)))
                    | failure => failure
                    end
                end
          end
      end
  end.

(** The loop of lines 32-34 over the positions still to visit. *)
Fixpoint populateAll (fuel : nat) (items : list Item) (todo : list nat)
  : Outcome (list Item) :=
  match todo with
  | [] => Done items
  | ci :: rest =>
      match populateThreadForItem fuel items ci with
      | Done items1 => populateAll fuel items1 rest
      | failure => failure
      end
  end.

(** The keying pass: every position once, front to back. *)
Definition keyPass (items : list Item) : Outcome (list Item) :=
  populateAll (S (length items)) items (seq 0 (length items)).

Definition sortThread (items : list Item) : Outcome (list Item) :=
  match keyPass items with
  | Done keyed => Done (Js.sort compareThread keyed)
  | failure => failure
  end.

End SortThread.

(** [formatThread] (lines 144-152); the separator is the literal '/'. *)
Definition formatDepth (i : Item) : nat :=
  (from_option (λ o, length (Js.split "/" o)) 1%nat (order i) - 1)%nat.

Fixpoint repeatStr (s : string) (n : nat) : string :=
  match n with
  | O => EmptyString
  | S n' => s ++ repeatStr s n'
  end.

Definition parentClause (i : Item) : string :=
  if Js.truthy (parent i) then "(parent " ++ Js.toStr (parent i) ++ ")" else "".

Definition formatLine (i : Item) : string :=
  repeatStr "  " (formatDepth i) ++ " - item " ++ (id i ++ " " ++ parentClause i).

Definition newline : string := String (ascii_of_nat 10) EmptyString.

Definition formatThread (items : list Item) : string :=
  String.concat newline (map formatLine items).

(** * Notions used in the statements *)

(** ** The order on strings *)

Module StrOrd.

(** The order of [localeCompare], large and strict. *)
Definition le (a b : string) : Prop := String.compare a b ≠ Gt.

Definition lt (a b : string) : Prop := String.compare a b = Lt.

End StrOrd.

(** The order of a three-way comparator. *)
Definition cle {A : Type} (cmp : A → A → comparison) (x y : A) : Prop :=
  cmp x y ≠ Gt.

(** ** Objects over time *)

(** The object has a key. *)
Definition keyed (c : Item) : Prop := is_Some (order c).

(** [c'] is the object [c] at a later time: same [id] and [parent], and a
    key that was set is still the same key. *)
Definition laterItem (c c' : Item) : Prop :=
  id c' = id c ∧ parent c' = parent c ∧ ∀ k, order c = Some k → order c' = Some k.

Definition laterItems (items items' : list Item) : Prop :=
  Forall2 laterItem items items'.

(** The position of the parent of [c], when the reference resolves. *)
Definition parentPos (items : list Item) (c : Item) : option nat :=
  fst <$> Js.find (λ i, Js.looseEq (Some (id i)) (parent c)) items.

(** The body of [populateThreadForItem] with the two lookups of the
    parent merged into one. *)
Definition childThread (opt : ThreadSortOptions) (items1 : list Item) (pi : nat)
    (c : Item) : string :=
  newThread opt (Js.toStr (stripEor opt (getThread items1 pi)) ++ delimiter opt)
    (childNum opt items1 (parent c)).

(** How many unkeyed objects the recursion started at [ci] walks
    through, when it comes to an end within [fuel] calls. *)
Fixpoint unkeyedDepth (fuel : nat) (items : list Item) (ci : nat) : option nat :=
  match fuel with
  | O => None
  | S f =>
      match items !! ci with
      | None => Some O
      | Some c =>
          match order c with
          | Some _ => Some O
          | None =>
              match parentPos items c with
              | None => Some 1%nat
              | Some pi => S <$> unkeyedDepth f items pi
              end
          end
      end
  end.

(** ** Shapes of strings *)

Module Str.

(** No occurrence of the character [d]. *)
Fixpoint lacks (d : ascii) (s : string) : bool :=
  match s with
  | EmptyString => true
  | String c s' => negb (Ascii.eqb c d) && lacks d s'
  end.

(** The last character of a string. *)
Fixpoint lastChar (s : string) : option ascii :=
  match s with
  | EmptyString => None
  | String c EmptyString => Some c
  | String _ s' => lastChar s'
  end.

(** Splitting at a single character. *)
Fixpoint splitChar (d : ascii) (acc s : string) : list string :=
  match s with
  | EmptyString => [acc]
  | String c s' =>
      if Ascii.eqb c d then acc :: splitChar d EmptyString s'
      else splitChar d (acc ++ String c EmptyString) s'
  end.

End Str.

(** ** Segments *)

Module Num.

(** The characters after '/' in the order of the code units; the
    digits of radix 36 are among them. *)
Definition isDigit (c : ascii) : bool :=
  match Ascii.compare "/" c with Lt => true | _ => false end.

(** The two characters that structure a key are not digits. *)
Definition structural (d : ascii) : Prop := isDigit d = false.

(** The segment of a sibling index. *)
Definition seg (k : Z) : string := Js.padStart2 (Js.toString36 (Some k)).

(** The two digits of an index below 1296. *)
Definition two (k : Z) : string :=
  String (Js.digitChar (k / 36)) (String (Js.digitChar (k mod 36)) "").

End Num.

(** ** The two scans for a maximum *)

(** [m] is the greatest key among the objects of [items] that satisfy
    [f]. *)
Definition greatestKey (f : Item → bool) (items : list Item) (m : string) : Prop :=
  (∃ c, c ∈ items ∧ f c = true ∧ order c = Some m) ∧
  ∀ c k, c ∈ items → f c = true → order c = Some k → StrOrd.le k m.

(** The filters of [getMaxThread] and of [getMaxThreadPerThread]. *)
Definition nonEmptyKey (c : Item) : bool := Js.truthy (order c).

Definition siblingKey (pid : option string) (c : Item) : bool :=
  Js.strictEq (parent c) pid && Js.truthy (order c).

(** ** Collections and checks used in the examples *)

(** [n] roots without keys, with the ids "0", "1", ... in radix 36. *)
Definition manyRoots (n : nat) : list Item :=
  map (λ i, mkItem (Js.toString36 (Some (Z.of_nat i))) None None) (seq 0 n).

(** The object [o] is there, has no [parent] field and carries the key
    [k]. *)
Definition rootWithKey (o : option Item) (k : string) : bool :=
  match o with
  | Some c => Js.strictEq (order c) (Some k) && Js.strictEq (parent c) None
  | None => false
  end.

(** A check of the result of a call that returned. *)
Definition whenDone {A} (r : Outcome A) (f : A → bool) : bool :=
  match r with
  | Done x => f x
  | _ => false
  end.



(** A child whose key does not extend the key of its parent, and a new
    root. *)
Definition misleadingKeys : list Item :=
  [ mkItem "r" None (Some "00.");
    mkItem "c" (Some "r") (Some "05/00.");
    mkItem "n" None None ].

(** ** Rendering *)

(** [n] spaces. *)
Fixpoint spaces (n : nat) : string :=
  match n with
  | O => EmptyString
  | S n' => String " " (spaces n')
  end.

(** The number of segments of the key of an object; an absent key counts
    for one. *)
Definition keySegments (i : Item) : nat :=
  match order i with
  | Some k => length (Js.split "/" k)
  | None => 1%nat
  end.

(** Every object keyed between [before] and [after] whose parent
    resolves carries the key of that parent without its marker, the
    delimiter, and a rendered number. *)
Definition childKeysBuilt (opt : ThreadSortOptions) (before after : list Item) : Prop :=
  ∀ j cj cj' pi, before !! j = Some cj → order cj = None →
    after !! j = Some cj' → keyed cj' → parentPos after cj' = Some pi →
    ∃ p kp n, after !! pi = Some p ∧ order p = Some kp ∧
      order cj' =
        Some (newThread opt (Js.toStr (stripEor opt (Some kp)) ++ delimiter opt) n).

(** A parent and its child, both with a key, the key of the child being
    the smaller. *)
Definition prekeyedPair : list Item :=
  [ mkItem "p" None (Some "01."); mkItem "c" (Some "p") (Some "00.") ].

(** ** Keys as paths of sibling indices *)

Module Path.

(** The key of the path [k1; ...; kn] is the segments of the indices
    joined by '/' and closed by '.'. *)
Fixpoint tailStr (p : list Z) : string :=
  match p with
  | [] => EmptyString
  | k :: p' => "/" ++ Num.seg k ++ tailStr p'
  end.

(** The key of a path without its marker. *)
Definition bodyStr (p : list Z) : string :=
  match p with
  | [] => EmptyString
  | k :: p' => Num.seg k ++ tailStr p'
  end.

(** The key of a path. *)
Definition render (p : list Z) : string := bodyStr p ++ ".".

(** The indices whose segment has two characters. *)
Definition inRange (k : Z) : Prop := 0 ≤ k < 1296.

(** A path has at least one index, all of them in range. *)
Definition wf (p : list Z) : Prop := p ≠ [] ∧ Forall inRange p.

(** The order of the keys on paths: index by index, a path before its
    extensions. *)
Fixpoint lexCompare (p q : list Z) : comparison :=
  match p, q with
  | [], [] => Eq
  | [], _ :: _ => Lt
  | _ :: _, [] => Gt
  | a :: p', b :: q' =>
      match a ?= b with
      | Eq => lexCompare p' q'
      | r => r
      end
  end.

End Path.

(** ** Sibling groups and well-formed keys *)

(** [keyed] as a test. *)
Definition isKeyed (c : Item) : bool :=
  match order c with
  | Some _ => true
  | None => false
  end.

(** The siblings of an object: the roots form one group, and the
    objects whose [parent] resolves form one group per parent id. *)
Definition groupOf (items : list Item) (c : Item) : option string :=
  if isRoot items c then None else parent c.

(** Membership, size and number of keyed members of a group. *)
Definition inGroup (items : list Item) (g : option string) (c : Item) : bool :=
  Js.strictEq (groupOf items c) g.

Definition groupSize (items : list Item) (g : option string) : nat :=
  length (List.filter (inGroup items g) items).

Definition keyedCount (items : list Item) (g : option string) : nat :=
  length (List.filter (λ c, inGroup items g c && isKeyed c) items).

(** [c] carries the key of the path [p]. *)
Definition hasPath (c : Item) (p : list Z) : Prop :=
  order c = Some (Path.render p) ∧ Path.wf p.

(** The keys of a collection are consistent with its tree: every key is
    the rendering of a path, the path of a child extends the path of its
    parent by one index and a root has a path of length one, no two
    objects share a key, the first index of every path is the index of a
    keyed root, the indices used in a group lie below the number of its
    keyed members, and no group has more than 1296 members. *)
Record wfKeys (items : list Item) : Prop := {
  wk_path : ∀ i c, items !! i = Some c → keyed c → ∃ p, hasPath c p;
  wk_parent : ∀ i c p, items !! i = Some c → hasPath c p →
    match parentPos items c with
    | None => ∃ j, p = [j]
    | Some pi => ∃ cp pp j, items !! pi = Some cp ∧ hasPath cp pp ∧ p = (pp ++ [j])%list
    end;
  wk_inj : ∀ i i' c c' k, items !! i = Some c → items !! i' = Some c' →
    order c = Some k → order c' = Some k → i = i';
  wk_root : ∀ i c p, items !! i = Some c → hasPath c p →
    ∃ r cr, items !! r = Some cr ∧ parentPos items cr = None ∧ hasPath cr [hd 0 p];
  wk_dense : ∀ i c p j, items !! i = Some c → hasPath c (p ++ [j]) →
    j < Z.of_nat (keyedCount items (groupOf items c));
  wk_size : ∀ g, (groupSize items g ≤ 1296)%nat
}.

(** An object keyed between [before] and [after] has a key greater than
    the keys that its siblings had in [before]. *)
Definition olderFirst (before after : list Item) : Prop :=
  ∀ i x j cj cj' kx kj,
    before !! i = Some x → order x = Some kx →
    before !! j = Some cj → order cj = None →
    after !! j = Some cj' → order cj' = Some kj →
    groupOf before x = groupOf before cj →
    String.compare kx kj = Lt.

(** ** Ancestors *)

(** [upFrom items ci j]: the object at [j] is the object at [ci] or one
    of its ancestors. *)
Inductive upFrom (items : list Item) : nat → nat → Prop :=
  | upFrom_self ci : upFrom items ci ci
  | upFrom_parent ci c pi j :
      items !! ci = Some c → parentPos items c = Some pi →
      upFrom items pi j → upFrom items ci j.

(** No sibling group has more than 1296 members. *)
Definition groupsBounded (items : list Item) : bool :=
  forallb (λ c, Nat.leb (groupSize items (groupOf items c)) 1296) items.


(** ** Paths read from keys, and preorder *)

(** The path of a key, read the way the source reads a key: marker
    stripped, split at the delimiter, each segment parsed in radix 36. *)
Definition decode (k : string) : list Z :=
  map (λ s, default 0 (Js.parseInt36 s))
    (from_option (Js.split (delimiter defaults)) [] (stripEor defaults (Some k))).

(** The path of an object; an object without a key has none. *)
Definition pathOf (c : Item) : list Z := from_option decode [] (order c).

(** The sibling index of an object: the last index of its path. *)
Definition siblingIndex (c : Item) : option Z := last (pathOf c).

(** [q] extends [p] by at least one index. *)
Definition extends (p q : list Z) : Prop := ∃ e, e ≠ [] ∧ q = (p ++ e)%list.

(** The strict order of the paths, on objects that have a path. *)
Definition pathLt {A : Type} (path : A → list Z) (x y : A) : Prop :=
  Path.lexCompare (path x) (path y) = Lt.

(** [q] is an object of [l] that the [parent] field of [c] names. *)
Definition isParentIn (l : list Item) (q c : Item) : Prop :=
  q ∈ l ∧ parent c = Some (id q).

(** [descendantIn l p d]: [d] is a child of [p], or a child of a
    descendant of [p]. *)
Inductive descendantIn (l : list Item) (p : Item) : Item → Prop :=
  | desc_child d : isParentIn l p d → descendantIn l p d
  | desc_step q d : descendantIn l p q → isParentIn l q d → descendantIn l p d.

(** [a] and [b] are in the same sibling group of [l]. *)
Definition siblingsIn (l : list Item) (a b : Item) : Prop :=
  groupOf l a = groupOf l b.

(** The part of [wfKeys] that speaks of objects and not of positions:
    it is kept when the list is rearranged. *)
Record treeKeys (l : list Item) : Prop := {
  tk_path : ∀ c, c ∈ l → ∃ p, hasPath c p;
  tk_child : ∀ c q p, c ∈ l → isParentIn l q c → hasPath c p →
    ∃ pq j, hasPath q pq ∧ p = (pq ++ [j])%list;
  tk_root : ∀ c p, c ∈ l → parentPos l c = None → hasPath c p → ∃ j, p = [j];
  tk_inj : ∀ c c' p, c ∈ l → c' ∈ l → hasPath c p → hasPath c' p → c = c'
}.

(** The objects of [sorted] are in preorder: the descendants of the
    object at [i] are exactly the objects at the positions that follow
    [i] up to some [i + n], and siblings come in the order of their
    sibling indices. *)
Definition preorder (sorted : list Item) : Prop :=
  (∀ i p, sorted !! i = Some p →
     ∃ n, ∀ j d, sorted !! j = Some d →
       (descendantIn sorted p d ↔ (i < j ≤ i + n)%nat)) ∧
  (∀ i j a b, sorted !! i = Some a → sorted !! j = Some b → (i < j)%nat →
     siblingsIn sorted a b →
     ∃ ka kb, siblingIndex a = Some ka ∧ siblingIndex b = Some kb ∧ ka < kb).

(** ** Acyclic parent references *)

(** No object is its own ancestor. *)
Definition acyclic (items : list Item) : Prop :=
  ∀ i c pi, items !! i = Some c → parentPos items c = Some pi → ¬ upFrom items pi i.

(** The first [fuel] positions met on the way up from [ci]. *)
Fixpoint chainUp (fuel : nat) (items : list Item) (ci : nat) : list nat :=
  match fuel with
  | O => []
  | S f =>
      ci :: match items !! ci ≫= parentPos items with
            | Some pi => chainUp f items pi
            | None => []
            end
  end.

(** The number of steps from [ci] up to a root, when a root is reached
    within [fuel] steps. *)
Fixpoint rootDepth (fuel : nat) (items : list Item) (ci : nat) : option nat :=
  match fuel with
  | O => None
  | S f =>
      match items !! ci ≫= parentPos items with
      | Some pi => S <$> rootDepth f items pi
      | None => Some O
      end
  end.

(** ** More collections *)

(** A reply that comes before the comment it answers, and a second
    thread. *)
Definition replyFirst : list Item :=
  [ mkItem "c" (Some "r") None; mkItem "r" None None; mkItem "s" None None ].

(** What [sortThread] makes of [replyFirst]. *)
Definition replyFirstSorted : list Item :=
  [ mkItem "r" None (Some "00."); mkItem "c" (Some "r") (Some "00/00.");
    mkItem "s" None (Some "01.") ].



(** ** Parent references that loop *)

(** Every position in [L] holds an object without a key whose parent
    reference resolves to a position in [L]: from such a position the
    way up never leaves [L]. *)
Definition unkeyedLoop (items : list Item) (L : nat → Prop) : Prop :=
  ∀ i, L i → ∃ c pi,
    items !! i = Some c ∧ order c = None ∧ parentPos items c = Some pi ∧ L pi.



(** Two objects that name each other as parent. *)
Definition mutualParents : list Item :=
  [ mkItem "a" (Some "b") None; mkItem "b" (Some "a") None ].

(** ** Collections in which parents come first *)

(** Every object whose parent reference resolves comes after the object
    it resolves to. *)
Definition parentsFirst (items : list Item) : Prop :=
  ∀ i c pi, items !! i = Some c → parentPos items c = Some pi → (pi < i)%nat.

(** The number of objects before position [i] that belong to the sibling
    group of [c]. *)
Definition earlierSiblings (items : list Item) (i : nat) (c : Item) : nat :=
  length (List.filter (inGroup items (groupOf items c)) (take i items)).

(** A comment, a reply to it, and a second comment, in that order. *)
Definition commentFirst : list Item :=
  [ mkItem "r" None None; mkItem "c" (Some "r") None; mkItem "s" None None ].

(** ** Options other than the defaults *)

(** Options with a delimiter other than '/'. *)
Definition dashOptions : ThreadSortOptions :=
  {| endOfRecord := "."; delimiter := "-" |}.

(** No key of the collection holds the character '/'. *)
Definition slashFree (items : list Item) : Prop :=
  ∀ c k, c ∈ items → order c = Some k → Str.lacks "/" k = true.


(** ** Collections with keys on input *)

(** [replyFirst] after the first step of the keying pass: the reply and
    its parent have keys, the second comment has none yet. *)
Definition halfKeyed : list Item :=
  [ mkItem "c" (Some "r") (Some "00/00."); mkItem "r" None (Some "00.");
    mkItem "s" None None ].

(** A reply to the reply of [replyFirst], and a third comment. *)
Definition laterReplies : list Item :=
  [ mkItem "d" (Some "c") None; mkItem "t" None None ].


(** * Properties *)

(** ** The order on strings *)

Module StrOrdFacts.
Import StrOrd.

Lemma ascii_compare_refl c : Ascii.compare c c = Eq.
Proof. apply N.compare_refl. Qed.

Lemma compare_refl s : String.compare s s = Eq.
Proof. induction s as [|c s IH]; simpl; [done|]. by rewrite ascii_compare_refl. Qed.

Lemma compare_eq s t : String.compare s t = Eq ↔ s = t.
Proof. split; [apply String.compare_eq_iff | intros ->; apply compare_refl]. Qed.

Lemma compare_gt_lt s t : String.compare s t = Gt ↔ String.compare t s = Lt.
Proof. rewrite (String.compare_antisym s t). destruct (String.compare t s); simpl; split; congruence. Qed.

Lemma compare_cons c d s t :
  String.compare (String c s) (String d t) =
  match Ascii.compare c d with Eq => String.compare s t | r => r end.
Proof. reflexivity. Qed.

Lemma compare_app_same p s t :
  String.compare (p ++ s) (p ++ t) = String.compare s t.
Proof. induction p as [|c p IH]; simpl; [done|]. by rewrite ascii_compare_refl. Qed.

Lemma lt_trans a b c : lt a b → lt b c → lt a c.
Proof.
  unfold lt. revert b c. induction a as [|x a IH]; intros [|y b] [|z c]; simpl; try done.
  unfold Ascii.compare.
  destruct (N.compare_spec (N_of_ascii x) (N_of_ascii y)) as [E1|L1|G1]; try done;
  destruct (N.compare_spec (N_of_ascii y) (N_of_ascii z)) as [E2|L2|G2]; try done; intros H1 H2.
  - rewrite E1, E2, N.compare_refl. eauto.
  - rewrite E1. by apply N.compare_lt_iff in L2 as ->.
  - rewrite <- E2. by apply N.compare_lt_iff in L1 as ->.
  - assert (N_of_ascii x < N_of_ascii z)%N as L by lia. by apply N.compare_lt_iff in L as ->.
Qed.

Lemma le_lteq a b : le a b ↔ lt a b ∨ a = b.
Proof.
  unfold le, lt. rewrite <- compare_eq. destruct (String.compare a b); split; intros; try done; auto.
  by destruct H.
Qed.

Lemma le_refl a : le a a.
Proof. apply le_lteq. by right. Qed.

Lemma le_trans a b c : le a b → le b c → le a c.
Proof.
  rewrite !le_lteq. intros [H1| ->] [H2| ->]; auto. left. by eapply lt_trans.
Qed.


Lemma le_lt_trans a b c : le a b → lt b c → lt a c.
Proof. rewrite le_lteq. intros [H1| ->] H2; [by eapply lt_trans|done]. Qed.

Lemma lt_irrefl a : ¬ lt a a.
Proof. unfold lt. by rewrite compare_refl. Qed.

Lemma lt_not_le a b : lt a b → ¬ le b a.
Proof. unfold lt, le. rewrite <- compare_gt_lt. tauto. Qed.

Lemma not_le_lt a b : ¬ le a b → lt b a.
Proof. unfold lt, le. rewrite <- compare_gt_lt. destruct (String.compare a b); try done; intros []; done. Qed.


Lemma empty_lt c s : lt EmptyString (String c s).
Proof. reflexivity. Qed.

End StrOrdFacts.

(** ** Facts about the stable sort *)

Section SortFacts.

Context {A : Type} (cmp : A → A → comparison) (P : A → Prop).

Hypothesis cle_trans : ∀ x y z, P x → P y → P z → cle cmp x y → cle cmp y z → cle cmp x z.

Hypothesis cle_total : ∀ x y, P x → P y → cmp x y = Gt → cle cmp y x.

Lemma insert_perm x l : Js.insert cmp x l ≡ₚ x :: l.
Proof.
  induction l as [|y l IH]; simpl; [done|].
  destruct (cmp x y); try done. rewrite IH. apply Permutation_swap.
Qed.

Lemma sort_perm l : Js.sort cmp l ≡ₚ l.
Proof.
  induction l as [|x l IH]; simpl; [done|].
  unfold Js.sort in *. simpl. by rewrite insert_perm, IH.
Qed.

Lemma insert_sorted x l :
  P x → Forall P l → StronglySorted (cle cmp) l → StronglySorted (cle cmp) (Js.insert cmp x l).
Proof.
  intros Px Pl Hs. induction Hs as [|y l Hs IH Hy]; simpl.
  - repeat constructor.
  - apply Forall_cons in Pl as [Py Pl].
    assert (x_le_y : cmp x y ≠ Gt → StronglySorted (cle cmp) (x :: y :: l)).
    { intros Hxy. constructor; [by constructor|]. constructor; [done|].
      rewrite Forall_forall in Hy, Pl. apply Forall_forall. intros z Hz.
      apply (cle_trans x y z); auto. }
    destruct (cmp x y) eqn:E; try (apply x_le_y; congruence).
    constructor; [by apply IH|].
    rewrite insert_perm. constructor; [by apply cle_total|done].
Qed.

Lemma sort_sorted l : Forall P l → StronglySorted (cle cmp) (Js.sort cmp l).
Proof.
  induction 1 as [|x l Px Pl IH]; simpl; [constructor|].
  apply insert_sorted; auto. by rewrite sort_perm.
Qed.

Lemma sort_sorted_id l : StronglySorted (cle cmp) l → Js.sort cmp l = l.
Proof.
  induction 1 as [|x l Hs IH Hx]; [done|].
  unfold Js.sort in *. simpl. rewrite IH.
  destruct l as [|y l]; [done|]. simpl.
  apply Forall_cons in Hx as [Hxy _]. unfold cle in Hxy.
  by destruct (cmp x y).
Qed.

Lemma sorted_last_max l m :
  StronglySorted (cle cmp) l → last l = Some m → ∀ x, x ∈ l → x = m ∨ cle cmp x m.
Proof.
  induction 1 as [|y l Hs IH Hy]; [done|]. intros Hl x Hx.
  destruct l as [|z l].
  - simpl in Hl. apply list_elem_of_singleton in Hx. left. congruence.
  - change (last (z :: l) = Some m) in Hl.
    apply elem_of_cons in Hx as [->|Hx]; [|by apply IH].
    right. rewrite Forall_forall in Hy. apply Hy.
    rewrite last_lookup in Hl. by eapply list_elem_of_lookup_2.
Qed.

End SortFacts.

(** ** What a call of [populateThreadForItem] changes *)

Lemma laterItem_refl c : laterItem c c.
Proof. by repeat split. Qed.

Lemma laterItem_trans c1 c2 c3 : laterItem c1 c2 → laterItem c2 c3 → laterItem c1 c3.
Proof.
  intros (?&?&H1) (?&?&H2). repeat split; [congruence..|]. auto.
Qed.

Lemma laterItems_refl items : laterItems items items.
Proof. apply Forall2_same_length_lookup_2; [done|]. intros i c c' ? ?. simplify_eq. apply laterItem_refl. Qed.

Lemma laterItems_trans l1 l2 l3 : laterItems l1 l2 → laterItems l2 l3 → laterItems l1 l3.
Proof.
  intros H1 H2. eapply Forall2_trans; [|exact H1|exact H2].
  intros. by eapply laterItem_trans.
Qed.

Lemma laterItems_length l1 l2 : laterItems l1 l2 → length l2 = length l1.
Proof. intros H. symmetry. by eapply Forall2_length. Qed.

Lemma laterItems_lookup l1 l2 i c :
  laterItems l1 l2 → l1 !! i = Some c → ∃ c', l2 !! i = Some c' ∧ laterItem c c'.
Proof. intros H Hc. by eapply Forall2_lookup_l. Qed.

Lemma laterItems_lookup_r l1 l2 i c' :
  laterItems l1 l2 → l2 !! i = Some c' → ∃ c, l1 !! i = Some c ∧ laterItem c c'.
Proof. intros H Hc. by eapply Forall2_lookup_r. Qed.

Lemma setThread_length items ci v : length (setThread items ci v) = length items.
Proof. apply length_alter. Qed.

Lemma setThread_lookup items ci v c :
  items !! ci = Some c →
  setThread items ci v !! ci = Some {| id := id c; parent := parent c; order := v |}.
Proof. intros H. unfold setThread. by rewrite list_lookup_alter_eq, H. Qed.

Lemma setThread_lookup_ne items ci j v :
  ci ≠ j → setThread items ci v !! j = items !! j.
Proof. intros H. unfold setThread. by rewrite list_lookup_alter_ne. Qed.

Lemma setThread_later items ci c v :
  items !! ci = Some c → order c = None → laterItems items (setThread items ci v).
Proof.
  intros Hc Ho. apply Forall2_same_length_lookup_2; [by rewrite setThread_length|].
  intros j x y Hx Hy. destruct (decide (ci = j)) as [<-|Hne].
  - rewrite (setThread_lookup _ _ _ c) in Hy by done. simplify_eq.
    repeat split. simpl. congruence.
  - rewrite setThread_lookup_ne in Hy by done. simplify_eq. apply laterItem_refl.
Qed.

(** [find] depends on the predicate pointwise, and the parent lookup on
    the ids alone. *)
Lemma find_ext {A} (p q : A → bool) l : (∀ x, p x = q x) → Js.find p l = Js.find q l.
Proof.
  intros H. unfold Js.find. apply list_find_ext. intros x. by rewrite H.
Qed.

Lemma looseEq_strictEq a b : Js.looseEq a b = Js.strictEq a b.
Proof. by destruct a, b. Qed.

Lemma strictEq_true a b : Js.strictEq a b = true ↔ a = b.
Proof.
  destruct a as [s|], b as [t|]; simpl; try (split; congruence).
  rewrite String.eqb_eq. split; congruence.
Qed.

Lemma find_later (q : string → bool) l1 l2 :
  laterItems l1 l2 →
  fst <$> Js.find (λ i, q (id i)) l2 = fst <$> Js.find (λ i, q (id i)) l1.
Proof.
  unfold Js.find. induction 1 as [|c c' l1 l2 (Hid&_&_) _ IH]; [done|].
  simpl. rewrite Hid. destruct (decide (q (id c))); [done|].
  rewrite <- !option_fmap_compose. 
  destruct (list_find _ l1) as [[]|], (list_find _ l2) as [[]|]; simpl in *; congruence.
Qed.

Lemma parentPos_later l1 l2 c c' :
  laterItems l1 l2 → laterItem c c' → parentPos l2 c' = parentPos l1 c.
Proof.
  intros H (_&Hp&_). unfold parentPos. rewrite Hp.
  apply (find_later (λ s, Js.looseEq (Some s) (parent c))), H.
Qed.

Lemma isRoot_parentPos items c : isRoot items c = true ↔ parentPos items c = None.
Proof.
  unfold parentPos.
  rewrite (find_ext (λ i, Js.looseEq (Some (id i)) (parent c))
             (λ i, Js.strictEq (Some (id i)) (parent c))) by (intros; apply looseEq_strictEq).
  unfold isRoot.
  destruct (parent c) as [pid|] eqn:Hp.
  - destruct (Js.find _ items) as [[]|]; simpl; split; congruence.
  - split; [|done]. intros _. rewrite fmap_None.
    apply list_find_None, Forall_forall. intros x _. simpl. tauto.
Qed.

Lemma isRoot_later l1 l2 c c' :
  laterItems l1 l2 → laterItem c c' → isRoot l2 c' = isRoot l1 c.
Proof.
  intros H1 H2. apply eq_true_iff_eq. by rewrite !isRoot_parentPos, (parentPos_later l1 l2 c c').
Qed.

Lemma populate_unfold opt fuel items ci :
  populateThreadForItem opt (S fuel) items ci =
  match items !! ci with
  | None => Done items
  | Some c =>
      match order c with
      | Some _ => Done items
      | None =>
          match parentPos items c with
          | None => Done (setThread items ci (Some (newThread opt "" (rootNum opt items))))
          | Some pi =>
              match populateThreadForItem opt fuel items pi with
              | Done items1 => Done (setThread items1 ci (Some (childThread opt items1 pi c)))
              | failure => failure
              end
          end
      end
  end.
Proof.
  simpl. destruct (items !! ci) as [c|]; [|done].
  destruct (order c); [done|].
  destruct (isRoot items c) eqn:Hr.
  - apply isRoot_parentPos in Hr. by rewrite Hr.
  - assert (parentPos items c ≠ None) as Hp.
    { rewrite <- isRoot_parentPos. congruence. }
    unfold parentPos in *.
    destruct (Js.find _ items) as [[pi p]|]; [done|]. by destruct Hp.
Qed.

Lemma unkeyedDepth_mono f f' items ci d :
  unkeyedDepth f items ci = Some d → (f ≤ f')%nat → unkeyedDepth f' items ci = Some d.
Proof.
  revert f' ci d. induction f as [|f IH]; intros [|f'] ci d; simpl; try done; try lia.
  intros H Hle. destruct (items !! ci) as [c|]; [|done].
  destruct (order c); [done|]. destruct (parentPos items c) as [pi|]; [|done].
  apply fmap_Some in H as (d'&H&->). by rewrite (IH f' pi d') by (done || lia).
Qed.

Lemma unkeyedDepth_bound f items ci d :
  unkeyedDepth f items ci = Some d → (d ≤ f)%nat.
Proof.
  revert ci d. induction f as [|f IH]; intros ci d; simpl; [done|].
  destruct (items !! ci) as [c|]; [|intros; simplify_eq; lia].
  destruct (order c); [intros; simplify_eq; lia|].
  destruct (parentPos items c) as [pi|]; [|intros; simplify_eq; lia].
  intros (d'&H&->)%fmap_Some. apply IH in H. lia.
Qed.

Lemma populate_returns opt f items ci d :
  unkeyedDepth f items ci = Some d → ∃ items', populateThreadForItem opt f items ci = Done items'.
Proof.
  revert ci d. induction f as [|f IH]; intros ci d; [done|].
  rewrite populate_unfold. simpl.
  destruct (items !! ci) as [c|]; [|eauto].
  destruct (order c); [eauto|]. destruct (parentPos items c) as [pi|]; [|eauto].
  intros (d'&H&->)%fmap_Some. destruct (IH _ _ H) as [items1 ->]. eauto.
Qed.

Lemma populate_not_thrown opt f items ci :
  populateThreadForItem opt f items ci ≠ ParentNotFound.
Proof.
  revert ci. induction f as [|f IH]; intros ci; [done|].
  rewrite populate_unfold.
  destruct (items !! ci) as [c|]; [|done].
  destruct (order c); [done|]. destruct (parentPos items c) as [pi|]; [|done].
  specialize (IH pi). by destruct (populateThreadForItem opt f items pi).
Qed.

(** The objects keyed by a call lie on the chain of unkeyed ancestors of
    the argument, and keys set before the call are kept. *)
Lemma populate_later opt f items ci items' :
  populateThreadForItem opt f items ci = Done items' →
  laterItems items items' ∧
  ∃ d, unkeyedDepth f items ci = Some d ∧
    ∀ j cj cj', items !! j = Some cj → items' !! j = Some cj' →
      order cj = None → keyed cj' →
      ∃ dj, unkeyedDepth f items j = Some dj ∧ (1 ≤ dj ≤ d)%nat.
Proof.
  revert ci items'. induction f as [|f IH]; intros ci items'; [done|].
  rewrite populate_unfold. simpl.
  destruct (items !! ci) as [c|] eqn:Hc.
  2:{ intros [= <-]. split; [apply laterItems_refl|]. exists O. split; [done|].
      intros j cj cj' ? ? ? [k ?]. simplify_eq; congruence. }
  destruct (order c) as [k|] eqn:Ho.
  { intros [= <-]. split; [apply laterItems_refl|]. exists O. split; [done|].
    intros j cj cj' ? ? ? [k' ?]. simplify_eq; congruence. }
  destruct (parentPos items c) as [pi|] eqn:Hp.
  - destruct (populateThreadForItem opt f items pi) as [items1| |] eqn:Hrec; try done.
    intros [= <-]. destruct (IH _ _ Hrec) as (Hl & d & Hd & Hnew).
    destruct (laterItems_lookup _ _ _ _ Hl Hc) as (c1 & Hc1 & Hlc).
    assert (order c1 = None) as Ho1.
    { destruct (order c1) as [k1|] eqn:Ho1; [|done]. exfalso.
      destruct (Hnew ci c c1) as (dj & Hdj & Hle); [done..|by eexists|].
      apply (unkeyedDepth_mono _ (S f)) in Hdj; [|lia].
      simpl in Hdj. rewrite Hc, Ho, Hp, Hd in Hdj. simpl in Hdj. simplify_eq. lia. }
    split.
    { eapply laterItems_trans; [exact Hl|]. by eapply setThread_later. }
    exists (S d). rewrite Hd. split; [done|].
    intros j cj cj' Hj Hj' Hoj Hk. destruct (decide (ci = j)) as [<-|Hne].
    + exists (S d). assert (cj = c) as -> by congruence. rewrite Hc, Ho, Hp, Hd. split; [done|lia].
    + rewrite setThread_lookup_ne in Hj' by done.
      destruct (Hnew j cj cj') as (dj & Hdj & Hle); [done..|].
      exists dj. split; [|lia].
      apply (unkeyedDepth_mono _ (S f)) in Hdj; [|lia]. done.
  - intros [= <-]. split; [by eapply setThread_later|].
    exists 1%nat. split; [done|].
    intros j cj cj' Hj Hj' Hoj Hk. destruct (decide (ci = j)) as [<-|Hne].
    + exists 1%nat. assert (cj = c) as -> by congruence. rewrite Hc, Ho, Hp. split; [done|lia].
    + rewrite setThread_lookup_ne in Hj' by done. simplify_eq.
      destruct Hk as [? ?]. congruence.
Qed.

(** ** The keying pass as a whole *)

Lemma populate_keyed_noop opt f items ci c :
  items !! ci = Some c → keyed c → populateThreadForItem opt (S f) items ci = Done items.
Proof. intros Hc [k Hk]. by rewrite populate_unfold, Hc, Hk. Qed.

Lemma populate_keys_argument opt f items ci items' c :
  populateThreadForItem opt f items ci = Done items' →
  items !! ci = Some c → ∃ c', items' !! ci = Some c' ∧ keyed c'.
Proof.
  destruct f as [|f]; [done|]. rewrite populate_unfold. intros H Hc.
  rewrite Hc in H. destruct (order c) as [k|] eqn:Ho.
  { simplify_eq. exists c. split; [done|]. by exists k. }
  destruct (parentPos items c) as [pi|].
  - destruct (populateThreadForItem opt f items pi) as [items1| |] eqn:Hrec; try done.
    apply populate_later in Hrec as [Hl _].
    destruct (laterItems_lookup _ _ _ _ Hl Hc) as (c1 & Hc1 & _).
    simplify_eq. rewrite (setThread_lookup _ _ _ c1) by done. eexists. split; [done|]. by eexists.
  - simplify_eq. rewrite (setThread_lookup _ _ _ c) by done. eexists. split; [done|]. by eexists.
Qed.

Lemma laterItem_keyed c c' : laterItem c c' → keyed c → keyed c'.
Proof. intros (_&_&H) [k Hk]. exists k. auto. Qed.

Lemma populateAll_later opt f items todo items' :
  populateAll opt f items todo = Done items' → laterItems items items'.
Proof.
  revert items. induction todo as [|ci todo IH]; intros items; simpl.
  - intros [= <-]. apply laterItems_refl.
  - destruct (populateThreadForItem opt f items ci) as [items1| |] eqn:H1; try done.
    intros H2. apply populate_later in H1 as [H1 _]. eapply laterItems_trans; eauto.
Qed.

Lemma populateAll_keyed opt f items todo items' :
  populateAll opt f items todo = Done items' →
  ∀ j c', j ∈ todo → items' !! j = Some c' → keyed c'.
Proof.
  revert items. induction todo as [|ci todo IH]; intros items; simpl.
  - intros _ j c' Hj. by apply elem_of_nil in Hj.
  - destruct (populateThreadForItem opt f items ci) as [items1| |] eqn:H1; try done.
    intros H2 j c' Hj Hc'. apply elem_of_cons in Hj as [->|Hj]; [|by eapply IH].
    apply populateAll_later in H2.
    destruct (laterItems_lookup_r _ _ _ _ H2 Hc') as (c1 & Hc1 & Hl1).
    pose proof (populate_later _ _ _ _ _ H1) as [Hl _].
    destruct (laterItems_lookup_r _ _ _ _ Hl Hc1) as (c & Hc & _).
    destruct (populate_keys_argument _ _ _ _ _ _ H1 Hc) as (c1' & ? & ?).
    simplify_eq. by eapply laterItem_keyed.
Qed.

Lemma populateAll_not_thrown opt f items todo :
  populateAll opt f items todo ≠ ParentNotFound.
Proof.
  revert items. induction todo as [|ci todo IH]; intros items; simpl; [done|].
  pose proof (populate_not_thrown opt f items ci).
  destruct (populateThreadForItem opt f items ci); auto.
Qed.

Lemma keyPass_later opt items keyedItems :
  keyPass opt items = Done keyedItems → laterItems items keyedItems.
Proof. apply populateAll_later. Qed.

Lemma keyPass_all_keyed opt items keyedItems :
  keyPass opt items = Done keyedItems → Forall keyed keyedItems.
Proof.
  intros H. apply Forall_lookup. intros j c' Hc'.
  eapply populateAll_keyed; [exact H| |exact Hc'].
  apply elem_of_seq. apply lookup_lt_Some in Hc'.
  apply keyPass_later, laterItems_length in H. lia.
Qed.

Lemma populateAll_keyed_noop opt f items todo :
  Forall keyed items → populateAll opt (S f) items todo = Done items.
Proof.
  intros Hk. induction todo as [|ci todo IH]; [done|].
  cbn [populateAll]. destruct (items !! ci) as [c|] eqn:Hc.
  - rewrite (populate_keyed_noop _ _ _ _ c); [done..|].
    by eapply Forall_lookup_1.
  - by rewrite populate_unfold, Hc.
Qed.

(** [compareThread] is a total preorder on keyed objects. *)
Lemma compareThread_keyed a b x y :
  order a = Some x → order b = Some y → compareThread a b = String.compare x y.
Proof. unfold compareThread. by intros -> ->. Qed.

Lemma compareThread_trans x y z :
  keyed x → keyed y → keyed z →
  cle compareThread x y → cle compareThread y z → cle compareThread x z.
Proof.
  intros [a Ha] [b Hb] [c Hc]. unfold cle.
  rewrite (compareThread_keyed x y a b), (compareThread_keyed y z b c),
    (compareThread_keyed x z a c) by done.
  apply StrOrdFacts.le_trans.
Qed.

Lemma compareThread_total x y :
  keyed x → keyed y → compareThread x y = Gt → cle compareThread y x.
Proof.
  intros [a Ha] [b Hb]. unfold cle.
  rewrite (compareThread_keyed x y a b), (compareThread_keyed y x b a) by done.
  rewrite StrOrdFacts.compare_gt_lt. congruence.
Qed.

Lemma sortThread_Done opt items sorted :
  sortThread opt items = Done sorted ↔
  ∃ keyedItems, keyPass opt items = Done keyedItems ∧
    sorted = Js.sort compareThread keyedItems.
Proof.
  unfold sortThread. destruct (keyPass opt items); split;
    try done; try (intros (?&?&?); done).
  - intros [= <-]. eauto.
  - intros (?&[= <-]&->). done.
Qed.

Lemma sortThread_sorted opt items sorted :
  sortThread opt items = Done sorted →
  Forall keyed sorted ∧ StronglySorted (cle compareThread) sorted.
Proof.
  intros (keyedItems & Hk & ->)%sortThread_Done.
  apply keyPass_all_keyed in Hk. split.
  - by rewrite sort_perm.
  - eapply sort_sorted; [apply compareThread_trans|apply compareThread_total|done].
Qed.

(** C2. Idempotence: on the result of a call, a second call keys
    nothing (its keying pass returns its argument as it is, keys
    included) and returns the objects in the same order. *)
Theorem sortThread_idempotent opt items sorted :
  sortThread opt items = Done sorted →
  keyPass opt sorted = Done sorted ∧ sortThread opt sorted = Done sorted.
Proof.
  intros H. apply sortThread_sorted in H as [Hk Hs].
  assert (keyPass opt sorted = Done sorted) as Hp
    by (by apply populateAll_keyed_noop).
  split; [done|]. unfold sortThread. rewrite Hp.
  by rewrite sort_sorted_id.
Qed.

(** C8. The error of line 61 cannot be raised: when the test of line 46
    sends control to the child case, the lookup of line 58 finds the
    parent, so neither a call of [populateThreadForItem] nor
    [sortThread] ends with that error. *)
Theorem parent_not_found_unreachable opt :
  (∀ items c, isRoot items c = false →
     is_Some (Js.find (λ i, Js.looseEq (Some (id i)) (parent c)) items)) ∧
  (∀ fuel items ci, populateThreadForItem opt fuel items ci ≠ ParentNotFound) ∧
  (∀ items, sortThread opt items ≠ ParentNotFound).
Proof.
  split_and!.
  - intros items c Hr.
    assert (parentPos items c ≠ None) as Hp.
    { rewrite <- isRoot_parentPos. congruence. }
    unfold parentPos in Hp. destruct (Js.find _ items); [eauto|done].
  - apply populate_not_thrown.
  - intros items. unfold sortThread, keyPass.
    pose proof (populateAll_not_thrown opt (S (length items)) items (seq 0 (length items))).
    by destruct (populateAll _ _ _ _).
Qed.

(** ** Facts about the string primitives *)

Module StrFacts.
Import Str.

Lemma app_nil_r s : s ++ "" = s.
Proof. induction s as [|c s IH]; simpl; congruence. Qed.

Lemma app_assoc s t u : (s ++ t) ++ u = s ++ (t ++ u).
Proof. induction s as [|c s IH]; simpl; congruence. Qed.

Lemma endsWith_app s suf : Js.endsWith (s ++ suf) suf = true.
Proof.
  induction s as [|c s IH]; simpl.
  - destruct suf as [|c suf]; [done|].
    cbn [Js.endsWith]. by rewrite String.eqb_refl.
  - rewrite IH. apply orb_true_r.
Qed.

Lemma dropLast_snoc s c : Js.dropLast (s ++ String c "") = s.
Proof.
  induction s as [|d s IH]; [done|].
  simpl. rewrite IH. by destruct s.
Qed.

Lemma lacks_app d s t : lacks d (s ++ t) = lacks d s && lacks d t.
Proof. induction s as [|c s IH]; simpl; [done|]. by rewrite IH, andb_assoc. Qed.

Lemma lastChar_app s c t : lastChar (s ++ String c t) = lastChar (String c t).
Proof.
  induction s as [|d s IH]; [done|].
  change (lastChar (String d (s ++ String c t)) = lastChar (String c t)).
  rewrite <- IH. simpl. by destruct s.
Qed.

Lemma endsWith_lastChar s c :
  Js.endsWith s (String c "") = true → lastChar s = Some c.
Proof.
  induction s as [|d s IH]; [done|].
  cbn [Js.endsWith]. intros [H|H]%orb_true_iff.
  - apply String.eqb_eq in H. by simplify_eq.
  - rewrite <- (IH H). by destruct s.
Qed.

Lemma splitGo_single d acc s :
  Js.splitGo (String d "") O acc s = splitChar d acc s.
Proof.
  revert acc. induction s as [|c s IH]; intros acc; [done|].
  simpl. destruct (ascii_dec d c) as [->|Hne].
  - rewrite Ascii.eqb_refl.
    assert (String.prefix "" s = true) as -> by (by destruct s). by rewrite IH.
  - apply Ascii.eqb_neq in Hne. rewrite Ascii.eqb_sym, Hne. apply IH.
Qed.

Lemma split_single d s : Js.split (String d "") s = splitChar d "" s.
Proof. apply splitGo_single. Qed.

Lemma splitChar_lacks d acc s : lacks d s = true → splitChar d acc s = [acc ++ s].
Proof.
  revert acc. induction s as [|c s IH]; intros acc; simpl.
  - by rewrite app_nil_r.
  - intros [Hc Hs]%andb_true_iff. apply negb_true_iff in Hc. rewrite Hc.
    rewrite IH by done. by rewrite app_assoc.
Qed.

Lemma splitChar_app d acc s t :
  lacks d s = true →
  splitChar d acc (s ++ String d t) = (acc ++ s) :: splitChar d "" t.
Proof.
  revert acc. induction s as [|c s IH]; intros acc; simpl.
  - intros _. by rewrite Ascii.eqb_refl, app_nil_r.
  - intros [Hc Hs]%andb_true_iff. apply negb_true_iff in Hc. rewrite Hc.
    rewrite IH by done. by rewrite app_assoc.
Qed.

End StrFacts.

(** With the default marker, a string that ends with the marker loses
    it, and a string that ends otherwise is kept. *)
Lemma stripEor_marked s : stripEor defaults (Some (s ++ ".")) = Some s.
Proof.
  unfold stripEor. simpl endOfRecord. rewrite StrFacts.endsWith_app.
  rewrite StrFacts.dropLast_snoc. by destruct s.
Qed.

Lemma stripEor_unmarked s :
  Str.lastChar s ≠ Some "."%char → stripEor defaults (Some s) = Some s.
Proof.
  intros H. unfold stripEor. simpl endOfRecord.
  destruct (Js.endsWith s ".") eqn:E; [|by rewrite andb_false_r].
  by apply StrFacts.endsWith_lastChar in E.
Qed.

(** ** Facts about the rendering of numbers *)

Module NumFacts.
Import Num.

(** A check of every number below [n]. *)
Lemma check_below (n : nat) (P : Z → bool) :
  forallb (λ i, P (Z.of_nat i)) (seq 0 n) = true →
  ∀ z, 0 ≤ z < Z.of_nat n → P z = true.
Proof.
  intros H z Hz. rewrite forallb_forall in H.
  specialize (H (Z.to_nat z)). rewrite Z2Nat.id in H by lia.
  apply H, in_seq. lia.
Qed.

Lemma digitChar_isDigit d : 0 ≤ d < 36 → isDigit (Js.digitChar d) = true.
Proof. apply (check_below 36 (λ d, isDigit (Js.digitChar d))). by vm_compute. Qed.


Lemma digitChar_compare a b :
  0 ≤ a < 36 → 0 ≤ b < 36 →
  Ascii.compare (Js.digitChar a) (Js.digitChar b) = (a ?= b).
Proof.
  intros Ha Hb.
  pose (P := λ a, forallb (λ i, bool_decide
    (Ascii.compare (Js.digitChar a) (Js.digitChar (Z.of_nat i)) = (a ?= Z.of_nat i)))
    (seq 0 36)).
  assert (P a = true) as H by (apply (check_below 36 P); [by vm_compute|done]).
  unfold P in H.
  apply (check_below 36 (λ b, bool_decide
    (Ascii.compare (Js.digitChar a) (Js.digitChar b) = (a ?= b))) H) in Hb.
  by apply bool_decide_eq_true in Hb.
Qed.

Lemma isDigit_not c d : isDigit c = true → isDigit d = false → Ascii.eqb c d = false.
Proof. intros Hc Hd. apply Ascii.eqb_neq. congruence. Qed.

Lemma digits36_lacks d f z acc :
  structural d → Str.lacks d acc = true → Str.lacks d (Js.digits36 f z acc) = true.
Proof.
  intros Hd. revert z acc. induction f as [|f IH]; intros z acc Hacc; [done|].
  simpl. assert (Str.lacks d (String (Js.digitChar (z mod 36)) acc) = true) as H.
  { simpl. rewrite Hacc, andb_true_r. apply negb_true_iff, isDigit_not; [|done].
    apply digitChar_isDigit, Z.mod_pos_bound. lia. }
  destruct (z / 36 =? 0); [done|]. by apply IH.
Qed.

Lemma padStart2_lacks d s :
  structural d → Str.lacks d s = true → Str.lacks d (Js.padStart2 s) = true.
Proof.
  intros Hd Hs. destruct s as [|c [|c' s]]; cbn [Js.padStart2 Str.lacks] in *;
    rewrite ?(isDigit_not "0" d) by done; done.
Qed.

(** A rendered number holds neither a '/' nor a '.'. *)
Lemma rendered_lacks d n :
  d = "/"%char ∨ d = "."%char →
  Str.lacks d (Js.padStart2 (Js.toString36 n)) = true.
Proof.
  intros Hd. assert (structural d) as Hs by (by destruct Hd as [-> | ->]).
  apply padStart2_lacks; [done|]. destruct n as [z|]; cbn [Js.toString36].
  - destruct (z <? 0).
    + cbn [Str.lacks]. rewrite digits36_lacks by done.
      by destruct Hd as [-> | ->].
    + by apply digits36_lacks.
  - by destruct Hd as [-> | ->].
Qed.

Lemma seg_two k : 0 ≤ k < 1296 → seg k = two k.
Proof.
  intros H.
  apply (check_below 1296 (λ k, String.eqb (seg k) (two k))) in H;
    [by apply String.eqb_eq in H|by vm_compute].
Qed.

Lemma seg_parse k : 0 ≤ k < 1296 → Js.parseInt36 (seg k) = Some k.
Proof.
  intros H.
  apply (check_below 1296 (λ k, bool_decide (Js.parseInt36 (seg k) = Some k))) in H;
    [by apply bool_decide_eq_true in H|by vm_compute].
Qed.

Lemma seg_lacks d k : d = "/"%char ∨ d = "."%char → Str.lacks d (seg k) = true.
Proof. apply rendered_lacks. Qed.

Lemma seg_compare j k x y :
  0 ≤ j < 1296 → 0 ≤ k < 1296 →
  String.compare (seg j ++ x) (seg k ++ y) =
  match j ?= k with Eq => String.compare x y | r => r end.
Proof.
  intros Hj Hk. rewrite !seg_two by done. unfold two. simpl.
  assert (0 ≤ j / 36 < 36 ∧ 0 ≤ k / 36 < 36) as [? ?]
    by (split; split; try apply Z.div_pos; try apply Z.div_lt_upper_bound; lia).
  assert (0 ≤ j mod 36 < 36 ∧ 0 ≤ k mod 36 < 36) as [? ?]
    by (split; apply Z.mod_pos_bound; lia).
  rewrite !digitChar_compare by done.
  pose proof (Z.div_mod j 36) as Ej. pose proof (Z.div_mod k 36) as Ek.
  destruct (Z.compare_spec (j / 36) (k / 36)) as [E1|L1|G1];
    [destruct (Z.compare_spec (j mod 36) (k mod 36)) as [E2|L2|G2]|..];
    destruct (Z.compare_spec j k); try done; lia.
Qed.

Lemma seg_nonempty k : ∃ c s, seg k = String c s.
Proof.
  unfold seg. destruct (Js.toString36 (Some k)) as [|c [|c' s]]; simpl; eauto.
Qed.

End NumFacts.

(** ** Radix 36 *)

Module Radix36.



Lemma digits36_S f z acc :
  Js.digits36 (S f) z acc =
  if z / 36 =? 0 then String (Js.digitChar (z mod 36)) acc
  else Js.digits36 f (z / 36) (String (Js.digitChar (z mod 36)) acc).
Proof. done. Qed.






Lemma padStart2_length s : (2 ≤ String.length (Js.padStart2 s))%nat.
Proof. destruct s as [|c [|c' s]]; simpl; lia. Qed.

End Radix36.


(** ** The two scans for a maximum *)


Lemma scan_spec (f : Item → bool) items :
  (∀ c, f c = true → keyed c) →
  match last (Js.sort compareThread (List.filter f items)) ≫= order with
  | None => ∀ c, c ∈ items → f c = false
  | Some m => greatestKey f items m
  end.
Proof.
  intros Hf.
  assert (Forall keyed (List.filter f items)) as Hk.
  { apply Forall_forall. intros c Hc%list_elem_of_In%filter_In. apply Hf, Hc. }
  pose proof (sort_sorted compareThread keyed compareThread_trans compareThread_total _ Hk) as Hs.
  pose proof (sort_perm compareThread (List.filter f items)) as Hp.
  destruct (last (Js.sort compareThread (List.filter f items))) as [x|] eqn:Hl.
  - assert (x ∈ List.filter f items) as Hx.
    { rewrite <- Hp. by apply last_Some_elem_of. }
    apply list_elem_of_In, filter_In in Hx as [Hx%list_elem_of_In Hfx].
    destruct (Hf x Hfx) as [m Hm]. simpl. rewrite Hm. split; [by eauto|].
    intros c k Hc Hfc Hck.
    assert (c ∈ Js.sort compareThread (List.filter f items)) as Hc'.
    { rewrite Hp. apply list_elem_of_In, filter_In. by rewrite <- list_elem_of_In. }
    destruct (sorted_last_max _ _ _ Hs Hl c Hc') as [->|Hle].
    + assert (k = m) as -> by congruence. apply StrOrdFacts.le_refl.
    + unfold cle in Hle. by rewrite (compareThread_keyed c x k m) in Hle.
  - simpl. apply last_None in Hl. rewrite Hl in Hp.
    apply Permutation_nil_l in Hp. intros c Hc.
    destruct (f c) eqn:Hfc; [|done].
    assert (c ∈ List.filter f items) as Hin
      by (apply list_elem_of_In, filter_In; by rewrite <- list_elem_of_In).
    rewrite <- Hp in Hin. by apply elem_of_nil in Hin.
Qed.

Lemma truthy_keyed o : Js.truthy o = true → is_Some o.
Proof. destruct o; [eauto|done]. Qed.

Lemma getMaxThread_spec items :
  match getMaxThread items with
  | None => ∀ c, c ∈ items → nonEmptyKey c = false
  | Some m => greatestKey nonEmptyKey items m
  end.
Proof. apply (scan_spec nonEmptyKey). intros c. apply truthy_keyed. Qed.

Lemma getMaxThreadPerThread_spec items pid :
  match getMaxThreadPerThread items pid with
  | None => ∀ c, c ∈ items → siblingKey pid c = false
  | Some m => greatestKey (siblingKey pid) items m
  end.
Proof.
  apply (scan_spec (siblingKey pid)).
  intros c [_ H]%andb_true_iff. by apply truthy_keyed.
Qed.


(** ** Past 1296 siblings *)

Lemma whenDone_true {A} (r : Outcome A) f :
  whenDone r f = true → ∃ x, r = Done x ∧ f x = true.
Proof. destruct r; [eauto|done..]. Qed.

Lemma overflow_evaluated :
  whenDone (sortThread defaults (manyRoots 1297)) (λ sorted,
    rootWithKey (sorted !! 37%nat) (newThread defaults "" (Some 1295)) &&
    rootWithKey (sorted !! 38%nat) (newThread defaults "" (Some 36))) = true.
Proof. vm_compute. reflexivity. Qed.

Lemma rootWithKey_true o k :
  rootWithKey o k = true → ∃ c, o = Some c ∧ order c = Some k ∧ parent c = None.
Proof.
  destruct o as [c|]; [|done]. simpl.
  intros [H1%strictEq_true H2%strictEq_true]%andb_true_iff. eauto.
Qed.

(** C7. With 1297 roots and no key on input, the roots that are given
    the sibling indices 37 and 1296 come out in the opposite order: the
    key of index 1296 is smaller as a string, and its object is placed
    before the other by the final sort. *)
Theorem overflow_misorders_keys :
  ∃ (sorted : list Item) (a b : Item) (m n : Z),
    (1296 < length (manyRoots 1297))%nat ∧
    Forall (λ c, parent c = None ∧ order c = None) (manyRoots 1297) ∧
    sortThread defaults (manyRoots 1297) = Done sorted ∧
    sorted !! 37%nat = Some b ∧ sorted !! 38%nat = Some a ∧
    order a = Some (newThread defaults "" (Some (m - 1))) ∧
    order b = Some (newThread defaults "" (Some (n - 1))) ∧
    m < n ∧ 1296 ≤ n ∧
    compareThread b a = Lt.
Proof.
  assert (1296 < length (manyRoots 1297))%nat as Hlen.
  { unfold manyRoots. rewrite length_map, length_seq. lia. }
  assert (37 < 1296 ∧ 1296 ≤ 1296) as [Hmn Hn] by lia.
  assert (Forall (λ c, parent c = None ∧ order c = None) (manyRoots 1297)) as Hroots.
  { unfold manyRoots. apply List.Forall_forall. by intros c (i & <- & _)%in_map_iff. }
  destruct (whenDone_true _ _ overflow_evaluated) as (sorted & Hs & H).
  apply andb_true_iff in H as [(b & Hb & Kb & _)%rootWithKey_true (a & Ha & Ka & _)%rootWithKey_true].
  exists sorted, a, b, 37, 1296.
  split; [exact Hlen|].
  split; [exact Hroots|].
  split; [exact Hs|]. split; [exact Hb|]. split; [exact Ha|].
  split; [exact Ka|]. split; [exact Kb|]. split; [exact Hmn|]. split; [exact Hn|].
  rewrite (compareThread_keyed b a _ _ Kb Ka). reflexivity.
Qed.

(** ** Roots *)




Lemma parentPos_absent items c : parent c = None → parentPos items c = None.
Proof. intros Hp. apply isRoot_parentPos. unfold isRoot. by rewrite Hp. Qed.





(** ** Keys that are the empty string *)

Lemma sort_elem_of {A} (cmp : A → A → comparison) l x :
  x ∈ Js.sort cmp l ↔ x ∈ l.
Proof. by rewrite sort_perm. Qed.


(** ** The renderer *)

Lemma repeatStr_spaces n : repeatStr "  " n = spaces (2 * n).
Proof.
  induction n as [|n IH]; [done|].
  replace (2 * S n)%nat with (S (S (2 * n))) by lia. simpl. by rewrite IH.
Qed.

(** C9, as stated, fails: a [parent] field that is set to the empty
    string is a parent field, and the clause is left out all the same. *)
Lemma empty_parent_has_no_clause :
  parent (mkItem "a" (Some "") None) ≠ None ∧
  formatThread [mkItem "a" (Some "") None] = " - item a ".
Proof. by vm_compute. Qed.

(** C9, amended. Each line is indented by two spaces per segment of the
    key beyond the first, the lines follow the order of the array and
    are joined by newlines, and the parent clause is left out exactly
    when the [parent] field is absent or the empty string.  The function
    reads its argument and writes no field, which is why it is a
    function from the array to the text. *)
Theorem formatThread_rendering items :
  formatThread items =
    String.concat newline
      (map (λ i, spaces (2 * (keySegments i - 1)) ++ " - item " ++ id i ++ " " ++ parentClause i)
         items) ∧
  ∀ i, (parentClause i = "" ↔ parent i = None ∨ parent i = Some "") ∧
       (∀ p, parent i = Some p → p ≠ "" → parentClause i = "(parent " ++ p ++ ")").
Proof.
  split.
  - unfold formatThread. f_equal. apply map_ext. intros i.
    unfold formatLine, formatDepth, keySegments. rewrite repeatStr_spaces.
    by destruct (order i).
  - intros i. unfold parentClause. destruct (parent i) as [[|a p]|]; simpl.
    + split; [split; auto|]. by intros p [= <-].
    + split; [split; [done|by intros [|]]|]. by intros p' [= <-].
    + split; [split; auto|done].
Qed.

(** ** The key of a child and the key of its parent *)

Lemma childKeysBuilt_later opt l0 l1 l2 :
  laterItems l0 l1 → laterItems l1 l2 →
  childKeysBuilt opt l0 l1 →
  (∀ j cj c2, l1 !! j = Some cj → order cj = None → l2 !! j = Some c2 → keyed c2 →
     ∀ pi, parentPos l2 c2 = Some pi →
     ∃ p kp n, l2 !! pi = Some p ∧ order p = Some kp ∧
       order c2 = Some (newThread opt (Js.toStr (stripEor opt (Some kp)) ++ delimiter opt) n)) →
  childKeysBuilt opt l0 l2.
Proof.
  intros H01 H12 Hold Hnew j c0 c2 pi Hc0 Ho0 Hc2 Hk2 Hp.
  destruct (laterItems_lookup _ _ _ _ H01 Hc0) as (c1 & Hc1 & L01).
  destruct (laterItems_lookup _ _ _ _ H12 Hc1) as (c2' & Hc2' & L12).
  assert (c2' = c2) as -> by congruence.
  destruct (order c1) as [k1|] eqn:Ho1; [|by eapply Hnew].
  rewrite (parentPos_later l1 l2 c1 c2) in Hp by done.
  destruct (Hold j c0 c1 pi) as (p & kp & n & Hpi & Hkp & Hk1); [done..|by eexists|done|].
  destruct (laterItems_lookup _ _ _ _ H12 Hpi) as (p2 & Hp2 & _ & _ & Hkeep).
  exists p2, kp, n. split_and!; [done|by apply Hkeep|].
  destruct L12 as (_ & _ & Hkeep1). by apply Hkeep1.
Qed.

Lemma parentPos_lookup items c pi :
  parentPos items c = Some pi → ∃ p, items !! pi = Some p ∧ parent c = Some (id p).
Proof.
  unfold parentPos, Js.find. intros ([pi' p] & Hf & ->)%fmap_Some.
  apply list_find_Some in Hf as (Hp & Heq & _). exists p. split; [done|].
  apply Is_true_true in Heq. rewrite looseEq_strictEq in Heq.
  by apply strictEq_true in Heq.
Qed.

(** The call on the parent returns with the caller's object still
    without a key. *)
Lemma populate_parent_leaves_child opt f items ci c pi items1 :
  items !! ci = Some c → order c = None → parentPos items c = Some pi →
  populateThreadForItem opt f items pi = Done items1 →
  ∃ c1, items1 !! ci = Some c1 ∧ laterItem c c1 ∧ order c1 = None.
Proof.
  intros Hc Ho Hp Hrec.
  destruct (populate_later _ _ _ _ _ Hrec) as (Hl & d & Hd & Hnew).
  destruct (laterItems_lookup _ _ _ _ Hl Hc) as (c1 & Hc1 & Hlc).
  exists c1. split_and!; [done..|].
  destruct (order c1) as [k1|] eqn:Ho1; [|done]. exfalso.
  destruct (Hnew ci c c1) as (dj & Hdj & Hle); [done..|by eexists|].
  apply (unkeyedDepth_mono _ (S f)) in Hdj; [|lia].
  simpl in Hdj. rewrite Hc, Ho, Hp, Hd in Hdj. simpl in Hdj. simplify_eq. lia.
Qed.

Lemma laterItem_set c v :
  order c = None → laterItem c {| id := id c; parent := parent c; order := v |}.
Proof. intros Ho. repeat split. simpl. congruence. Qed.

Lemma populate_childKeysBuilt opt f items ci items' :
  populateThreadForItem opt f items ci = Done items' → childKeysBuilt opt items items'.
Proof.
  revert ci items'. induction f as [|f IH]; intros ci items'; [done|].
  intros Hrun. pose proof (populate_later _ _ _ _ _ Hrun) as [Hlater _].
  revert Hrun. rewrite populate_unfold.
  destruct (items !! ci) as [c|] eqn:Hc.
  2:{ intros [= <-] j cj cj' pi ? ? ? [k ?]. simplify_eq; congruence. }
  destruct (order c) as [k|] eqn:Ho.
  { intros [= <-] j cj cj' pi ? ? ? [k' ?]. simplify_eq; congruence. }
  destruct (parentPos items c) as [pi|] eqn:Hp.
  - destruct (populateThreadForItem opt f items pi) as [items1| |] eqn:Hrec; try done.
    intros [= <-].
    pose proof (populate_later _ _ _ _ _ Hrec) as [Hl1 _].
    destruct (populate_parent_leaves_child _ _ _ _ _ _ _ Hc Ho Hp Hrec) as (c1 & Hc1 & Lc1 & Ho1).
    destruct (parentPos_lookup _ _ _ Hp) as (p0 & Hp0 & _).
    destruct (populate_keys_argument _ _ _ _ _ _ Hrec Hp0) as (p1 & Hp1 & [kp Hkp]).
    assert (laterItems items1 (setThread items1 ci (Some (childThread opt items1 pi c)))) as Hl2
      by (by eapply setThread_later).
    apply (childKeysBuilt_later opt items items1); [done..|by eapply IH|].
    intros j cj c2 Hj Hoj Hj2 Hk2 pi' Hpi'.
    destruct (decide (ci = j)) as [<-|Hne].
    + assert (cj = c1) as -> by congruence.
      rewrite (setThread_lookup _ _ _ c1) in Hj2 by done. simplify_eq.
      assert (pi' = pi) as ->.
      { rewrite (parentPos_later items1 _ c1 _) in Hpi'; [|done|by apply laterItem_set].
        rewrite (parentPos_later items items1 c c1) in Hpi' by done. congruence. }
      assert (ci ≠ pi) as Hne by (intros ->; congruence).
      exists p1, kp, (childNum opt items1 (parent c)). split_and!; [|done|].
      * by rewrite setThread_lookup_ne.
      * simpl. unfold childThread, getThread. rewrite Hp1. simpl. by rewrite Hkp.
    + rewrite setThread_lookup_ne in Hj2 by done. simplify_eq.
      destruct Hk2 as [? ?]. congruence.
  - intros [= <-] j cj cj' pi Hj Hoj Hj' Hk Hpi.
    destruct (decide (ci = j)) as [<-|Hne].
    + rewrite (setThread_lookup _ _ _ c) in Hj' by done. simplify_eq.
      rewrite (parentPos_later items _ c _) in Hpi; [congruence|done|by apply laterItem_set].
    + rewrite setThread_lookup_ne in Hj' by done. simplify_eq.
      destruct Hk as [? ?]. congruence.
Qed.

Lemma childKeysBuilt_refl opt items : childKeysBuilt opt items items.
Proof. intros j cj cj' pi ? ? ? [k ?]. simplify_eq; congruence. Qed.

Lemma populateAll_childKeysBuilt opt f items todo items' :
  populateAll opt f items todo = Done items' → childKeysBuilt opt items items'.
Proof.
  revert items. induction todo as [|ci todo IH]; intros items; simpl.
  - intros [= <-]. apply childKeysBuilt_refl.
  - destruct (populateThreadForItem opt f items ci) as [items1| |] eqn:H1; try done.
    intros H2. apply (childKeysBuilt_later opt items items1).
    + by apply populate_later in H1 as [? _].
    + by eapply populateAll_later.
    + by eapply populate_childKeysBuilt.
    + intros j cj c2 ? ? ? ? pi ?. by eapply (IH items1 H2 j cj c2 pi).
Qed.

Lemma laterItems_ids l1 l2 : laterItems l1 l2 → map id l2 = map id l1.
Proof. induction 1 as [|c c' l1 l2 (Hid&_&_) _ IH]; simpl; congruence. Qed.

Lemma unique_id_lookup items i j c c' :
  NoDup (map id items) → items !! i = Some c → items !! j = Some c' →
  id c = id c' → i = j.
Proof.
  intros Hnd Hi Hj Hid. eapply NoDup_lookup; [exact Hnd|..].
  - by rewrite list_lookup_fmap, Hi.
  - rewrite list_lookup_fmap, Hj. simpl. by rewrite Hid.
Qed.

Lemma parentPos_resolves items c p :
  p ∈ items → parent c = Some (id p) →
  ∃ pi p', parentPos items c = Some pi ∧ items !! pi = Some p' ∧ id p' = id p.
Proof.
  intros Hp Hc.
  destruct (list_find_elem_of (λ i, Is_true (Js.looseEq (Some (id i)) (parent c))) items p)
    as [[pi p'] Hf]; [done|..].
  { rewrite Hc. simpl. by rewrite String.eqb_refl. }
  exists pi, p'. unfold parentPos, Js.find. rewrite Hf. split; [done|].
  apply list_find_Some in Hf as (Hl & Heq & _). split; [done|].
  apply Is_true_true in Heq. rewrite looseEq_strictEq, Hc in Heq.
  apply strictEq_true in Heq. congruence.
Qed.

Lemma endsWith_dropLast s c :
  Js.endsWith s (String c "") = true → s = Js.dropLast s ++ String c "".
Proof.
  induction s as [|d s IH]; [done|].
  cbn [Js.endsWith]. intros [H|H]%orb_true_iff.
  - apply String.eqb_eq in H. by simplify_eq.
  - specialize (IH H). destruct s as [|e s]; [done|].
    change (String d (String e s) = String d (Js.dropLast (String e s) ++ String c "")).
    by rewrite <- IH.
Qed.

(** A key is smaller than any key built on it. *)
Lemma key_lt_extension kp rest :
  String.compare kp (Js.toStr (stripEor defaults (Some kp)) ++ "/" ++ rest) = Lt.
Proof.
  unfold stripEor. simpl endOfRecord.
  destruct (Js.truthy (Some kp) && Js.endsWith kp ".") eqn:E.
  - apply andb_true_iff in E as [_ E]. apply endsWith_dropLast in E.
    simpl Js.toStr. rewrite E at 1. by rewrite StrOrdFacts.compare_app_same.
  - simpl Js.toStr. rewrite <- (StrFacts.app_nil_r kp) at 1.
    by rewrite StrOrdFacts.compare_app_same.
Qed.

Lemma padStart2_nonempty s : Js.padStart2 s ≠ "".
Proof. by destruct s as [|c [|c' s]]. Qed.

(** C4, as stated, fails: keys present on input are kept whatever they
    are, so a child that arrives with a key of its own need not extend
    the key of its parent, nor exceed it. *)
Lemma prekeyed_child_ignores_parent_key :
  sortThread defaults prekeyedPair =
    Done [ mkItem "c" (Some "p") (Some "00."); mkItem "p" None (Some "01.") ] ∧
  stripEor defaults (Some "00.") = Some "00" ∧
  stripEor defaults (Some "01.") = Some "01" ∧
  String.prefix ("01" ++ delimiter defaults) "00" = false ∧
  String.compare "01." "00." = Gt.
Proof. by vm_compute. Qed.

(** C4, amended. With unique ids and the default options, after
    [sortThread] returns, every object that had no key on input and whose
    [parent] names an object of the collection has a key that, without
    its marker, is the key of the parent without its marker, then the
    delimiter, then a non-empty segment; and its full key is strictly
    greater than the full key of the parent. *)
Theorem child_key_extends_parent_key items sorted :
  NoDup (map id items) → sortThread defaults items = Done sorted →
  ∀ c0 c p, c0 ∈ items → order c0 = None →
    c ∈ sorted → id c = id c0 → p ∈ sorted → parent c = Some (id p) →
    ∃ kc kp bc bp rest,
      order c = Some kc ∧ order p = Some kp ∧
      stripEor defaults (Some kc) = Some bc ∧ stripEor defaults (Some kp) = Some bp ∧
      rest ≠ "" ∧ bc = bp ++ delimiter defaults ++ rest ∧
      String.compare kp kc = Lt.
Proof.
  intros Hnd (keyedItems & Hpass & ->)%sortThread_Done c0 c p Hc0 Ho0 Hc Hid Hp Hpar.
  pose proof (keyPass_later _ _ _ Hpass) as Hl.
  pose proof (populateAll_childKeysBuilt _ _ _ _ _ Hpass) as Hbuilt.
  apply sort_elem_of in Hc, Hp.
  apply list_elem_of_lookup in Hc0 as [j0 Hj0]. apply list_elem_of_lookup in Hc as [j Hj].
  destruct (laterItems_lookup_r _ _ _ _ Hl Hj) as (cj & Hcj & Lcj).
  assert (j = j0) as ->.
  { apply (unique_id_lookup items j j0 cj c0); [done..|]. destruct Lcj as (?&_). congruence. }
  assert (cj = c0) as -> by congruence.
  destruct (parentPos_resolves keyedItems c p Hp Hpar) as (pi & p' & Hpos & Hp' & Hidp).
  assert (p' = p) as ->.
  { apply list_elem_of_lookup in Hp as [pj Hpj].
    assert (pi = pj); [|congruence].
    apply (unique_id_lookup keyedItems pi pj p' p); [|done..].
    by rewrite (laterItems_ids items keyedItems). }
  destruct (Hbuilt j0 c0 c pi) as (p'' & kp & n & Hp'' & Hkp & Hkc); [done..| |done|].
  { apply (Forall_lookup_1 _ _ _ _ (keyPass_all_keyed _ _ _ Hpass) Hj). }
  assert (p'' = p) as -> by congruence.
  destruct (stripEor defaults (Some kp)) as [bp|] eqn:Hbp.
  2:{ unfold stripEor in Hbp. by destruct (_ && _). }
  set (rest := Js.padStart2 (Js.toString36 (Js.incr n))) in *.
  exists ((bp ++ "/") ++ rest ++ "."), kp, (bp ++ "/" ++ rest), bp, rest.
  split_and!; try done.
  - rewrite <- (stripEor_marked (bp ++ "/" ++ rest)). by rewrite !StrFacts.app_assoc.
  - apply padStart2_nonempty.
  - rewrite StrFacts.app_assoc. pose proof (key_lt_extension kp (rest ++ ".")) as Hlt.
    by rewrite Hbp in Hlt.
Qed.

(** ** Keys as paths of sibling indices *)

Module PathFacts.
Import Path.

Lemma tailStr_app p q : tailStr (p ++ q) = tailStr p ++ tailStr q.
Proof.
  induction p as [|k p IH]; [done|].
  simpl. by rewrite IH, !StrFacts.app_assoc.
Qed.

Lemma bodyStr_snoc p k : p ≠ [] → bodyStr (p ++ [k]) = bodyStr p ++ "/" ++ Num.seg k.
Proof.
  destruct p as [|a p]; [done|]. intros _. simpl.
  rewrite tailStr_app. simpl. by rewrite StrFacts.app_nil_r, !StrFacts.app_assoc.
Qed.

Lemma wf_snoc p k : Forall inRange p → inRange k → wf (p ++ [k]).
Proof.
  intros Hp Hk. split; [by destruct p|].
  apply Forall_app. split; [done|]. by constructor.
Qed.

Lemma wf_snoc_inv p k : wf (p ++ [k]) → Forall inRange p ∧ inRange k.
Proof.
  intros [_ [H1 H2]%Forall_app]. split; [done|]. by apply Forall_cons in H2 as [? _].
Qed.

Lemma wf_nonempty_prefix p k : wf (p ++ [k]) → p ≠ [] → wf p.
Proof. intros [Hp _]%wf_snoc_inv Hne. by split. Qed.

(** *** Reading a rendered key back *)

Lemma strip_render p : stripEor defaults (Some (render p)) = Some (bodyStr p).
Proof. apply stripEor_marked. Qed.

Lemma two_lastChar k s : Str.lastChar (s ++ Num.two k) = Some (Js.digitChar (k mod 36)).
Proof.
  unfold Num.two. rewrite StrFacts.lastChar_app. done.
Qed.

Lemma tailStr_lastChar s p :
  Forall inRange p → p ≠ [] →
  ∃ k, inRange k ∧ Str.lastChar (s ++ tailStr p) = Some (Js.digitChar (k mod 36)).
Proof.
  intros Hp. revert s. induction Hp as [|a p Ha Hp IH]; intros s Hne; [done|].
  simpl. destruct p as [|b p].
  - exists a. split; [done|]. simpl. rewrite StrFacts.app_nil_r.
    rewrite NumFacts.seg_two by done.
    change (String "/" (Num.two a)) with ("/" ++ Num.two a).
    rewrite <- StrFacts.app_assoc. apply two_lastChar.
  - destruct (IH (s ++ "/" ++ Num.seg a)) as (k & Hk & Hl); [done|].
    exists k. split; [done|]. rewrite <- Hl.
    by rewrite !StrFacts.app_assoc.
Qed.

Lemma bodyStr_lastChar p :
  wf p → ∃ k, inRange k ∧ Str.lastChar (bodyStr p) = Some (Js.digitChar (k mod 36)).
Proof.
  intros [Hne Hp]. destruct p as [|a p]; [done|]. simpl.
  apply Forall_cons in Hp as [Ha Hp]. destruct p as [|b p].
  - exists a. split; [done|]. simpl. rewrite StrFacts.app_nil_r, NumFacts.seg_two by done.
    apply (two_lastChar a "").
  - by apply tailStr_lastChar.
Qed.

Lemma strip_body p : wf p → stripEor defaults (Some (bodyStr p)) = Some (bodyStr p).
Proof.
  intros Hp. apply stripEor_unmarked.
  destruct (bodyStr_lastChar p Hp) as (k & Hk & ->). intros [= H].
  pose proof (NumFacts.digitChar_isDigit (k mod 36)) as Hd.
  rewrite H in Hd. discriminate Hd. apply Z.mod_pos_bound. lia.
Qed.

Lemma splitChar_tailStr acc s p :
  Str.lacks "/" s = true →
  Str.splitChar "/" acc (s ++ tailStr p) = (acc ++ s) :: map Num.seg p.
Proof.
  revert acc s. induction p as [|k p IH]; intros acc s Hs.
  - simpl. rewrite StrFacts.app_nil_r. by apply StrFacts.splitChar_lacks.
  - simpl tailStr. change ("/" ++ Num.seg k ++ tailStr p) with (String "/" (Num.seg k ++ tailStr p)).
    rewrite StrFacts.splitChar_app by done. f_equal.
    apply (IH "" (Num.seg k)). apply NumFacts.seg_lacks. by left.
Qed.

Lemma split_body p : p ≠ [] → Js.split "/" (bodyStr p) = map Num.seg p.
Proof.
  destruct p as [|k p]; [done|]. intros _.
  rewrite StrFacts.split_single. simpl bodyStr.
  apply (splitChar_tailStr "" (Num.seg k)). apply NumFacts.seg_lacks. by left.
Qed.

Lemma render_truthy p : Js.truthy (Some (render p)) = true.
Proof. unfold render. by destruct (bodyStr p). Qed.

Lemma body_truthy p : p ≠ [] → Js.truthy (Some (bodyStr p)) = true.
Proof.
  destruct p as [|k p]; [done|]. intros _. simpl.
  by destruct (NumFacts.seg_nonempty k) as (c & s & ->).
Qed.

(** *** The order of rendered keys *)

Lemma compare_tails p q :
  Forall inRange p → Forall inRange q →
  String.compare (tailStr p ++ ".") (tailStr q ++ ".") = lexCompare p q.
Proof.
  intros Hp. revert q. induction Hp as [|a p Ha Hp IH]; intros q Hq.
  - by destruct q.
  - destruct Hq as [|b q Hb Hq]; [done|].
    simpl tailStr.
    change (String.compare (String "/" ((Num.seg a ++ tailStr p) ++ "."))
              (String "/" ((Num.seg b ++ tailStr q) ++ ".")) = lexCompare (a :: p) (b :: q)).
    rewrite StrOrdFacts.compare_cons, StrOrdFacts.ascii_compare_refl, !StrFacts.app_assoc.
    rewrite NumFacts.seg_compare by done. simpl. by rewrite IH.
Qed.

Lemma compare_render p q :
  wf p → wf q → String.compare (render p) (render q) = lexCompare p q.
Proof.
  intros [Hp1 Hp2] [Hq1 Hq2]. destruct p as [|a p], q as [|b q]; try done.
  apply Forall_cons in Hp2 as [Ha Hp], Hq2 as [Hb Hq].
  unfold render. simpl bodyStr. rewrite !StrFacts.app_assoc.
  rewrite NumFacts.seg_compare by done. simpl. by rewrite compare_tails.
Qed.

Lemma lexCompare_eq p q : lexCompare p q = Eq ↔ p = q.
Proof.
  revert q. induction p as [|a p IH]; intros [|b q]; simpl; try (split; done).
  destruct (Z.compare_spec a b) as [->|?|?].
  - rewrite IH. split; congruence.
  - split; [done|]. intros [= -> ->]. lia.
  - split; [done|]. intros [= -> ->]. lia.
Qed.

Lemma render_inj p q : wf p → wf q → render p = render q → p = q.
Proof.
  intros Hp Hq H. apply lexCompare_eq. rewrite <- compare_render by done.
  by apply StrOrdFacts.compare_eq.
Qed.

Lemma lexCompare_app p q r : lexCompare (p ++ q) (p ++ r) = lexCompare q r.
Proof. induction p as [|a p IH]; [done|]. simpl. by rewrite Z.compare_refl. Qed.

Lemma lexCompare_snoc p j k : lexCompare (p ++ [j]) (p ++ [k]) = (j ?= k).
Proof. rewrite lexCompare_app. simpl. by destruct (j ?= k). Qed.

Lemma lexCompare_head j q :
  q ≠ [] → lexCompare [j] q ≠ Gt → j ≤ hd 0 q.
Proof.
  destruct q as [|b q]; [done|]. intros _. simpl.
  destruct (Z.compare_spec j b); [lia|lia|done].
Qed.

End PathFacts.

(** ** Sibling groups and well-formed keys *)

Lemma hasPath_keyed c p : hasPath c p → keyed c.
Proof. intros [H _]. by eexists. Qed.

Lemma hasPath_unique c p q : hasPath c p → hasPath c q → p = q.
Proof. intros [H1 W1] [H2 W2]. apply PathFacts.render_inj; congruence. Qed.

Lemma isKeyed_keyed c : isKeyed c = true ↔ keyed c.
Proof. unfold isKeyed, keyed. destruct (order c); split; try done; eauto. Qed.

Lemma groupOf_root items c : parentPos items c = None → groupOf items c = None.
Proof. intros H%isRoot_parentPos. unfold groupOf. by rewrite H. Qed.

Lemma groupOf_child items c pi : parentPos items c = Some pi → groupOf items c = parent c.
Proof.
  intros H. unfold groupOf. destruct (isRoot items c) eqn:E; [|done].
  apply isRoot_parentPos in E. congruence.
Qed.

(** *** Counting under an update of one object *)

Lemma filter_length_alter (P : Item → bool) f l i c :
  l !! i = Some c →
  (length (List.filter P (alter f i l)) + (if P c then 1 else 0)
   = length (List.filter P l) + (if P (f c) then 1 else 0))%nat.
Proof.
  revert i. induction l as [|x l IH]; intros [|i]; simpl; try done.
  - intros [= ->]. destruct (P c), (P (f c)); simpl; lia.
  - intros H. specialize (IH i H). change (list_alter f i l) with (alter f i l).
    destruct (P x); simpl; lia.
Qed.

Lemma filter_length_le (P Q : Item → bool) l :
  (length (List.filter (λ c, P c && Q c) l) ≤ length (List.filter P l))%nat.
Proof.
  induction l as [|x l IH]; simpl; [done|].
  destruct (P x), (Q x); simpl; lia.
Qed.

Lemma isRoot_setThread items ci c v x :
  items !! ci = Some c → order c = None →
  isRoot (setThread items ci v) x = isRoot items x.
Proof.
  intros Hc Ho. apply isRoot_later; [by eapply setThread_later|apply laterItem_refl].
Qed.

Lemma parentPos_setThread items ci c v x :
  items !! ci = Some c → order c = None →
  parentPos (setThread items ci v) x = parentPos items x.
Proof.
  intros Hc Ho. apply parentPos_later; [by eapply setThread_later|apply laterItem_refl].
Qed.

Lemma groupOf_setThread items ci c v x :
  items !! ci = Some c → order c = None →
  groupOf (setThread items ci v) x = groupOf items x.
Proof. intros Hc Ho. unfold groupOf. by rewrite (isRoot_setThread items ci c). Qed.

Lemma groupOf_fields items x y : parent x = parent y → groupOf items x = groupOf items y.
Proof.
  intros H. unfold groupOf, isRoot. by rewrite H.
Qed.

Lemma strictEq_refl a : Js.strictEq a a = true.
Proof. by apply strictEq_true. Qed.

Lemma groupSize_setThread items ci c v g :
  items !! ci = Some c → order c = None →
  groupSize (setThread items ci v) g = groupSize items g.
Proof.
  intros Hc Ho. unfold groupSize.
  rewrite (List.filter_ext _ (inGroup items g)).
  2:{ intros x. unfold inGroup. by rewrite (groupOf_setThread items ci c). }
  pose proof (filter_length_alter (inGroup items g)
    (λ c, {| id := id c; parent := parent c; order := v |}) items ci c Hc) as H.
  assert (inGroup items g {| id := id c; parent := parent c; order := v |}
          = inGroup items g c) as E
    by (unfold inGroup; by rewrite (groupOf_fields items _ c)).
  cbv beta in H. rewrite E in H. unfold setThread.
  destruct (inGroup items g c); lia.
Qed.

Lemma keyedCount_setThread items ci c k g :
  items !! ci = Some c → order c = None →
  keyedCount (setThread items ci (Some k)) g =
  (keyedCount items g + (if inGroup items g c then 1 else 0))%nat.
Proof.
  intros Hc Ho. unfold keyedCount.
  rewrite (List.filter_ext _ (λ c, inGroup items g c && isKeyed c)).
  2:{ intros x. unfold inGroup. by rewrite (groupOf_setThread items ci c). }
  pose proof (filter_length_alter (λ c, inGroup items g c && isKeyed c)
    (λ c, {| id := id c; parent := parent c; order := Some k |}) items ci c Hc) as H.
  assert (inGroup items g {| id := id c; parent := parent c; order := Some k |}
          = inGroup items g c) as E
    by (unfold inGroup; by rewrite (groupOf_fields items _ c)).
  cbv beta in H. rewrite E in H. unfold setThread.
  assert (isKeyed c = false) as Ec by (unfold isKeyed; by rewrite Ho).
  rewrite Ec in H.
  change (isKeyed {| id := id c; parent := parent c; order := Some k |}) with true in H.
  rewrite andb_false_r, andb_true_r in H. lia.
Qed.

Lemma keyedCount_le_size items g : (keyedCount items g ≤ groupSize items g)%nat.
Proof. apply filter_length_le. Qed.

(** *** Giving the next index of a group to an unkeyed object *)

Lemma setThread_cases items ci c v i x :
  items !! ci = Some c → setThread items ci v !! i = Some x →
  (i = ci ∧ x = {| id := id c; parent := parent c; order := v |}) ∨
  (i ≠ ci ∧ items !! i = Some x).
Proof.
  intros Hc Hx. destruct (decide (ci = i)) as [<-|Hne].
  - left. rewrite (setThread_lookup _ _ _ c) in Hx by done. by simplify_eq.
  - right. rewrite setThread_lookup_ne in Hx by done. done.
Qed.

Lemma parentPos_fields items x y : parent x = parent y → parentPos items x = parentPos items y.
Proof. intros H. unfold parentPos. by rewrite H. Qed.

Lemma keyed_not_unkeyed (items : list Item) i j x y :
  items !! i = Some x → items !! j = Some y → keyed x → order y = None → i ≠ j.
Proof. intros Hx Hy [k Hk] Ho ->. congruence. Qed.

Lemma step_path_wf items ci c pp j :
  wfKeys items → items !! ci = Some c → order c = None →
  match parentPos items c with
  | None => pp = []
  | Some pi => ∃ cp, items !! pi = Some cp ∧ hasPath cp pp
  end →
  0 ≤ j →
  j ≤ Z.of_nat (keyedCount items (groupOf items c)) →
  Path.wf (pp ++ [j]).
Proof.
  intros Hw Hc Ho Hpar Hj0 Hcount.
  set (g := groupOf items c) in *.
  set (new := Path.render (pp ++ [j])).
  assert (keyedCount (setThread items ci (Some new)) g = S (keyedCount items g)) as Hcnt.
  { rewrite (keyedCount_setThread items ci c) by done.
    unfold inGroup. fold g. rewrite strictEq_refl. lia. }
  assert (j < 1296) as Hj.
  { pose proof (keyedCount_le_size (setThread items ci (Some new)) g) as Hle.
    rewrite (groupSize_setThread items ci c) in Hle by done.
    pose proof (wk_size items Hw g). lia. }
  apply PathFacts.wf_snoc; [|done].
  destruct (parentPos items c); [|by subst]. by destruct Hpar as (cp & _ & _ & _ & ?).
Qed.

Lemma wfKeys_step items ci c pp j :
  wfKeys items → items !! ci = Some c → order c = None →
  match parentPos items c with
  | None => pp = []
  | Some pi => ∃ cp, items !! pi = Some cp ∧ hasPath cp pp
  end →
  0 ≤ j →
  (∀ i x q k, items !! i = Some x → groupOf items x = groupOf items c →
     hasPath x (q ++ [k]) → k < j) →
  j ≤ Z.of_nat (keyedCount items (groupOf items c)) →
  wfKeys (setThread items ci (Some (Path.render (pp ++ [j])))).
Proof.
  intros Hw Hc Ho Hpar Hj0 Hmax Hcount.
  set (new := Path.render (pp ++ [j])).
  set (c' := {| id := id c; parent := parent c; order := Some new |}).
  set (g := groupOf items c) in *.
  assert (parentPos items c' = parentPos items c) as Hpc by (by apply parentPos_fields).
  assert (groupOf items c' = g) as Hgc by (by apply groupOf_fields).
  assert (∀ x, parentPos (setThread items ci (Some new)) x = parentPos items x) as Hpos
    by (intros; by eapply parentPos_setThread).
  assert (∀ x, groupOf (setThread items ci (Some new)) x = groupOf items x) as Hgrp
    by (intros; by eapply groupOf_setThread).
  assert (keyedCount (setThread items ci (Some new)) g = S (keyedCount items g)) as Hcnt.
  { rewrite (keyedCount_setThread items ci c) by done.
    unfold inGroup. fold g. rewrite strictEq_refl. lia. }
  assert (∀ g', (keyedCount items g' ≤ keyedCount (setThread items ci (Some new)) g')%nat) as Hmono.
  { intros g'. rewrite (keyedCount_setThread items ci c) by done. lia. }
  assert (Path.wf (pp ++ [j])) as Hwf by (by apply (step_path_wf items ci c pp j)).
  assert (hasPath c' (pp ++ [j])) as Hc' by done.
  assert (∀ i x, items !! i = Some x → order x = Some new → False) as Hfresh.
  { intros i x Hx Hk. assert (hasPath x (pp ++ [j])) as Hxp by done.
    apply (Z.lt_irrefl j), (Hmax i x pp j Hx); [|done].
    pose proof (wk_parent items Hw i x _ Hx Hxp) as Hxpar.
    destruct (parentPos items x) as [pi'|] eqn:Hpx.
    - destruct Hxpar as (cp' & pp' & j' & Hcp' & Hpp' & Heq).
      apply app_inj_tail in Heq as [<- <-].
      destruct (parentPos items c) as [pi|] eqn:Hpc'.
      + destruct Hpar as (cp & Hcp & Hcpp).
        assert (pi' = pi) as ->.
        { apply (wk_inj items Hw pi' pi cp' cp (Path.render pp)); [done..|apply Hpp'|apply Hcpp]. }
        unfold g. rewrite (groupOf_child items x pi), (groupOf_child items c pi) by done.
        destruct (parentPos_lookup _ _ _ Hpx) as (? & ? & ->).
        destruct (parentPos_lookup _ _ _ Hpc') as (? & ? & ->). congruence.
      + subst pp. by destruct Hpp' as [_ [? _]].
    - destruct Hxpar as [j' Heq].
      destruct pp as [|a pp]; [|by destruct pp].
      destruct (parentPos items c) as [pi|] eqn:Hpc'.
      + destruct Hpar as (cp & _ & _ & [? _]). done.
      + unfold g. by rewrite !groupOf_root. }
  assert (∀ i x, setThread items ci (Some new) !! i = Some x →
    (i = ci ∧ x = c') ∨ (i ≠ ci ∧ items !! i = Some x)) as Hcases
    by (intros; by eapply setThread_cases).
  assert (∀ i x p, items !! i = Some x → hasPath x p → i ≠ ci) as Hother.
  { intros i x p Hx Hxp. eapply keyed_not_unkeyed; [exact Hx|exact Hc| |done].
    by eapply hasPath_keyed. }
  split.
  - (* every key is a path *)
    intros i x [[-> ->]|[Hne Hx]]%Hcases Hk; [|by eapply wk_path].
    by exists (pp ++ [j])%list.
  - (* the path of a child extends the path of its parent *)
    intros i x p [[-> ->]|[Hne Hx]]%Hcases Hxp; rewrite Hpos.
    + rewrite (hasPath_unique _ _ _ Hxp Hc'), Hpc.
      destruct (parentPos items c) as [pi|] eqn:Hpc'; [|subst pp; by exists j].
      destruct Hpar as (cp & Hcp & Hcpp). exists cp, pp, j. split_and!; [|done..].
      rewrite setThread_lookup_ne; [done|]. intros <-. by eapply Hother.
    + pose proof (wk_parent items Hw i x p Hx Hxp) as Hxpar.
      destruct (parentPos items x) as [pi|]; [|done].
      destruct Hxpar as (cp & pp' & j' & Hcp & Hcpp & ->). exists cp, pp', j'.
      split_and!; [|done..]. rewrite setThread_lookup_ne; [done|].
      intros <-. by eapply Hother.
  - (* no two objects share a key *)
    intros i i' x x' k [[-> ->]|[Hne Hx]]%Hcases
      [[-> ->]|[Hne' Hx']]%Hcases; try done.
    + simpl. intros [= <-] Hk. by destruct (Hfresh i' x').
    + simpl. intros Hk [= <-]. by destruct (Hfresh i x).
    + by apply (wk_inj items Hw).
  - (* the first index is the index of a keyed root *)
    assert (∀ i x p, items !! i = Some x → hasPath x p →
      ∃ r cr, setThread items ci (Some new) !! r = Some cr ∧
        parentPos (setThread items ci (Some new)) cr = None ∧ hasPath cr [hd 0 p]) as Hold.
    { intros i x p Hx Hxp. destruct (wk_root items Hw i x p Hx Hxp) as (r & cr & Hr & Hrp & Hrk).
      exists r, cr. rewrite Hpos. split_and!; [|done..].
      rewrite setThread_lookup_ne; [done|]. intros <-. by eapply Hother. }
    intros i x p [[-> ->]|[Hne Hx]]%Hcases Hxp.
    + rewrite (hasPath_unique _ _ _ Hxp Hc').
      destruct (parentPos items c) as [pi|] eqn:Hpc'.
      * destruct Hpar as (cp & Hcp & Hcpp).
        destruct (Hold pi cp pp Hcp Hcpp) as (r & cr & ? & ? & ?).
        exists r, cr. split_and!; [done..|].
        destruct pp as [|a pp]; [by destruct Hcpp as [_ [? _]]|done].
      * subst pp. exists ci, c'. rewrite Hpos, Hpc.
        split_and!; [by apply setThread_lookup|done..].
    + by eapply Hold.
  - (* the indices of a group lie below the number of its keyed members *)
    intros i x q k [[-> ->]|[Hne Hx]]%Hcases Hxp; rewrite Hgrp.
    + apply (hasPath_unique _ _ _ Hc') in Hxp. apply app_inj_tail in Hxp as [_ <-].
      rewrite Hgc, Hcnt. lia.
    + pose proof (wk_dense items Hw i x q k Hx Hxp).
      pose proof (Hmono (groupOf items x)). lia.
  - (* the groups keep their size *)
    intros g'. rewrite (groupSize_setThread items ci c) by done. apply (wk_size items Hw).
Qed.

(** *** The number read by the two branches *)

Lemma groupOf_None items x : groupOf items x = None → parentPos items x = None.
Proof.
  unfold groupOf. destruct (isRoot items x) eqn:E; [by intros _; apply isRoot_parentPos|].
  intros H. apply isRoot_parentPos. unfold isRoot in *. by rewrite H in *.
Qed.

Lemma groupOf_Some items x pid :
  groupOf items x = Some pid → parent x = Some pid ∧ ∃ pi, parentPos items x = Some pi.
Proof.
  unfold groupOf. destruct (isRoot items x) eqn:E; [done|]. intros H. split; [done|].
  destruct (parentPos items x) as [pi|] eqn:Hp; [by eauto|].
  apply isRoot_parentPos in Hp. congruence.
Qed.

Lemma hasPath_nonEmptyKey x p : hasPath x p → nonEmptyKey x = true.
Proof. intros [H _]. unfold nonEmptyKey. rewrite H. apply PathFacts.render_truthy. Qed.

Lemma at_map_seg_head a p : Js.at_ (map Num.seg (a :: p)) 0 = Num.seg a.
Proof. done. Qed.

Lemma at_map_seg_last p k :
  Js.at_ (map Num.seg (p ++ [k])) (length (map Num.seg (p ++ [k])) - 1) = Num.seg k.
Proof.
  unfold Js.at_. rewrite length_map, length_app. simpl.
  replace (length p + 1 - 1)%nat with (length p) by lia.
  rewrite list_lookup_fmap, lookup_app_r, Nat.sub_diag by lia. done.
Qed.

Lemma rootNum_next items :
  wfKeys items →
  ∃ j, rootNum defaults items = Some (j - 1) ∧ 0 ≤ j ∧
    (∀ i x q k, items !! i = Some x → groupOf items x = None →
       hasPath x (q ++ [k]) → q = [] ∧ k < j) ∧
    j ≤ Z.of_nat (keyedCount items None).
Proof.
  intros Hw. unfold rootNum. pose proof (getMaxThread_spec items) as Hmax.
  destruct (getMaxThread items) as [m|].
  - destruct Hmax as [(x & [i Hx]%list_elem_of_lookup & Hne & Hm) Hgreat].
    destruct (wk_path items Hw i x Hx) as [px Hpx]; [by eexists|].
    assert (m = Path.render px) as -> by (destruct Hpx; congruence).
    pose proof Hpx as [_ [Hpne Hrange]]. destruct px as [|a px]; [done|].
    apply Forall_cons in Hrange as [Ha _].
    rewrite PathFacts.strip_render. cbn [from_option delimiter defaults].
    rewrite PathFacts.body_truthy, PathFacts.split_body, at_map_seg_head, NumFacts.seg_parse by done.
    exists (a + 1). split_and!; [f_equal; lia|unfold Path.inRange in Ha; lia| |].
    + intros i' x' q k Hx' Hg Hx'p.
      pose proof (wk_parent items Hw i' x' _ Hx' Hx'p) as Hpar.
      rewrite (groupOf_None items x' Hg) in Hpar. destruct Hpar as [j' Heq].
      destruct q as [|b q]; [|by destruct q]. split; [done|]. simpl in Heq.
      assert (k = j') as <- by congruence.
      assert (k ≤ hd 0 (a :: px)); [|simpl in *; lia].
      apply PathFacts.lexCompare_head; [done|].
      rewrite <- PathFacts.compare_render; [|apply Hx'p|apply Hpx].
      apply (Hgreat x'); [by eapply list_elem_of_lookup_2|by eapply hasPath_nonEmptyKey|apply Hx'p].
    + destruct (wk_root items Hw i x _ Hx Hpx) as (r & cr & Hr & Hrp & Hrk).
      pose proof (wk_dense items Hw r cr [] a Hr Hrk) as Hd.
      rewrite (groupOf_root items cr Hrp) in Hd. simpl in *. lia.
  - exists 0. split_and!; [done|lia| |lia].
    intros i x q k Hx _ Hxp. exfalso.
    apply hasPath_nonEmptyKey in Hxp. rewrite Hmax in Hxp; [done|].
    by eapply list_elem_of_lookup_2.
Qed.

Lemma childNum_next items c pi cp pp :
  wfKeys items → parentPos items c = Some pi → items !! pi = Some cp → hasPath cp pp →
  ∃ j, childNum defaults items (parent c) = Some (j - 1) ∧ 0 ≤ j ∧
    (∀ i x q k, items !! i = Some x → groupOf items x = groupOf items c →
       hasPath x (q ++ [k]) → q = pp ∧ k < j) ∧
    j ≤ Z.of_nat (keyedCount items (groupOf items c)).
Proof.
  intros Hw Hpc Hcp Hpp.
  assert (∀ i x p, items !! i = Some x → parent x = parent c → hasPath x p →
    ∃ k, p = (pp ++ [k])%list) as Hshape.
  { intros i x p Hx Hpar Hxp. pose proof (wk_parent items Hw i x p Hx Hxp) as H.
    rewrite (parentPos_fields items x c Hpar), Hpc in H.
    destruct H as (cp' & pp' & k & Hcp' & Hpp' & ->). exists k.
    assert (cp' = cp) as -> by congruence. by rewrite (hasPath_unique _ _ _ Hpp' Hpp). }
  assert (∀ x, groupOf items x = groupOf items c → parent x = parent c) as Hfield.
  { intros x. rewrite (groupOf_child items c pi Hpc).
    destruct (parentPos_lookup _ _ _ Hpc) as (? & _ & Hpid). rewrite Hpid.
    by intros [? _]%groupOf_Some. }
  unfold childNum. pose proof (getMaxThreadPerThread_spec items (parent c)) as Hmax.
  destruct (getMaxThreadPerThread items (parent c)) as [m|].
  - destruct Hmax as [(x & [i Hx]%list_elem_of_lookup & Hsib & Hm) Hgreat].
    apply andb_true_iff in Hsib as [Hpar%strictEq_true Hne].
    destruct (wk_path items Hw i x Hx) as [px Hpx]; [by eexists|].
    destruct (Hshape i x px Hx Hpar Hpx) as [k ->].
    assert (m = Path.render (pp ++ [k])) as -> by (destruct Hpx; congruence).
    pose proof Hpx as [_ Hwf]. pose proof (PathFacts.wf_snoc_inv _ _ Hwf) as [_ Hk].
    rewrite PathFacts.strip_render, PathFacts.strip_body by done.
    cbn [from_option delimiter defaults].
    rewrite PathFacts.split_body by (by destruct pp).
    rewrite at_map_seg_last, NumFacts.seg_parse by done.
    exists (k + 1). split_and!; [f_equal; lia|unfold Path.inRange in Hk; lia| |].
    + intros i' x' q k' Hx' Hg Hx'p.
      destruct (Hshape i' x' _ Hx' (Hfield x' Hg) Hx'p) as [k'' Heq].
      apply app_inj_tail in Heq as [-> <-]. split; [done|].
      assert ((k' ?= k) ≠ Gt) as Hle; [|destruct (Z.compare_spec k' k); try done; lia].
      rewrite <- (PathFacts.lexCompare_snoc pp), <- PathFacts.compare_render; [|apply Hx'p|apply Hpx].
      apply (Hgreat x'); [by eapply list_elem_of_lookup_2| |apply Hx'p].
      unfold siblingKey. rewrite (Hfield x' Hg), strictEq_refl.
      by apply (hasPath_nonEmptyKey x' (pp ++ [k'])).
    + pose proof (wk_dense items Hw i x pp k Hx Hpx) as Hd.
      rewrite (groupOf_fields items x c Hpar) in Hd. lia.
  - simpl. exists 0. split_and!; [done|lia| |lia].
    intros i x q k Hx Hg Hxp. exfalso.
    specialize (Hmax x (list_elem_of_lookup_2 _ _ _ Hx)). unfold siblingKey in Hmax.
    rewrite (Hfield x Hg), strictEq_refl in Hmax.
    pose proof (hasPath_nonEmptyKey x _ Hxp) as Hn. unfold nonEmptyKey in Hn.
    by rewrite Hn in Hmax.
Qed.

(** *** The pass keeps the keys well-formed *)

Lemma groupOf_later l1 l2 c c' :
  laterItems l1 l2 → laterItem c c' → groupOf l2 c' = groupOf l1 c.
Proof.
  intros H1 H2. unfold groupOf. rewrite (isRoot_later l1 l2 c c') by done.
  destruct H2 as (_ & -> & _). done.
Qed.

Lemma olderFirst_refl items : olderFirst items items.
Proof. intros i x j cj cj' kx kj ? ? ? ? ? ?. simplify_eq; congruence. Qed.

Lemma olderFirst_trans l1 l2 l3 :
  laterItems l1 l2 → laterItems l2 l3 →
  olderFirst l1 l2 → olderFirst l2 l3 → olderFirst l1 l3.
Proof.
  intros H12 H23 O12 O23 i x j cj cj' kx kj Hx Hkx Hj Hoj Hj' Hkj Hg.
  destruct (laterItems_lookup _ _ _ _ H12 Hx) as (x2 & Hx2 & Lx).
  destruct (laterItems_lookup _ _ _ _ H12 Hj) as (c2 & Hc2 & Lc).
  destruct (laterItems_lookup _ _ _ _ H23 Hc2) as (c3 & Hc3 & Lc3).
  assert (c3 = cj') as -> by congruence.
  destruct (order c2) as [k2|] eqn:Ho2.
  - assert (kj = k2) as ->.
    { destruct Lc3 as (_ & _ & Hkeep). specialize (Hkeep k2 Ho2). congruence. }
    by eapply (O12 i x j cj c2).
  - eapply (O23 i x2 j c2 cj'); [done| |done..|].
    + destruct Lx as (_ & _ & Hkeep). by apply Hkeep.
    + by rewrite (groupOf_later l1 l2 x x2), (groupOf_later l1 l2 cj c2).
Qed.

Lemma snoc_cases {A} (p : list A) : p ≠ [] → ∃ q k, p = (q ++ [k])%list.
Proof.
  intros Hne. destruct (exists_last Hne) as (q & k & ->). eauto.
Qed.

Lemma wfKeys_step_ordered items ci c pp j :
  wfKeys items → items !! ci = Some c → order c = None →
  match parentPos items c with
  | None => pp = []
  | Some pi => ∃ cp, items !! pi = Some cp ∧ hasPath cp pp
  end →
  0 ≤ j →
  (∀ i x q k, items !! i = Some x → groupOf items x = groupOf items c →
     hasPath x (q ++ [k]) → q = pp ∧ k < j) →
  j ≤ Z.of_nat (keyedCount items (groupOf items c)) →
  wfKeys (setThread items ci (Some (Path.render (pp ++ [j])))) ∧
  olderFirst items (setThread items ci (Some (Path.render (pp ++ [j])))).
Proof.
  intros Hw Hc Ho Hpar Hj0 Hmax Hcount.
  assert (wfKeys (setThread items ci (Some (Path.render (pp ++ [j]))))) as Hw'.
  { apply (wfKeys_step items ci c pp j); try done.
    intros i x q k Hx Hg Hxp. by destruct (Hmax i x q k). }
  split; [done|].
  intros i x i' cj cj' kx kj Hx Hkx Hj Hoj Hj' Hkj Hg.
  destruct (setThread_cases _ _ _ _ _ _ Hc Hj') as [[-> ->]|[_ Hsame]]; [|congruence].
  assert (cj = c) as -> by congruence. simpl in Hkj. simplify_eq.
  destruct (wk_path items Hw i x Hx) as [px Hpx]; [by eexists|].
  destruct (snoc_cases px) as (q & k & ->); [by destruct Hpx as [_ [? _]]|].
  destruct (Hmax i x q k Hx Hg Hpx) as [-> Hlt].
  destruct Hpx as [Hkx' Hwf]. assert (kx = Path.render (pp ++ [k])) as -> by congruence.
  rewrite PathFacts.compare_render, PathFacts.lexCompare_snoc; [by apply Z.compare_lt_iff|done|].
  by apply (step_path_wf items ci c pp j).
Qed.

Lemma newThread_render pp j prefix :
  match pp with
  | [] => prefix = ""
  | _ => prefix = Path.bodyStr pp ++ "/"
  end →
  newThread defaults prefix (Some (j - 1)) = Path.render (pp ++ [j]).
Proof.
  intros Hpre. unfold newThread, Js.incr. simpl fmap.
  replace (Z.succ (j - 1)) with j by lia. fold (Num.seg j).
  cbn [endOfRecord defaults]. unfold Path.render.
  destruct pp as [|a pp].
  - subst prefix. simpl. by rewrite StrFacts.app_nil_r.
  - subst prefix. rewrite PathFacts.bodyStr_snoc by done. by rewrite !StrFacts.app_assoc.
Qed.

Lemma step_root items ci c :
  wfKeys items → items !! ci = Some c → order c = None → parentPos items c = None →
  wfKeys (setThread items ci (Some (newThread defaults "" (rootNum defaults items)))) ∧
  olderFirst items (setThread items ci (Some (newThread defaults "" (rootNum defaults items)))).
Proof.
  intros Hw Hc Ho Hp.
  destruct (rootNum_next items Hw) as (j & -> & Hj0 & Hmax & Hcount).
  rewrite (newThread_render [] j "") by done.
  apply (wfKeys_step_ordered items ci c [] j); try done.
  - by rewrite Hp.
  - intros i x q k Hx Hg. apply (Hmax i x q k Hx). by rewrite Hg, groupOf_root.
  - by rewrite groupOf_root.
Qed.

Lemma step_child items ci c pi cp :
  wfKeys items → items !! ci = Some c → order c = None →
  parentPos items c = Some pi → items !! pi = Some cp → keyed cp →
  wfKeys (setThread items ci (Some (childThread defaults items pi c))) ∧
  olderFirst items (setThread items ci (Some (childThread defaults items pi c))).
Proof.
  intros Hw Hc Ho Hp Hcp Hk.
  destruct (wk_path items Hw pi cp Hcp Hk) as [pp Hpp].
  destruct (childNum_next items c pi cp pp Hw Hp Hcp Hpp) as (j & Hn & Hj0 & Hmax & Hcount).
  unfold childThread, getThread. rewrite Hn, Hcp. simpl.
  destruct Hpp as [Hkp Hwf]. rewrite Hkp, PathFacts.strip_render. simpl Js.toStr.
  rewrite (newThread_render pp j).
  2:{ destruct pp; [by destruct Hwf|done]. }
  apply (wfKeys_step_ordered items ci c pp j); try done.
  rewrite Hp. by exists cp.
Qed.

Lemma populate_wfKeys f items ci items' :
  wfKeys items → populateThreadForItem defaults f items ci = Done items' →
  wfKeys items' ∧ olderFirst items items'.
Proof.
  revert ci items'. induction f as [|f IH]; intros ci items' Hw; [done|].
  rewrite populate_unfold.
  destruct (items !! ci) as [c|] eqn:Hc.
  2:{ intros [= <-]. split; [done|apply olderFirst_refl]. }
  destruct (order c) as [k|] eqn:Ho.
  { intros [= <-]. split; [done|apply olderFirst_refl]. }
  destruct (parentPos items c) as [pi|] eqn:Hp.
  - destruct (populateThreadForItem defaults f items pi) as [items1| |] eqn:Hrec; try done.
    intros [= <-]. destruct (IH _ _ Hw Hrec) as [Hw1 Ho1].
    pose proof (populate_later _ _ _ _ _ Hrec) as [Hl1 _].
    destruct (populate_parent_leaves_child _ _ _ _ _ _ _ Hc Ho Hp Hrec) as (c1 & Hc1 & Lc1 & Hoc1).
    destruct (parentPos_lookup _ _ _ Hp) as (p0 & Hp0 & _).
    destruct (populate_keys_argument _ _ _ _ _ _ Hrec Hp0) as (p1 & Hp1 & Hkp).
    assert (parentPos items1 c1 = Some pi) as Hp'
      by (by rewrite (parentPos_later items items1 c c1)).
    assert (childThread defaults items1 pi c = childThread defaults items1 pi c1) as ->.
    { unfold childThread. destruct Lc1 as (_ & -> & _). done. }
    destruct (step_child items1 ci c1 pi p1 Hw1 Hc1 Hoc1 Hp' Hp1 Hkp) as [Hw2 Ho2].
    split; [done|]. eapply olderFirst_trans; [exact Hl1| |exact Ho1|exact Ho2].
    by apply (setThread_later items1 ci c1).
  - intros [= <-]. by apply (step_root items ci c).
Qed.

Lemma populateAll_wfKeys f items todo items' :
  wfKeys items → populateAll defaults f items todo = Done items' →
  wfKeys items' ∧ olderFirst items items'.
Proof.
  revert items. induction todo as [|ci todo IH]; intros items Hw; simpl.
  - intros [= <-]. split; [done|apply olderFirst_refl].
  - destruct (populateThreadForItem defaults f items ci) as [items1| |] eqn:H1; try done.
    intros H2. destruct (populate_wfKeys _ _ _ _ Hw H1) as [Hw1 Ho1].
    destruct (IH _ Hw1 H2) as [Hw2 Ho2]. split; [done|].
    eapply olderFirst_trans; [| |exact Ho1|exact Ho2].
    + by apply populate_later in H1 as [? _].
    + by eapply populateAll_later.
Qed.

Lemma wfKeys_unkeyed items :
  Forall (λ c, order c = None) items → (∀ g, (groupSize items g ≤ 1296)%nat) →
  wfKeys items.
Proof.
  intros Hno Hsize.
  assert (∀ i c p, items !! i = Some c → hasPath c p → False) as Hnone.
  { intros i c p Hc [Hk _]. rewrite (Forall_lookup_1 _ _ _ _ Hno Hc) in Hk. done. }
  split; try done; try (intros; exfalso; by eapply Hnone).
  - intros i c Hc [k Hk]. rewrite (Forall_lookup_1 _ _ _ _ Hno Hc) in Hk. done.
  - intros i i' c c' k Hc _ Hk. rewrite (Forall_lookup_1 _ _ _ _ Hno Hc) in Hk. done.
Qed.

(** ** Which objects a call keys *)

Lemma upFrom_later l1 l2 ci j : laterItems l1 l2 → upFrom l2 ci j → upFrom l1 ci j.
Proof.
  intros Hl. induction 1 as [|ci c' pi j Hc' Hp _ IH]; [constructor|].
  destruct (laterItems_lookup_r _ _ _ _ Hl Hc') as (c & Hc & Lc).
  apply (upFrom_parent l1 ci c pi j); [done| |done].
  by rewrite <- (parentPos_later l1 l2 c c').
Qed.

Lemma populate_keys_chain opt f items ci items' :
  populateThreadForItem opt f items ci = Done items' →
  ∀ j cj cj', items !! j = Some cj → order cj = None →
    items' !! j = Some cj' → keyed cj' → upFrom items ci j.
Proof.
  revert ci items'. induction f as [|f IH]; intros ci items'; [done|].
  rewrite populate_unfold.
  destruct (items !! ci) as [c|] eqn:Hc.
  2:{ intros [= <-] j cj cj' ? ? ? [k ?]. simplify_eq; congruence. }
  destruct (order c) as [k|] eqn:Ho.
  { intros [= <-] j cj cj' ? ? ? [k' ?]. simplify_eq; congruence. }
  destruct (parentPos items c) as [pi|] eqn:Hp.
  - destruct (populateThreadForItem opt f items pi) as [items1| |] eqn:Hrec; try done.
    intros [= <-] j cj cj' Hj Hoj Hj' Hk.
    destruct (decide (ci = j)) as [<-|Hne]; [constructor|].
    rewrite setThread_lookup_ne in Hj' by done.
    apply (upFrom_parent items ci c pi j); [done..|]. by eapply IH.
  - intros [= <-] j cj cj' Hj Hoj Hj' Hk.
    destruct (decide (ci = j)) as [<-|Hne]; [constructor|].
    rewrite setThread_lookup_ne in Hj' by done. simplify_eq.
    destruct Hk as [? ?]. congruence.
Qed.

Lemma populateAll_keys_chain opt f items todo items' :
  populateAll opt f items todo = Done items' →
  ∀ j cj cj', items !! j = Some cj → order cj = None →
    items' !! j = Some cj' → keyed cj' → ∃ ci, ci ∈ todo ∧ upFrom items ci j.
Proof.
  revert items. induction todo as [|ci todo IH]; intros items; simpl.
  - intros [= <-] j cj cj' ? ? ? [k ?]. simplify_eq; congruence.
  - destruct (populateThreadForItem opt f items ci) as [items1| |] eqn:H1; try done.
    intros H2 j cj cj' Hj Hoj Hj' Hk.
    pose proof (populate_later _ _ _ _ _ H1) as [Hl1 _].
    destruct (laterItems_lookup _ _ _ _ Hl1 Hj) as (c1 & Hc1 & Lc1).
    destruct (order c1) as [k1|] eqn:Ho1.
    + exists ci. split; [by left|].
      eapply (populate_keys_chain _ _ _ _ _ H1 j cj c1); [done..|by eexists].
    + destruct (IH _ H2 j c1 cj') as (ci' & Hin & Hup); [done..|].
      exists ci'. split; [by right|]. by eapply upFrom_later.
Qed.

Lemma populateAll_app opt f items t1 t2 :
  populateAll opt f items (t1 ++ t2) =
  match populateAll opt f items t1 with
  | Done mid => populateAll opt f mid t2
  | failure => failure
  end.
Proof.
  revert items. induction t1 as [|ci t1 IH]; intros items; simpl; [done|].
  destruct (populateThreadForItem opt f items ci); [apply IH|done..].
Qed.

(** ** Siblings and the order of the input *)

Lemma groupsBounded_all items g :
  groupsBounded items = true → (groupSize items g ≤ 1296)%nat.
Proof.
  intros Hb. unfold groupSize.
  destruct (List.filter (inGroup items g) items) as [|x l] eqn:E; [simpl; lia|].
  assert (In x (List.filter (inGroup items g) items)) as Hx by (rewrite E; by left).
  apply filter_In in Hx as [Hx Hg]. unfold inGroup in Hg. apply strictEq_true in Hg.
  unfold groupsBounded in Hb. rewrite forallb_forall in Hb.
  specialize (Hb x Hx). apply Nat.leb_le in Hb. rewrite Hg in Hb.
  unfold groupSize in Hb. by rewrite E in Hb.
Qed.



(** ** Paths read from keys *)

Lemma decode_render p : Path.wf p → decode (Path.render p) = p.
Proof.
  intros [Hne Hp]. unfold decode. rewrite PathFacts.strip_render.
  cbn [from_option delimiter defaults]. rewrite PathFacts.split_body by done.
  clear Hne. induction Hp as [|a p Ha Hp IH]; [done|].
  simpl. rewrite NumFacts.seg_parse by done. simpl. by rewrite IH.
Qed.

Lemma hasPath_pathOf c p : hasPath c p → pathOf c = p.
Proof. intros [Hk Hwf]. unfold pathOf. rewrite Hk. simpl. by apply decode_render. Qed.

Lemma lexCompare_antisym p q : Path.lexCompare q p = CompOpp (Path.lexCompare p q).
Proof.
  revert q. induction p as [|a p IH]; intros [|b q]; simpl; try done.
  rewrite (Z.compare_antisym a b). destruct (a ?= b); simpl; auto.
Qed.

Lemma lexCompare_extension p e : e ≠ [] → Path.lexCompare p (p ++ e) = Lt.
Proof.
  intros He. rewrite <- (app_nil_r p) at 1. rewrite PathFacts.lexCompare_app.
  by destruct e.
Qed.

Lemma lexCompare_past p x e :
  Path.lexCompare p x = Lt → ¬ p `prefix_of` x → Path.lexCompare (p ++ e) x = Lt.
Proof.
  revert x. induction p as [|a p IH]; intros [|b x]; simpl; try done.
  - intros _ H. destruct H. apply prefix_nil.
  - destruct (Z.compare_spec a b) as [->|?|?]; try done.
    intros Hlt Hpre. apply IH; [done|]. intros [k ->]. apply Hpre. by exists k.
Qed.

Lemma extends_prefix p q : extends p q → p `prefix_of` q.
Proof. intros (e & _ & ->). by exists e. Qed.

Lemma prefix_extends p q : p `prefix_of` q → p ≠ q → extends p q.
Proof.
  intros [e ->] Hne. exists e. split; [|done]. intros ->. by rewrite app_nil_r in Hne.
Qed.

(** In a list that is strictly increasing for the order of the paths,
    the paths that extend the path found at [i] are those found at the
    positions [i + 1, ..., i + n] for some [n]. *)
Section Runs.

Context {A : Type} (path : A → list Z).

Lemma run_of_extensions pp l :
  StronglySorted (pathLt path) l →
  Forall (λ d, Path.lexCompare pp (path d) = Lt) l →
  ∃ n, ∀ j d, l !! j = Some d → (extends pp (path d) ↔ (j < n)%nat).
Proof.
  induction 1 as [|x l Hs IH Hx]; intros Hgt.
  - exists O. intros j d Hj. done.
  - apply Forall_cons in Hgt as [Hgx Hgl].
    destruct (decide (pp `prefix_of` path x)) as [Hpre|Hnpre].
    + destruct (IH Hgl) as [n Hn]. exists (S n). intros [|j] d Hj; simpl in Hj.
      * simplify_eq. split; [lia|]. intros _. apply prefix_extends; [done|].
        intros Heq. rewrite Heq in Hgx. by rewrite (proj2 (PathFacts.lexCompare_eq _ _)) in Hgx.
      * rewrite (Hn j d Hj). lia.
    + exists O. intros j d Hj. split; [|lia]. intros (e & He & Hd). exfalso.
      destruct j as [|j]; simpl in Hj.
      * simplify_eq. apply Hnpre. rewrite Hd. by exists e.
      * assert (pathLt path x d) as Hxd.
        { rewrite Forall_forall in Hx. apply Hx. by eapply list_elem_of_lookup_2. }
        unfold pathLt in Hxd. rewrite Hd in Hxd.
        pose proof (lexCompare_past pp (path x) e Hgx Hnpre) as Hlt.
        rewrite lexCompare_antisym, Hxd in Hlt. done.
Qed.

Lemma extensions_contiguous l i p :
  StronglySorted (pathLt path) l → l !! i = Some p →
  ∃ n, ∀ j d, l !! j = Some d → (extends (path p) (path d) ↔ (i < j ≤ i + n)%nat).
Proof.
  intros Hs Hp. rewrite <- (take_drop_middle l i p Hp) in Hs.
  apply StronglySorted_app in Hs as (Hlr & _ & Hr).
  apply StronglySorted_cons in Hr as [Hpr Hr].
  destruct (run_of_extensions (path p) (drop (S i) l) Hr Hpr) as [n Hn].
  exists n. intros j d Hj.
  assert (length (take i l) = i) as Hlen.
  { apply length_take_le. apply lookup_lt_Some in Hp. lia. }
  rewrite <- (take_drop_middle l i p Hp) in Hj.
  apply lookup_app_Some in Hj as [Hj|[Hge Hj]].
  - (* before [p] *)
    pose proof (lookup_lt_Some _ _ _ Hj). split; [|lia]. intros (e & He & Hd). exfalso.
    assert (pathLt path d p) as Hdp.
    { apply Hlr; [by eapply list_elem_of_lookup_2|by left]. }
    unfold pathLt in Hdp. rewrite Hd, lexCompare_antisym, lexCompare_extension in Hdp; done.
  - rewrite Hlen in *. destruct (j - i)%nat as [|k] eqn:Hk; simpl in Hj.
    + (* [p] itself *)
      simplify_eq. split; [|lia]. intros (e & He & Hd).
      apply (f_equal length) in Hd. rewrite length_app in Hd. destruct e; [done|]. simpl in Hd. lia.
    + rewrite (Hn k d Hj). lia.
Qed.

End Runs.

(** *** The tree of a collection, object by object *)

Lemma parentPos_None_iff l c :
  parentPos l c = None ↔ ∀ q, q ∈ l → parent c ≠ Some (id q).
Proof.
  split.
  - intros Hn q Hq Hp. destruct (parentPos_resolves l c q Hq Hp) as (pi & ? & ? & _). congruence.
  - intros Hno. destruct (parentPos l c) as [pi|] eqn:Hp; [|done].
    destruct (parentPos_lookup _ _ _ Hp) as (q & Hq & Hpq).
    destruct (Hno q); [by eapply list_elem_of_lookup_2|done].
Qed.

Lemma isParentIn_pos l q c :
  NoDup (map id l) → isParentIn l q c →
  ∃ pi, parentPos l c = Some pi ∧ l !! pi = Some q.
Proof.
  intros Hnd [Hq Hp]. destruct (parentPos_resolves l c q Hq Hp) as (pi & q' & Hpos & Hq' & Hid).
  exists pi. split; [done|]. apply list_elem_of_lookup in Hq as [j Hj].
  by rewrite (unique_id_lookup l pi j q' q Hnd Hq' Hj Hid).
Qed.

Lemma treeKeys_of_wfKeys l :
  NoDup (map id l) → Forall keyed l → wfKeys l → treeKeys l.
Proof.
  intros Hnd Hk Hw. split.
  - intros c [i Hc]%list_elem_of_lookup. apply (wk_path l Hw i c Hc).
    by eapply Forall_lookup_1.
  - intros c q p [i Hc]%list_elem_of_lookup Hq Hcp.
    destruct (isParentIn_pos l q c Hnd Hq) as (pi & Hpos & Hpi).
    pose proof (wk_parent l Hw i c p Hc Hcp) as H. rewrite Hpos in H.
    destruct H as (cp & pp & j & Hcp' & Hpp & ->). exists pp, j.
    split; [|done]. congruence.
  - intros c p [i Hc]%list_elem_of_lookup Hpos Hcp.
    pose proof (wk_parent l Hw i c p Hc Hcp) as H. by rewrite Hpos in H.
  - intros c c' p [i Hc]%list_elem_of_lookup [i' Hc']%list_elem_of_lookup [Hk1 _] [Hk2 _].
    assert (i = i') by (by eapply (wk_inj l Hw i i' c c')). congruence.
Qed.

Lemma treeKeys_perm l l' : l ≡ₚ l' → treeKeys l → treeKeys l'.
Proof.
  intros Hp Ht.
  assert (∀ q c, isParentIn l' q c → isParentIn l q c) as Hpar.
  { intros q c [Hq ?]. split; [by rewrite Hp|done]. }
  split.
  - intros c Hc. apply (tk_path l Ht). by rewrite Hp.
  - intros c q p Hc Hq. apply (tk_child l Ht); [by rewrite Hp|by apply Hpar].
  - intros c p Hc Hpos. apply (tk_root l Ht); [by rewrite Hp|].
    apply parentPos_None_iff. intros q Hq. rewrite Hp in Hq.
    by apply (proj1 (parentPos_None_iff l' c) Hpos).
  - intros c c' p Hc Hc'. apply (tk_inj l Ht); by rewrite Hp.
Qed.

Lemma descendant_extends l p d :
  treeKeys l → descendantIn l p d → d ∈ l →
  ∃ pp, hasPath p pp ∧ extends pp (pathOf d).
Proof.
  intros Ht. induction 1 as [d Hpar|q d Hdesc IH Hpar]; intros Hd.
  - destruct (tk_path l Ht d Hd) as [pd Hpd].
    destruct (tk_child l Ht d p pd Hd Hpar Hpd) as (pp & j & Hpp & ->).
    exists pp. split; [done|]. rewrite (hasPath_pathOf d _ Hpd). by exists [j].
  - destruct (IH (proj1 Hpar)) as (pp & Hpp & e & He & Hq).
    destruct (tk_path l Ht d Hd) as [pd Hpd].
    destruct (tk_child l Ht d q pd Hd Hpar Hpd) as (pq & j & Hpq & ->).
    exists pp. split; [done|]. rewrite (hasPath_pathOf d _ Hpd).
    rewrite (hasPath_pathOf q _ Hpq) in Hq. subst pq.
    exists (e ++ [j])%list. split; [by destruct e|]. by rewrite app_assoc.
Qed.

Lemma extends_descendant l p pp :
  treeKeys l → p ∈ l → hasPath p pp →
  ∀ e d, e ≠ [] → d ∈ l → hasPath d (pp ++ e) → descendantIn l p d.
Proof.
  intros Ht Hp Hpp e. induction e as [|j e IH] using rev_ind; intros d He Hd Hdp; [done|].
  destruct (parentPos l d) as [pi|] eqn:Hpos.
  - destruct (parentPos_lookup _ _ _ Hpos) as (q & Hq & Hpq).
    assert (isParentIn l q d) as Hpar by (split; [by eapply list_elem_of_lookup_2|done]).
    destruct (tk_child l Ht d q _ Hd Hpar Hdp) as (pq & j' & Hqp & Heq).
    rewrite app_assoc in Heq. apply app_inj_tail in Heq as [<- <-].
    destruct e as [|a e].
    + rewrite app_nil_r in Hqp.
      rewrite (tk_inj l Ht p q pp Hp (proj1 Hpar) Hpp Hqp). by apply desc_child.
    + apply (desc_step l p q d); [|done]. apply IH; [done|apply Hpar|done].
  - destruct (tk_root l Ht d _ Hd Hpos Hdp) as [j' Heq].
    apply (f_equal length) in Heq. rewrite !length_app in Heq. simpl in Heq.
    destruct Hpp as [_ [Hne _]]. destruct pp; [done|]. simpl in Heq. lia.
Qed.

Lemma strongly_sorted_lookup {A} (R : relation A) l i j x y :
  StronglySorted R l → l !! i = Some x → l !! j = Some y → (i < j)%nat → R x y.
Proof.
  intros Hs Hi Hj Hlt. rewrite <- (take_drop_middle l i x Hi) in Hs, Hj.
  apply StronglySorted_app_1_r, StronglySorted_cons in Hs as [Hx _].
  rewrite Forall_forall in Hx. apply Hx.
  assert (length (take i l) = i) as Hlen.
  { apply length_take_le. apply lookup_lt_Some in Hi. lia. }
  apply lookup_app_Some in Hj as [Hj|[_ Hj]].
  - apply lookup_lt_Some in Hj. lia.
  - rewrite Hlen in Hj. destruct (j - i)%nat as [|k] eqn:Hk; [lia|].
    by eapply list_elem_of_lookup_2.
Qed.

(** A list sorted by [compareThread] whose keys are distinct paths is
    strictly increasing for the order of the paths. *)
Lemma sorted_by_path l :
  NoDup l →
  (∀ c, c ∈ l → ∃ p, hasPath c p) →
  (∀ c c' p, c ∈ l → c' ∈ l → hasPath c p → hasPath c' p → c = c') →
  StronglySorted (cle compareThread) l →
  StronglySorted (pathLt pathOf) l.
Proof.
  intros Hnd Hpath Hinj Hs. induction Hs as [|x l Hs IH Hx]; [constructor|].
  apply NoDup_cons in Hnd as [Hxl Hnd].
  constructor.
  - apply IH; [done| |].
    + intros c Hc. apply Hpath. by right.
    + intros c c' p Hc Hc'. apply Hinj; by right.
  - apply Forall_forall. intros y Hy. rewrite Forall_forall in Hx.
    destruct (Hpath x) as [px Hpx]; [by left|].
    destruct (Hpath y) as [py Hpy]; [by right|].
    specialize (Hx y Hy). unfold cle in Hx.
    rewrite (compareThread_keyed x y _ _ (proj1 Hpx) (proj1 Hpy)) in Hx.
    rewrite PathFacts.compare_render in Hx; [|apply Hpx|apply Hpy].
    unfold pathLt. rewrite (hasPath_pathOf x px), (hasPath_pathOf y py) by done.
    destruct (Path.lexCompare px py) eqn:E; [|done..].
    apply PathFacts.lexCompare_eq in E. subst py.
    destruct Hxl. by rewrite (Hinj x y px) by (done || by left || by right).
Qed.

Lemma isRoot_perm l l' c : l ≡ₚ l' → isRoot l' c = isRoot l c.
Proof.
  intros Hp. apply eq_true_iff_eq. rewrite !isRoot_parentPos, !parentPos_None_iff.
  split; intros H q Hq; apply H; by rewrite ?Hp in *.
Qed.

Lemma groupOf_perm l l' c : l ≡ₚ l' → groupOf l' c = groupOf l c.
Proof. intros Hp. unfold groupOf. by rewrite (isRoot_perm l l'). Qed.

Lemma siblings_share_prefix l a b pa pb :
  NoDup (map id l) → treeKeys l → a ∈ l → b ∈ l → siblingsIn l a b →
  hasPath a pa → hasPath b pb →
  ∃ pq ka kb, pa = (pq ++ [ka])%list ∧ pb = (pq ++ [kb])%list.
Proof.
  intros Hnd Ht Ha Hb Hg Hpa Hpb. unfold siblingsIn in Hg.
  destruct (parentPos l a) as [pi|] eqn:Hposa.
  - rewrite (groupOf_child l a pi Hposa) in Hg.
    destruct (parentPos_lookup _ _ _ Hposa) as (q & Hq & Hpq).
    rewrite Hpq in Hg. symmetry in Hg. apply groupOf_Some in Hg as [Hpb' _].
    assert (q ∈ l) as Hql by (by eapply list_elem_of_lookup_2).
    destruct (tk_child l Ht a q pa Ha (conj Hql Hpq) Hpa) as (pq & ka & Hq1 & ->).
    destruct (tk_child l Ht b q pb Hb (conj Hql Hpb') Hpb) as (pq' & kb & Hq2 & ->).
    exists pq, ka, kb. by rewrite (hasPath_unique q pq' pq).
  - rewrite (groupOf_root l a Hposa) in Hg. symmetry in Hg. apply groupOf_None in Hg.
    destruct (tk_root l Ht a pa Ha Hposa Hpa) as [ka ->].
    destruct (tk_root l Ht b pb Hb Hg Hpb) as [kb ->].
    by exists [], ka, kb.
Qed.

Lemma NoDup_of_ids (l : list Item) : NoDup (map id l) → NoDup l.
Proof. apply NoDup_fmap_1. Qed.

Lemma sorted_preorder keyedItems :
  NoDup (map id keyedItems) → Forall keyed keyedItems → wfKeys keyedItems →
  preorder (Js.sort compareThread keyedItems).
Proof.
  intros Hnd Hk Hw. set (sorted := Js.sort compareThread keyedItems).
  assert (sorted ≡ₚ keyedItems) as Hperm by apply sort_perm.
  assert (treeKeys sorted) as Ht.
  { apply (treeKeys_perm keyedItems); [done|]. by apply treeKeys_of_wfKeys. }
  assert (NoDup (map id sorted)) as Hnd'.
  { change (NoDup (id <$> sorted)). by rewrite Hperm. }
  assert (StronglySorted (pathLt pathOf) sorted) as Hs.
  { apply sorted_by_path; [by apply NoDup_of_ids|apply Ht|apply Ht|].
    eapply sort_sorted; [apply compareThread_trans|apply compareThread_total|done]. }
  split.
  - intros i p Hp.
    assert (p ∈ sorted) as Hpin by (by eapply list_elem_of_lookup_2).
    destruct (tk_path sorted Ht p Hpin) as [pp Hpp].
    destruct (extensions_contiguous pathOf sorted i p Hs Hp) as [n Hn].
    exists n. intros j d Hd. rewrite <- (Hn j d Hd).
    assert (d ∈ sorted) as Hdin by (by eapply list_elem_of_lookup_2).
    rewrite (hasPath_pathOf p pp Hpp). split.
    + intros Hdesc. destruct (descendant_extends sorted p d Ht Hdesc Hdin) as (pp' & Hpp' & He).
      by rewrite (hasPath_unique p pp pp').
    + intros (e & He & Heq). destruct (tk_path sorted Ht d Hdin) as [pd Hpd].
      rewrite (hasPath_pathOf d pd Hpd) in Heq. subst pd.
      by apply (extends_descendant sorted p pp Ht Hpin Hpp e d).
  - intros i j a b Ha Hb Hlt Hsib.
    assert (a ∈ sorted ∧ b ∈ sorted) as [Hain Hbin]
      by (split; by eapply list_elem_of_lookup_2).
    destruct (tk_path sorted Ht a Hain) as [pa Hpa].
    destruct (tk_path sorted Ht b Hbin) as [pb Hpb].
    destruct (siblings_share_prefix sorted a b pa pb Hnd' Ht Hain Hbin Hsib Hpa Hpb)
      as (pq & ka & kb & -> & ->).
    exists ka, kb. unfold siblingIndex.
    rewrite (hasPath_pathOf a _ Hpa), (hasPath_pathOf b _ Hpb), !last_snoc.
    split_and!; [done..|].
    pose proof (strongly_sorted_lookup _ _ _ _ _ _ Hs Ha Hb Hlt) as Hab.
    unfold pathLt in Hab.
    rewrite (hasPath_pathOf a _ Hpa), (hasPath_pathOf b _ Hpb), PathFacts.lexCompare_snoc in Hab.
    by apply Z.compare_lt_iff.
Qed.

(** ** Acyclic parent references and termination *)

Lemma chainUp_upFrom f items ci x : x ∈ chainUp f items ci → upFrom items ci x.
Proof.
  revert ci. induction f as [|f IH]; intros ci; simpl; [by intros ?%elem_of_nil|].
  intros [->|Hx]%elem_of_cons; [constructor|].
  destruct (items !! ci) as [c|] eqn:Hc; simpl in Hx; [|by apply elem_of_nil in Hx].
  destruct (parentPos items c) as [pi|] eqn:Hp; [|by apply elem_of_nil in Hx].
  apply (upFrom_parent items ci c pi x); auto.
Qed.

Lemma upFrom_bound items ci x :
  upFrom items ci x → (ci < length items)%nat → (x < length items)%nat.
Proof.
  induction 1 as [|ci c pi j Hc Hp _ IH]; [done|]. intros _. apply IH.
  destruct (parentPos_lookup _ _ _ Hp) as (p & Hpi & _). by eapply lookup_lt_Some.
Qed.

Lemma chainUp_NoDup f items ci : acyclic items → NoDup (chainUp f items ci).
Proof.
  intros Hac. revert ci. induction f as [|f IH]; intros ci; simpl; [constructor|].
  destruct (items !! ci) as [c|] eqn:Hc; simpl; [|by apply NoDup_singleton].
  destruct (parentPos items c) as [pi|] eqn:Hp; [|by apply NoDup_singleton].
  apply NoDup_cons. split; [|apply IH].
  intros Hin%chainUp_upFrom. by apply (Hac ci c pi).
Qed.

Lemma chainUp_full f items ci :
  rootDepth f items ci = None → length (chainUp f items ci) = f.
Proof.
  revert ci. induction f as [|f IH]; intros ci; simpl; [done|].
  destruct (items !! ci ≫= parentPos items) as [pi|]; [|done].
  intros H. f_equal. apply IH. by destruct (rootDepth f items pi).
Qed.

(** With acyclic references a root is reached in at most as many steps
    as there are objects. *)
Lemma acyclic_rootDepth items ci :
  acyclic items → is_Some (rootDepth (S (length items)) items ci).
Proof.
  intros Hac. destruct (rootDepth (S (length items)) items ci) eqn:E; [by eexists|].
  exfalso. pose proof (chainUp_full _ _ _ E) as Hlen.
  assert (is_Some (items !! ci)) as [c Hc].
  { destruct (items !! ci) eqn:Hc; [by eexists|]. simpl in E. by rewrite Hc in E. }
  assert (chainUp (S (length items)) items ci ⊆ seq 0 (length items)) as Hsub.
  { intros x Hx%chainUp_upFrom. apply elem_of_seq. split; [lia|].
    simpl. apply (upFrom_bound items ci x Hx). by eapply lookup_lt_Some. }
  pose proof (chainUp_NoDup (S (length items)) items ci Hac) as Hnd.
  apply (NoDup_submseteq _ _ Hnd) in Hsub.
  apply submseteq_length in Hsub. rewrite Hlen, length_seq in Hsub. lia.
Qed.

Lemma rootDepth_unkeyedDepth f items items' ci :
  laterItems items items' → is_Some (rootDepth f items ci) →
  is_Some (unkeyedDepth f items' ci).
Proof.
  intros Hl. revert ci. induction f as [|f IH]; intros ci; simpl; [by intros []|].
  destruct (items' !! ci) as [c'|] eqn:Hc'; [|by eexists].
  destruct (laterItems_lookup_r _ _ _ _ Hl Hc') as (c & Hc & Lc).
  rewrite Hc. simpl. rewrite <- (parentPos_later items items' c c') by done.
  destruct (order c'); [by eexists|].
  destruct (parentPos items' c') as [pi|]; [|by eexists].
  intros [d Hd]. destruct (rootDepth f items pi) as [d'|] eqn:E; [|done].
  destruct (IH pi) as [d'' Hd'']; [by eexists|]. rewrite Hd''. by eexists.
Qed.

Lemma populateAll_returns opt f items0 items todo :
  (∀ ci, is_Some (rootDepth f items0 ci)) → laterItems items0 items →
  ∃ items', populateAll opt f items todo = Done items'.
Proof.
  intros Hd. revert items. induction todo as [|ci todo IH]; intros items Hl; simpl; [eauto|].
  destruct (rootDepth_unkeyedDepth f items0 items ci Hl (Hd ci)) as [d Hud].
  destruct (populate_returns opt f items ci d Hud) as [items1 H1]. rewrite H1.
  apply IH. eapply laterItems_trans; [exact Hl|]. by apply populate_later in H1 as [? _].
Qed.

(** With acyclic parent references [sortThread] returns. *)
Lemma sortThread_returns opt items :
  acyclic items → ∃ sorted, sortThread opt items = Done sorted.
Proof.
  intros Hac.
  destruct (populateAll_returns opt (S (length items)) items items (seq 0 (length items)))
    as [keyedItems Hk].
  - intros ci. by apply acyclic_rootDepth.
  - apply laterItems_refl.
  - exists (Js.sort compareThread keyedItems). unfold sortThread, keyPass. by rewrite Hk.
Qed.

(** ** Preorder of the result *)

Lemma manyRoots_lookup n i c :
  manyRoots n !! i = Some c →
  c = mkItem (Js.toString36 (Some (Z.of_nat i))) None None ∧ (i < n)%nat.
Proof.
  unfold manyRoots. intros H. change (map ?f ?l) with (f <$> l) in H.
  rewrite list_lookup_fmap in H. apply fmap_Some in H as (j & Hj & ->).
  apply lookup_seq in Hj as [-> ?]. done.
Qed.

Lemma toString36_parse z :
  0 ≤ z < 1297 → Js.parseInt36 (Js.toString36 (Some z)) = Some z.
Proof.
  intros H.
  apply (NumFacts.check_below 1297
    (λ z, bool_decide (Js.parseInt36 (Js.toString36 (Some z)) = Some z))) in H;
    [by apply bool_decide_eq_true in H|by vm_compute].
Qed.

Lemma manyRoots_ids_distinct n : (n ≤ 1297)%nat → NoDup (map id (manyRoots n)).
Proof.
  intros Hn. apply NoDup_alt. intros i j s Hi Hj.
  change (map ?f ?l) with (f <$> l) in Hi, Hj. rewrite list_lookup_fmap in Hi, Hj.
  apply fmap_Some in Hi as (ci & [-> ?]%manyRoots_lookup & Hsi).
  apply fmap_Some in Hj as (cj & [-> ?]%manyRoots_lookup & Hsj).
  cbn [id] in Hsi, Hsj. subst s.
  apply (f_equal Js.parseInt36) in Hsj. rewrite !toString36_parse in Hsj by lia.
  simplify_eq. lia.
Qed.

Lemma manyRoots_acyclic n : acyclic (manyRoots n).
Proof.
  intros i c pi [-> _]%manyRoots_lookup Hp. by rewrite parentPos_absent in Hp.
Qed.

Lemma manyRoots_unkeyed n : Forall (λ c, order c = None) (manyRoots n).
Proof. apply Forall_lookup. by intros i c [-> _]%manyRoots_lookup. Qed.

Lemma prekeyedPair_acyclic : acyclic prekeyedPair.
Proof.
  intros i c pi Hc Hp. destruct i as [|[|i]]; [| |done].
  - injection Hc as <-. vm_compute in Hp. discriminate.
  - injection Hc as <-. vm_compute in Hp. injection Hp as <-.
    intros Hup. inversion Hup as [|ci0 c0 pi0 j0 Hc0 Hp0 Hup0]; subst.
    injection Hc0 as <-. vm_compute in Hp0. discriminate.
Qed.

(** C1, as stated, fails on two counts.  A key present on input is kept,
    so a child that arrives with a key smaller than the key of its parent
    is placed before its parent.  And with 1297 roots the root of sibling
    index 1296 is placed before the root of index 37. *)
Lemma preorder_fails_with_input_keys_and_past_1296 :
  (NoDup (map id prekeyedPair) ∧ acyclic prekeyedPair ∧
   ∃ sorted, sortThread defaults prekeyedPair = Done sorted ∧ ¬ preorder sorted) ∧
  (NoDup (map id (manyRoots 1297)) ∧ acyclic (manyRoots 1297) ∧
   Forall (λ c, order c = None) (manyRoots 1297) ∧
   ∃ sorted, sortThread defaults (manyRoots 1297) = Done sorted ∧ ¬ preorder sorted).
Proof.
  assert (1297 ≤ 1297)%nat as Hle by lia.
  assert (¬ 1296 < 37) as Hnlt by lia.
  split.
  - split_and!.
    + apply NoDup_cons. split; [|apply NoDup_singleton].
      intros [=]%list_elem_of_singleton.
    + apply prekeyedPair_acyclic.
    + eexists. split; [by vm_compute|].
      intros [Hcontig _].
      destruct (Hcontig 1%nat (mkItem "p" None (Some "01.")) eq_refl) as [n Hn].
      specialize (Hn 0%nat (mkItem "c" (Some "p") (Some "00.")) eq_refl).
      assert (1 < 0 ≤ 1 + n)%nat; [|lia]. apply Hn.
      apply desc_child. split; [|done]. right. by left.
  - split; [exact (manyRoots_ids_distinct 1297 Hle)|].
    split; [apply manyRoots_acyclic|]. split; [apply manyRoots_unkeyed|].
    destruct (whenDone_true _ _ overflow_evaluated) as (sorted & Hs & H).
    apply andb_true_iff in H as [(a & Ha & Ka & Pa)%rootWithKey_true
                                   (b & Hb & Kb & Pb)%rootWithKey_true].
    exists sorted. split; [exact Hs|]. clear Hs. intros [_ Hsib].
    assert (37 < 38)%nat as Hpos by (clear; lia).
    destruct (Hsib 37%nat 38%nat a b Ha Hb Hpos) as (ka & kb & Hka & Hkb & Hlt).
    { unfold siblingsIn, groupOf, isRoot. by rewrite Pa, Pb. }
    unfold siblingIndex, pathOf in Hka, Hkb. rewrite Ka in Hka. rewrite Kb in Hkb.
    vm_compute in Hka, Hkb. simplify_eq. done.
Qed.

(** C1, amended. For a collection with unique ids and acyclic parent
    references in which no object carries a key on input and no sibling
    group has more than 1296 members, and with the default options,
    [sortThread] returns and its result is in preorder: the descendants
    of each object are the objects that follow it up to the end of its
    subtree, and siblings come in the order of their sibling indices. *)
Theorem sortThread_preorder items :
  NoDup (map id items) → acyclic items →
  Forall (λ c, order c = None) items → groupsBounded items = true →
  ∃ sorted, sortThread defaults items = Done sorted ∧ preorder sorted.
Proof.
  intros Hnd Hac Hno Hb.
  destruct (sortThread_returns defaults items Hac) as [sorted Hs].
  exists sorted. split; [done|].
  apply sortThread_Done in Hs as (keyedItems & Hpass & ->).
  apply sorted_preorder.
  - by rewrite (laterItems_ids items keyedItems) by (by eapply keyPass_later).
  - by eapply keyPass_all_keyed.
  - eapply (populateAll_wfKeys _ items); [|exact Hpass].
    apply wfKeys_unkeyed; [done|]. intros g. by apply groupsBounded_all.
Qed.

(** ** The theorems at concrete collections *)

Lemma replyFirst_sorted : sortThread defaults replyFirst = Done replyFirstSorted.
Proof. reflexivity. Qed.

Lemma replyFirst_ids : NoDup (map id replyFirst).
Proof.
  apply NoDup_ListNoDup. repeat constructor; simpl; intuition discriminate.
Qed.

Lemma replyFirst_acyclic : acyclic replyFirst.
Proof.
  intros i c pi Hc Hp. destruct i as [|[|[|i]]]; [| | |done].
  - injection Hc as <-. vm_compute in Hp. injection Hp as <-.
    intros Hup. inversion Hup as [|ci0 c0 pi0 j0 Hc0 Hp0 Hup0]; subst.
    injection Hc0 as <-. vm_compute in Hp0. discriminate.
  - injection Hc as <-. vm_compute in Hp. discriminate.
  - injection Hc as <-. vm_compute in Hp. discriminate.
Qed.

Lemma sortThread_preorder_witness :
  NoDup (map id replyFirst) ∧ acyclic replyFirst ∧
  Forall (λ c, order c = None) replyFirst ∧ groupsBounded replyFirst = true ∧
  ∃ sorted, sortThread defaults replyFirst = Done sorted ∧ preorder sorted.
Proof.
  assert (Forall (λ c, order c = None) replyFirst) as Hno by (by repeat constructor).
  assert (groupsBounded replyFirst = true) as Hb by (by vm_compute).
  split_and!; [apply replyFirst_ids|apply replyFirst_acyclic|done..|].
  exact (sortThread_preorder replyFirst replyFirst_ids replyFirst_acyclic Hno Hb).
Defined.

Lemma sortThread_idempotent_witness :
  sortThread defaults replyFirst = Done replyFirstSorted ∧
  keyPass defaults replyFirstSorted = Done replyFirstSorted ∧
  sortThread defaults replyFirstSorted = Done replyFirstSorted.
Proof.
  split; [reflexivity|].
  exact (sortThread_idempotent defaults replyFirst replyFirstSorted eq_refl).
Defined.


Lemma child_key_extends_parent_key_witness :
  NoDup (map id replyFirst) ∧
  sortThread defaults replyFirst = Done replyFirstSorted ∧
  ∃ kc kp bc bp rest,
    Some "00/00." = Some kc ∧ Some "00." = Some kp ∧
    stripEor defaults (Some kc) = Some bc ∧ stripEor defaults (Some kp) = Some bp ∧
    rest ≠ "" ∧ bc = bp ++ delimiter defaults ++ rest ∧
    String.compare kp kc = Lt.
Proof.
  split; [apply replyFirst_ids|]. split; [reflexivity|].
  apply (child_key_extends_parent_key replyFirst replyFirstSorted replyFirst_ids eq_refl
           (mkItem "c" (Some "r") None) (mkItem "c" (Some "r") (Some "00/00."))
           (mkItem "r" None (Some "00."))).
  - by left.
  - reflexivity.
  - right. by left.
  - reflexivity.
  - by left.
  - reflexivity.
Defined.




(** * Further properties of the program *)

(** ** Termination and parent references that loop *)



Lemma find_same_ids (q : string → bool) (l1 l2 : list Item) :
  Forall2 (λ c c', id c' = id c) l1 l2 →
  fst <$> Js.find (λ i, q (id i)) l2 = fst <$> Js.find (λ i, q (id i)) l1.
Proof.
  unfold Js.find. induction 1 as [|c c' l1 l2 Hid _ IH]; [done|].
  simpl. rewrite Hid. destruct (decide (q (id c))); [done|].
  rewrite <- !option_fmap_compose.
  destruct (list_find _ l1) as [[]|], (list_find _ l2) as [[]|]; simpl in *; congruence.
Qed.

Lemma parentPos_set items ci v x : parentPos (setThread items ci v) x = parentPos items x.
Proof.
  unfold parentPos. apply (find_same_ids (λ s, Js.looseEq (Some s) (parent x))).
  apply Forall2_same_length_lookup_2; [by rewrite setThread_length|].
  intros j a b Ha Hb. destruct (decide (ci = j)) as [<-|Hne].
  - rewrite (setThread_lookup _ _ _ a) in Hb by done. by simplify_eq.
  - rewrite setThread_lookup_ne in Hb by done. by simplify_eq.
Qed.

Lemma unkeyedLoop_set items L ci v :
  unkeyedLoop items L → ¬ L ci → unkeyedLoop (setThread items ci v) L.
Proof.
  intros HL Hci i Hi. destruct (HL i Hi) as (x & pi & Hx & Hox & Hp & Hpi).
  exists x, pi. split_and!; [|done| |done].
  - rewrite setThread_lookup_ne; [done|]. by intros ->.
  - by rewrite parentPos_set.
Qed.

Lemma populate_in_loop opt L f items ci :
  unkeyedLoop items L →
  (L ci → populateThreadForItem opt f items ci = StackExhausted) ∧
  (∀ items', populateThreadForItem opt f items ci = Done items' → unkeyedLoop items' L).
Proof.
  revert items ci. induction f as [|f IH]; intros items ci HL; [done|].
  rewrite populate_unfold. split.
  - intros (c & pi & -> & -> & -> & Hpi)%HL.
    destruct (IH items pi HL) as [Hin _]. by rewrite Hin.
  - intros items'. destruct (items !! ci) as [c|] eqn:Hc; [|by intros [= <-]].
    destruct (order c) as [k|] eqn:Ho; [by intros [= <-]|].
    assert (parentPos items c = None ∨
            (∃ pi, parentPos items c = Some pi ∧ ¬ L pi) → ¬ L ci) as Hout.
    { intros Hcase (c' & pi' & Hc' & _ & Hp' & Hpi')%HL. simplify_eq.
      destruct Hcase as [?|(pi & ? & ?)]; simplify_eq; congruence. }
    destruct (parentPos items c) as [pi|] eqn:Hp.
    + destruct (IH items pi HL) as [Hin Hdone].
      destruct (populateThreadForItem opt f items pi) as [items1| |] eqn:Hrec; try done.
      intros [= <-]. apply unkeyedLoop_set; [by apply Hdone|].
      apply Hout. right. exists pi. split; [done|]. intros Hpi. by specialize (Hin Hpi).
    + intros [= <-]. apply unkeyedLoop_set; [done|]. apply Hout. by left.
Qed.

Lemma populateAll_in_loop opt L f items todo ci :
  unkeyedLoop items L → L ci → ci ∈ todo →
  populateAll opt f items todo = StackExhausted.
Proof.
  intros HL Hci. revert items HL.
  induction todo as [|x todo IH]; intros items HL Hin; [by apply elem_of_nil in Hin|].
  simpl. destruct (populate_in_loop opt L f items x HL) as [Hloop Hdone].
  destruct (populateThreadForItem opt f items x) as [items1| |] eqn:Hx; [| |done].
  - apply elem_of_cons in Hin as [->|Hin]; [by specialize (Hloop Hci)|].
    apply IH; [by apply Hdone|done].
  - by destruct (populate_not_thrown opt f items x).
Qed.

(** X2. With any options: when the way up from an object without a key
    runs for ever through objects without keys (a parent reference that
    loops, an object that names itself), the recursion of
    [populateThreadForItem] does not come to an end at any depth of the
    stack, neither does the keying pass, and [sortThread] does not
    return a result. *)
Theorem parent_loop_never_returns opt items (L : nat → Prop) ci :
  unkeyedLoop items L → L ci →
  (∀ fuel, populateThreadForItem opt fuel items ci = StackExhausted) ∧
  (∀ fuel, populateAll opt fuel items (seq 0 (length items)) = StackExhausted) ∧
  sortThread opt items = StackExhausted.
Proof.
  intros HL Hci.
  assert (ci ∈ seq 0 (length items)) as Hin.
  { destruct (HL ci Hci) as (c & _ & Hc%lookup_lt_Some & _). apply elem_of_seq. lia. }
  split_and!.
  - intros fuel. by apply (populate_in_loop opt L fuel items ci HL).
  - intros fuel. by apply (populateAll_in_loop opt L fuel items _ ci).
  - unfold sortThread, keyPass. by rewrite (populateAll_in_loop opt L _ items _ ci).
Qed.

Lemma parent_loop_never_returns_witness :
  unkeyedLoop mutualParents (λ i, (i < 2)%nat) ∧
  (∀ fuel, populateThreadForItem defaults fuel mutualParents 0 = StackExhausted) ∧
  sortThread defaults mutualParents = StackExhausted.
Proof.
  assert (unkeyedLoop mutualParents (λ i, (i < 2)%nat)) as HL.
  { intros i Hi. destruct i as [|[|i]]; [| |lia].
    - exists (mkItem "a" (Some "b") None), 1%nat. split_and!; [reflexivity..|lia].
    - exists (mkItem "b" (Some "a") None), 0%nat. split_and!; [reflexivity..|lia]. }
  split; [exact HL|].
  destruct (parent_loop_never_returns defaults mutualParents (λ i, (i < 2)%nat) 0%nat HL)
    as (H1 & _ & H3); [lia|].
  split; [exact H1|exact H3].
Defined.

(** *** A call that does not return has met a loop *)












(** ** What a call leaves as it was *)

Lemma laterItem_kept c c' : laterItem c c' → keyed c → c' = c.
Proof.
  intros (Hid & Hp & Hk) [k Ho]. specialize (Hk k Ho).
  destruct c, c'; simpl in *; congruence.
Qed.

(** X4. With any options: a call that returns gives back as many objects
    as it was given, with the same [id] and [parent] fields (and as many
    of each), and an object that had a key on input is in the result with
    that same key. *)
Theorem sortThread_keeps_objects opt items sorted :
  sortThread opt items = Done sorted →
  length sorted = length items ∧
  map (λ c, (id c, parent c)) sorted ≡ₚ map (λ c, (id c, parent c)) items ∧
  ∀ c, c ∈ items → keyed c → c ∈ sorted.
Proof.
  intros (keyedItems & Hpass%keyPass_later & ->)%sortThread_Done.
  assert (map (λ c, (id c, parent c)) keyedItems = map (λ c, (id c, parent c)) items) as Hsame.
  { induction Hpass as [|c c' l l' (Hid & Hp & _) _ IH]; [done|].
    simpl. by rewrite Hid, Hp, IH. }
  split_and!.
  - rewrite (Permutation_length (sort_perm compareThread keyedItems)).
    by apply laterItems_length.
  - rewrite <- Hsame. apply fmap_Permutation, sort_perm.
  - intros c (i & Hi)%list_elem_of_lookup_1 Hk.
    destruct (laterItems_lookup _ _ _ _ Hpass Hi) as (c' & Hc' & Lc).
    apply sort_elem_of. rewrite <- (laterItem_kept c c' Lc Hk).
    by eapply list_elem_of_lookup_2.
Qed.

Lemma sortThread_keeps_objects_witness :
  sortThread defaults misleadingKeys =
    Done [ mkItem "r" None (Some "00."); mkItem "c" (Some "r") (Some "05/00.");
           mkItem "n" None (Some "06.") ] ∧
  ∀ c, c ∈ misleadingKeys → keyed c →
    c ∈ [ mkItem "r" None (Some "00."); mkItem "c" (Some "r") (Some "05/00.");
          mkItem "n" None (Some "06.") ].
Proof.
  split; [reflexivity|].
  exact (proj2 (proj2 (sortThread_keeps_objects defaults misleadingKeys _ eq_refl))).
Defined.

(** X5. With any options: a call of [populateThreadForItem] that
    returns leaves the array at its length and every [id] and [parent] as
    they were, leaves its argument with a key, and changes the key of no
    object other than objects without a key that are the argument or one
    of its ancestors. *)
Theorem call_keys_ancestors_only opt fuel items ci items' :
  populateThreadForItem opt fuel items ci = Done items' →
  length items' = length items ∧
  (∀ c, items !! ci = Some c → ∃ c', items' !! ci = Some c' ∧ keyed c') ∧
  ∀ j cj cj', items !! j = Some cj → items' !! j = Some cj' →
    id cj' = id cj ∧ parent cj' = parent cj ∧
    (order cj' = order cj ∨ (order cj = None ∧ upFrom items ci j)).
Proof.
  intros Hrun. pose proof (populate_later _ _ _ _ _ Hrun) as [Hl _].
  split_and!.
  - by apply laterItems_length.
  - intros c Hc. by apply (populate_keys_argument opt fuel items ci items' c).
  - intros j cj cj' Hj Hj'.
    destruct (laterItems_lookup _ _ _ _ Hl Hj) as (x & Hx & Hid & Hp & Hkeep).
    assert (x = cj') as -> by congruence. split_and!; [done..|].
    destruct (order cj) as [k|] eqn:Ho; [left; by apply Hkeep|].
    destruct (order cj') as [k'|] eqn:Ho'; [|by left]. right. split; [done|].
    apply (populate_keys_chain opt fuel items ci items' Hrun j cj cj'); [done..|by exists k'].
Qed.

Lemma call_keys_ancestors_only_witness :
  populateThreadForItem defaults 2 replyFirst 0 = Done halfKeyed ∧
  length halfKeyed = length replyFirst ∧
  ∃ c', halfKeyed !! 0%nat = Some c' ∧ keyed c'.
Proof.
  split; [reflexivity|].
  destruct (call_keys_ancestors_only defaults 2 replyFirst 0 halfKeyed eq_refl)
    as (Hlen & Harg & _).
  split; [exact Hlen|]. exact (Harg (mkItem "c" (Some "r") None) eq_refl).
Defined.

Lemma result_ascends_by_comparison opt items sorted :
  sortThread opt items = Done sorted →
  ∀ i j a b, sorted !! i = Some a → sorted !! j = Some b → (i < j)%nat →
    compareThread a b ≠ Gt.
Proof.
  intros [_ Hs]%sortThread_sorted i j a b Ha Hb Hlt.
  apply (strongly_sorted_lookup _ _ _ _ _ _ Hs Ha Hb Hlt).
Qed.

(** X6. With any options: in the result of a call that returns every
    object has a key, and the keys ascend along the array in the order of
    the comparison. *)
Theorem sortThread_result_ascends opt items sorted :
  sortThread opt items = Done sorted →
  (∀ c, c ∈ sorted → ∃ k, order c = Some k) ∧
  ∀ i j a b, sorted !! i = Some a → sorted !! j = Some b → (i < j)%nat →
    ∃ ka kb, order a = Some ka ∧ order b = Some kb ∧ Js.localeCompare ka kb ≠ Gt.
Proof.
  intros [Hk Hs]%sortThread_sorted. rewrite Forall_forall in Hk. split; [exact Hk|].
  intros i j a b Ha Hb Hlt.
  destruct (Hk a) as [ka Hka]; [by eapply list_elem_of_lookup_2|].
  destruct (Hk b) as [kb Hkb]; [by eapply list_elem_of_lookup_2|].
  exists ka, kb. split_and!; [done..|].
  pose proof (strongly_sorted_lookup _ _ _ _ _ _ Hs Ha Hb Hlt) as Hab.
  unfold cle in Hab. by rewrite (compareThread_keyed a b ka kb) in Hab.
Qed.

Lemma sortThread_result_ascends_witness :
  sortThread defaults replyFirst = Done replyFirstSorted ∧
  (∀ c, c ∈ replyFirstSorted → ∃ k, order c = Some k) ∧
  ∃ ka kb, Some "00." = Some ka ∧ Some "01." = Some kb ∧ Js.localeCompare ka kb ≠ Gt.
Proof.
  split; [reflexivity|].
  destruct (sortThread_result_ascends defaults replyFirst replyFirstSorted eq_refl)
    as [H1 H2].
  split; [exact H1|].
  apply (H2 0%nat 2%nat (mkItem "r" None (Some "00.")) (mkItem "s" None (Some "01.")));
    [reflexivity|reflexivity|lia].
Defined.

(** ** The scans, the marker, the segments and the comparison *)

(** X7. [getMaxThread] returns [undefined] exactly when no object has a
    non-empty key, and otherwise the greatest non-empty key of the
    collection; [getMaxThreadPerThread] does the same among the objects
    whose [parent] field is the given id. *)
Theorem max_scans_return_greatest_key items pid :
  match getMaxThread items with
  | None => ∀ c, c ∈ items → order c = None ∨ order c = Some ""
  | Some m =>
      m ≠ "" ∧ (∃ c, c ∈ items ∧ order c = Some m) ∧
      ∀ c k, c ∈ items → order c = Some k → k ≠ "" → Js.localeCompare k m ≠ Gt
  end ∧
  match getMaxThreadPerThread items (Some pid) with
  | None => ∀ c, c ∈ items → parent c = Some pid → order c = None ∨ order c = Some ""
  | Some m =>
      m ≠ "" ∧ (∃ c, c ∈ items ∧ parent c = Some pid ∧ order c = Some m) ∧
      ∀ c k, c ∈ items → parent c = Some pid → order c = Some k → k ≠ "" →
        Js.localeCompare k m ≠ Gt
  end.
Proof.
  assert (∀ o : option string, Js.truthy o = false → o = None ∨ o = Some "") as Hfalsy.
  { intros [[|]|]; simpl; auto; discriminate. }
  assert (∀ k, k ≠ "" → Js.truthy (Some k) = true) as Htruthy by (by intros [|]).
  split.
  - pose proof (getMaxThread_spec items) as H.
    destruct (getMaxThread items) as [m|].
    + destruct H as [(c & Hc & Hf & Ho) Hmax]. unfold nonEmptyKey in Hf.
      split_and!.
      * intros ->. by rewrite Ho in Hf.
      * by exists c.
      * intros x k Hx Hk Hne. apply (Hmax x k Hx); [|done].
        unfold nonEmptyKey. rewrite Hk. by apply Htruthy.
    + intros c Hc. apply Hfalsy, (H c Hc).
  - pose proof (getMaxThreadPerThread_spec items (Some pid)) as H.
    destruct (getMaxThreadPerThread items (Some pid)) as [m|].
    + destruct H as [(c & Hc & Hf & Ho) Hmax]. unfold siblingKey in Hf.
      apply andb_true_iff in Hf as [Hp%strictEq_true Hf].
      split_and!.
      * intros ->. by rewrite Ho in Hf.
      * by exists c.
      * intros x k Hx Hpx Hk Hne. apply (Hmax x k Hx); [|done].
        unfold siblingKey. rewrite Hk, Hpx, strictEq_refl. by apply Htruthy.
    + intros c Hc Hp. apply Hfalsy. specialize (H c Hc). unfold siblingKey in H.
      by rewrite Hp, strictEq_refl in H.
Qed.

Lemma dropLast_app s t : t ≠ "" → Js.dropLast (s ++ t) = s ++ Js.dropLast t.
Proof.
  intros Ht. induction s as [|c s IH]; [done|].
  simpl. rewrite IH. destruct (s ++ t) eqn:E; [|done].
  destruct s; simpl in E; [congruence|discriminate].
Qed.

Lemma truthy_nonempty s : s ≠ "" → Js.truthy (Some s) = true.
Proof. by destruct s. Qed.

(** X8. [stripEor] leaves [undefined] and the empty string as they are,
    and a string that does not end with the marker too; from a string
    that ends with the marker it removes one character, whatever the
    length of the marker: all of a marker of one character, so that the
    key built on line 89 is read back without it; all but a rest of a
    longer marker; and the last character of the key itself when the
    marker is empty. *)
Theorem stripEor_removes_one_character opt s :
  stripEor opt None = None ∧
  stripEor opt (Some "") = Some "" ∧
  (s ≠ "" → Js.endsWith s (endOfRecord opt) = false → stripEor opt (Some s) = Some s) ∧
  (s ++ endOfRecord opt ≠ "" →
     stripEor opt (Some (s ++ endOfRecord opt)) = Some (Js.dropLast (s ++ endOfRecord opt))) ∧
  (∀ c, endOfRecord opt = String c "" →
     stripEor opt (Some (s ++ endOfRecord opt)) = Some s) ∧
  (∀ c d r, endOfRecord opt = String c (String d r) →
     stripEor opt (Some (s ++ endOfRecord opt)) =
       Some (s ++ String c (Js.dropLast (String d r)))) ∧
  (endOfRecord opt = "" → ∀ c, stripEor opt (Some (s ++ String c "")) = Some s).
Proof.
  assert (∀ t, t ++ endOfRecord opt ≠ "" →
            stripEor opt (Some (t ++ endOfRecord opt)) =
              Some (Js.dropLast (t ++ endOfRecord opt))) as Hcut.
  { intros t Ht. unfold stripEor.
    by rewrite truthy_nonempty, StrFacts.endsWith_app by done. }
  split_and!.
  - done.
  - done.
  - intros Hs He. unfold stripEor. by rewrite He, andb_false_r.
  - apply Hcut.
  - intros c He. rewrite Hcut, He; [by rewrite StrFacts.dropLast_snoc|].
    rewrite He. by destruct s.
  - intros c d r He. rewrite Hcut, He; [by rewrite dropLast_app|].
    rewrite He. by destruct s.
  - intros He c. specialize (Hcut (s ++ String c "")). rewrite He in Hcut.
    rewrite !StrFacts.app_nil_r in Hcut. rewrite Hcut; [by rewrite StrFacts.dropLast_snoc|].
    by destruct s.
Qed.

Lemma digits36_length f z acc :
  (String.length acc ≤ String.length (Js.digits36 f z acc))%nat.
Proof.
  revert z acc. induction f as [|f IH]; intros z acc; [done|].
  rewrite Radix36.digits36_S. destruct (z / 36 =? 0); [simpl; lia|].
  etrans; [|apply IH]. simpl. lia.
Qed.

(** X9. The segment that line 89 writes for a number below 36 * 36 has
    two characters, and on such segments the comparison of strings is the
    comparison of the numbers; from 36 * 36 on the segment has three
    characters or more. *)
Theorem segment_width_and_order k :
  (0 ≤ k < 1296 →
     String.length (Js.padStart2 (Js.toString36 (Some k))) = 2%nat ∧
     ∀ j, 0 ≤ j < 1296 →
       Js.localeCompare (Js.padStart2 (Js.toString36 (Some j)))
                        (Js.padStart2 (Js.toString36 (Some k))) = (j ?= k)) ∧
  (1296 ≤ k → (3 ≤ String.length (Js.padStart2 (Js.toString36 (Some k))))%nat).
Proof.
  split.
  - intros Hk. fold (Num.seg k). split; [by rewrite NumFacts.seg_two|].
    intros j Hj. fold (Num.seg j).
    pose proof (NumFacts.seg_compare j k "" "" Hj Hk) as H.
    rewrite !StrFacts.app_nil_r in H. unfold Js.localeCompare. rewrite H.
    by destruct (j ?= k).
  - intros Hk. unfold Js.toString36.
    destruct (Z.ltb_spec k 0) as [?|_]; [lia|].
    assert (10 ≤ Z.log2 k) as Hlog.
    { apply Z.log2_le_pow2; lia. }
    destruct (Z.to_nat (Z.log2 k)) as [|[|[|f]]] eqn:Ef; [lia..|].
    rewrite Radix36.digits36_S.
    destruct (Z.eqb_spec (k / 36) 0) as [E1|_].
    { assert (36 ≤ k / 36) by (apply Z.div_le_lower_bound; lia). lia. }
    rewrite Radix36.digits36_S.
    destruct (Z.eqb_spec (k / 36 / 36) 0) as [E2|_].
    { assert (36 ≤ k / 36) by (apply Z.div_le_lower_bound; lia).
      assert (1 ≤ k / 36 / 36) by (apply Z.div_le_lower_bound; lia). lia. }
    unfold Js.padStart2.
    assert (∀ s, (3 ≤ String.length s)%nat →
              (3 ≤ String.length match s with
                                 | "" => "00"
                                 | String _ "" => String "0" s
                                 | _ => s
                                 end)%nat) as Hpad.
    { intros [|a [|b [|c r]]] H; simpl in H |- *; clear -H; lia. }
    apply Hpad.
    rewrite Radix36.digits36_S.
    destruct (_ =? 0); [simpl; lia|].
    etrans; [|apply digits36_length]. simpl. lia.
Qed.

Lemma segment_width_and_order_witness :
  String.length (Js.padStart2 (Js.toString36 (Some 36))) = 2%nat ∧
  Js.localeCompare (Js.padStart2 (Js.toString36 (Some 35)))
                   (Js.padStart2 (Js.toString36 (Some 36))) = Lt ∧
  (3 ≤ String.length (Js.padStart2 (Js.toString36 (Some 1296%Z))))%nat.
Proof.
  assert (0 ≤ 35 < 1296) as Hj by lia.
  assert (0 ≤ 36 < 1296) as Hk by lia.
  assert (1296 ≤ 1296) as Hbig by lia.
  destruct (segment_width_and_order 36) as [Hsmall _].
  destruct (segment_width_and_order 1296) as [_ Hwide].
  destruct (Hsmall Hk) as [Hlen Hcmp].
  split; [exact Hlen|]. split; [exact (Hcmp 35 Hj)|exact (Hwide Hbig)].
Defined.


(** ** Keys of a collection without keys on input *)

Lemma keyPass_wfKeys items keyedItems :
  wfKeys items → keyPass defaults items = Done keyedItems →
  wfKeys keyedItems ∧ Forall keyed keyedItems ∧ laterItems items keyedItems.
Proof.
  intros Hw Hpass. split_and!.
  - by destruct (populateAll_wfKeys _ _ _ _ Hw Hpass).
  - by eapply keyPass_all_keyed.
  - by eapply keyPass_later.
Qed.

Lemma wfKeys_NoDup l : wfKeys l → Forall keyed l → NoDup l.
Proof.
  intros Hw Hk. apply NoDup_alt. intros i j x Hi Hj.
  destruct (Forall_lookup_1 _ _ _ _ Hk Hi) as [k Ho].
  by apply (wk_inj l Hw i j x x k).
Qed.

Lemma sorted_keys_strict keyedItems i j a b :
  wfKeys keyedItems → Forall keyed keyedItems →
  Js.sort compareThread keyedItems !! i = Some a →
  Js.sort compareThread keyedItems !! j = Some b → (i < j)%nat →
  ∃ ka kb, order a = Some ka ∧ order b = Some kb ∧ Js.localeCompare ka kb = Lt.
Proof.
  intros Hw Hk Ha Hb Hlt.
  pose proof (sort_perm compareThread keyedItems) as Hperm.
  assert (a ∈ keyedItems ∧ b ∈ keyedItems) as [Hain Hbin].
  { split; rewrite <- Hperm; by eapply list_elem_of_lookup_2. }
  rewrite Forall_forall in Hk.
  destruct (Hk a Hain) as [ka Hka], (Hk b Hbin) as [kb Hkb].
  exists ka, kb. split_and!; [done..|].
  assert (StronglySorted (cle compareThread) (Js.sort compareThread keyedItems)) as Hs.
  { eapply sort_sorted; [apply compareThread_trans|apply compareThread_total|].
    by apply Forall_forall. }
  pose proof (strongly_sorted_lookup _ _ _ _ _ _ Hs Ha Hb Hlt) as Hab.
  unfold cle in Hab. rewrite (compareThread_keyed a b ka kb) in Hab by done.
  unfold Js.localeCompare.
  destruct (String.compare ka kb) eqn:E; [|done..]. exfalso.
  apply StrOrdFacts.compare_eq in E. subst kb.
  apply list_elem_of_lookup in Hain as [ia Hia]. apply list_elem_of_lookup in Hbin as [ib Hib].
  assert (ia = ib) by (by eapply (wk_inj keyedItems Hw ia ib a b ka)).
  assert (a = b) by congruence. subst b.
  assert (NoDup (Js.sort compareThread keyedItems)) as Hnd.
  { rewrite Hperm. apply wfKeys_NoDup; [done|]. by apply Forall_forall. }
  pose proof (NoDup_lookup _ i j a Hnd Ha Hb). lia.
Qed.

(** X11. With the default options, for a collection without keys on input
    in which no sibling group has more than 1296 members: in the result
    the keys strictly ascend along the array, so no two objects share a
    key. *)
Theorem fresh_keys_strictly_ascend items sorted :
  Forall (λ c, order c = None) items → groupsBounded items = true →
  sortThread defaults items = Done sorted →
  ∀ i j a b, sorted !! i = Some a → sorted !! j = Some b → (i < j)%nat →
    ∃ ka kb, order a = Some ka ∧ order b = Some kb ∧ Js.localeCompare ka kb = Lt.
Proof.
  intros Hno Hb (keyedItems & Hpass & ->)%sortThread_Done i j a b.
  assert (wfKeys items) as Hw.
  { apply wfKeys_unkeyed; [done|]. intros g. by apply groupsBounded_all. }
  destruct (keyPass_wfKeys items keyedItems Hw Hpass) as (Hw' & Hk & _).
  by apply sorted_keys_strict.
Qed.

Lemma fresh_keys_strictly_ascend_witness :
  Forall (λ c, order c = None) replyFirst ∧ groupsBounded replyFirst = true ∧
  sortThread defaults replyFirst = Done replyFirstSorted ∧
  ∃ ka kb, Some "00/00." = Some ka ∧ Some "01." = Some kb ∧ Js.localeCompare ka kb = Lt.
Proof.
  assert (Forall (λ c, order c = None) replyFirst) as Hno by (by repeat constructor).
  assert (groupsBounded replyFirst = true) as Hb by (by vm_compute).
  split_and!; [done..|].
  apply (fresh_keys_strictly_ascend replyFirst replyFirstSorted Hno Hb eq_refl 1%nat 2%nat
           (mkItem "c" (Some "r") (Some "00/00.")) (mkItem "s" None (Some "01.")));
    [reflexivity|reflexivity|lia].
Defined.

(** X12. With the default options, for a collection without keys on input
    in which no sibling group has more than 1296 members: every key of
    the result reads back. Stripping the marker, splitting at the
    delimiter and parsing each segment in radix 36, as the source does
    when it looks for the next number, gives numbers below 1296, and
    writing these numbers as line 89 does, joined by the delimiter and
    closed by the marker, gives the key again. *)
Theorem assigned_keys_read_back items sorted c :
  Forall (λ c, order c = None) items → groupsBounded items = true →
  sortThread defaults items = Done sorted → c ∈ sorted →
  ∃ k, order c = Some k ∧ decode k ≠ [] ∧ Forall Path.inRange (decode k) ∧
    Path.render (decode k) = k.
Proof.
  intros Hno Hb (keyedItems & Hpass & ->)%sortThread_Done Hc.
  assert (wfKeys items) as Hw.
  { apply wfKeys_unkeyed; [done|]. intros g. by apply groupsBounded_all. }
  destruct (keyPass_wfKeys items keyedItems Hw Hpass) as (Hw' & Hk & _).
  apply sort_elem_of in Hc. apply list_elem_of_lookup in Hc as [i Hi].
  destruct (wk_path keyedItems Hw' i c Hi) as [p [Ho Hp]]; [by eapply Forall_lookup_1|].
  exists (Path.render p). rewrite (decode_render p Hp).
  split_and!; [done|apply Hp|apply Hp|done].
Qed.

Lemma assigned_keys_read_back_witness :
  Forall (λ c, order c = None) replyFirst ∧ groupsBounded replyFirst = true ∧
  sortThread defaults replyFirst = Done replyFirstSorted ∧
  ∃ k, Some "00/00." = Some k ∧ decode k ≠ [] ∧ Forall Path.inRange (decode k) ∧
    Path.render (decode k) = k.
Proof.
  assert (Forall (λ c, order c = None) replyFirst) as Hno by (by repeat constructor).
  assert (groupsBounded replyFirst = true) as Hb by (by vm_compute).
  split_and!; [done..|].
  apply (assigned_keys_read_back replyFirst replyFirstSorted
           (mkItem "c" (Some "r") (Some "00/00.")) Hno Hb eq_refl).
  right. by left.
Defined.

(** *** Depth *)

Lemma path_length_depth items keyedItems f :
  laterItems items keyedItems → wfKeys keyedItems →
  ∀ ci c' p d, keyedItems !! ci = Some c' → hasPath c' p →
    rootDepth f items ci = Some d → length p = S d.
Proof.
  intros Hl Hw. induction f as [|f IH]; intros ci c' p d Hc' Hp; [done|].
  destruct (laterItems_lookup_r _ _ _ _ Hl Hc') as (c & Hc & Lc).
  simpl. rewrite Hc. simpl.
  rewrite <- (parentPos_later items keyedItems c c') by done.
  pose proof (wk_parent keyedItems Hw ci c' p Hc' Hp) as Hpar.
  destruct (parentPos keyedItems c') as [pi|].
  - destruct Hpar as (cp & pp & j & Hcp & Hpp & ->).
    intros (d' & Hd' & ->)%fmap_Some.
    rewrite length_app, (IH pi cp pp d') by done. simpl. lia.
  - destruct Hpar as [j ->]. by intros [= <-].
Qed.

Lemma splitChar_length_app d acc s t :
  Str.lacks d t = true →
  length (Str.splitChar d acc (s ++ t)) = length (Str.splitChar d acc s).
Proof.
  intros Ht. revert acc. induction s as [|c s IH]; intros acc.
  - simpl. by rewrite StrFacts.splitChar_lacks.
  - simpl. destruct (Ascii.eqb c d); simpl; by rewrite IH.
Qed.

Lemma split_render p :
  p ≠ [] → length (Js.split "/" (Path.render p)) = length p.
Proof.
  intros Hne. unfold Path.render.
  rewrite <- (length_map Num.seg p), <- (PathFacts.split_body p Hne).
  rewrite !StrFacts.split_single. by apply splitChar_length_app.
Qed.

Lemma formatDepth_path c p : hasPath c p → S (formatDepth c) = length p.
Proof.
  intros [Ho [Hne _]]. unfold formatDepth. rewrite Ho. cbn [from_option].
  rewrite split_render by done. destruct p; [done|]. simpl. lia.
Qed.

(** X13. With the default options, for a collection without keys on input
    in which no sibling group has more than 1296 members: an object that
    lies [d] resolving parent references below a root gets a key of
    [d + 1] segments, each the two-character segment of a number below
    1296, and [formatThread] indents it by [2 * d] spaces. *)
Theorem key_depth_is_tree_depth items sorted ci c d :
  Forall (λ c, order c = None) items → groupsBounded items = true →
  sortThread defaults items = Done sorted →
  items !! ci = Some c → rootDepth (S (length items)) items ci = Some d →
  ∃ c' p, c' ∈ sorted ∧ id c' = id c ∧ parent c' = parent c ∧
    order c' = Some (Path.render p) ∧ Forall Path.inRange p ∧ length p = S d ∧
    formatLine c' = spaces (2 * d) ++ " - item " ++ id c ++ " " ++ parentClause c.
Proof.
  intros Hno Hb (keyedItems & Hpass & ->)%sortThread_Done Hc Hd.
  assert (wfKeys items) as Hw.
  { apply wfKeys_unkeyed; [done|]. intros g. by apply groupsBounded_all. }
  destruct (keyPass_wfKeys items keyedItems Hw Hpass) as (Hw' & Hk & Hl).
  destruct (laterItems_lookup _ _ _ _ Hl Hc) as (c' & Hc' & Hid & Hpar & _).
  destruct (wk_path keyedItems Hw' ci c' Hc') as [p Hp]; [by eapply Forall_lookup_1|].
  pose proof (path_length_depth items keyedItems _ Hl Hw' ci c' p d Hc' Hp Hd) as Hlen.
  exists c', p. split_and!; [|done|done|apply Hp|apply Hp|done|].
  - apply sort_elem_of. by eapply list_elem_of_lookup_2.
  - pose proof (formatDepth_path c' p Hp) as Hfd.
    unfold formatLine, parentClause. rewrite Hid, Hpar, repeatStr_spaces.
    by replace (formatDepth c') with d by lia.
Qed.

Lemma key_depth_is_tree_depth_witness :
  Forall (λ c, order c = None) replyFirst ∧ groupsBounded replyFirst = true ∧
  sortThread defaults replyFirst = Done replyFirstSorted ∧
  rootDepth 4 replyFirst 0 = Some 1%nat ∧
  ∃ c' p, c' ∈ replyFirstSorted ∧ id c' = "c" ∧ parent c' = Some "r" ∧
    order c' = Some (Path.render p) ∧ Forall Path.inRange p ∧ length p = 2%nat ∧
    formatLine c' = "   - item c (parent r)".
Proof.
  assert (Forall (λ c, order c = None) replyFirst) as Hno by (by repeat constructor).
  assert (groupsBounded replyFirst = true) as Hb by (by vm_compute).
  split_and!; [done..|].
  exact (key_depth_is_tree_depth replyFirst replyFirstSorted 0 (mkItem "c" (Some "r") None) 1
           Hno Hb eq_refl eq_refl eq_refl).
Defined.

(** *** Sibling indices *)

Lemma filter_length_perm {A} (f : A → bool) l l' :
  l ≡ₚ l' → length (List.filter f l) = length (List.filter f l').
Proof.
  induction 1 as [|x l l' _ IH|x y l|l1 l2 l3 _ IH1 _ IH2]; simpl.
  - done.
  - destruct (f x); simpl; by rewrite IH.
  - by destruct (f x), (f y).
  - by rewrite IH1.
Qed.

Lemma keyedCount_perm l l' g : l ≡ₚ l' → keyedCount l' g = keyedCount l g.
Proof.
  intros Hperm. unfold keyedCount. rewrite (filter_length_perm _ l' l) by done.
  f_equal. apply filter_ext. intros x. unfold inGroup. by rewrite (groupOf_perm l l').
Qed.

Lemma groupSize_perm l l' g : l ≡ₚ l' → groupSize l' g = groupSize l g.
Proof.
  intros Hperm. unfold groupSize. rewrite (filter_length_perm _ l' l) by done.
  f_equal. apply filter_ext. intros x. unfold inGroup. by rewrite (groupOf_perm l l').
Qed.

(** X14. With the default options, for a collection without keys on
    input in which no sibling group has more than 1296 members: the
    sibling index of an object of the result, read from its key, is at
    least 0 and below the number of objects in its sibling group. *)
Theorem sibling_index_below_group_size items sorted c :
  Forall (λ c, order c = None) items → groupsBounded items = true →
  sortThread defaults items = Done sorted → c ∈ sorted →
  ∃ k, siblingIndex c = Some k ∧
    0 ≤ k < Z.of_nat (groupSize sorted (groupOf sorted c)).
Proof.
  intros Hno Hb (keyedItems & Hpass & ->)%sortThread_Done Hc.
  assert (wfKeys items) as Hw.
  { apply wfKeys_unkeyed; [done|]. intros g. by apply groupsBounded_all. }
  destruct (keyPass_wfKeys items keyedItems Hw Hpass) as (Hw' & Hk & _).
  pose proof (sort_perm compareThread keyedItems) as Hperm.
  apply sort_elem_of in Hc. apply list_elem_of_lookup in Hc as [i Hi].
  destruct (wk_path keyedItems Hw' i c Hi) as [p Hp]; [by eapply Forall_lookup_1|].
  destruct (snoc_cases p) as (q & k & ->); [apply Hp|].
  exists k. split_and!.
  - unfold siblingIndex. by rewrite (hasPath_pathOf c _ Hp), last_snoc.
  - destruct Hp as [_ Hwf]. apply PathFacts.wf_snoc_inv in Hwf as [_ Hr]. apply Hr.
  - rewrite (groupOf_perm keyedItems), (groupSize_perm keyedItems) by done.
    pose proof (wk_dense keyedItems Hw' i c q k Hi Hp).
    pose proof (keyedCount_le_size keyedItems (groupOf keyedItems c)). lia.
Qed.

Lemma sibling_index_below_group_size_witness :
  Forall (λ c, order c = None) replyFirst ∧ groupsBounded replyFirst = true ∧
  sortThread defaults replyFirst = Done replyFirstSorted ∧
  ∃ k, siblingIndex (mkItem "s" None (Some "01.")) = Some k ∧
    0 ≤ k < Z.of_nat (groupSize replyFirstSorted
                        (groupOf replyFirstSorted (mkItem "s" None (Some "01.")))).
Proof.
  assert (Forall (λ c, order c = None) replyFirst) as Hno by (by repeat constructor).
  assert (groupsBounded replyFirst = true) as Hb by (by vm_compute).
  split_and!; [done..|].
  apply (sibling_index_below_group_size replyFirst replyFirstSorted
           (mkItem "s" None (Some "01.")) Hno Hb eq_refl).
  right. right. by left.
Defined.

(** ** Collections in which parents come first *)

Lemma upFrom_parentsFirst items x j : parentsFirst items → upFrom items x j → (j ≤ x)%nat.
Proof.
  intros Hpf. induction 1 as [|ci c pi j Hc Hp _ IH]; [done|].
  specialize (Hpf ci c pi Hc Hp). lia.
Qed.

Lemma parentsFirst_acyclic items : parentsFirst items → acyclic items.
Proof.
  intros Hpf i c pi Hc Hp Hup. pose proof (Hpf i c pi Hc Hp).
  apply (upFrom_parentsFirst items pi i Hpf) in Hup. lia.
Qed.

Lemma earlier_sibling_smaller_key items keyedItems ia ib a b :
  Forall (λ c, order c = None) items → (∀ g, (groupSize items g ≤ 1296)%nat) →
  keyPass defaults items = Done keyedItems →
  items !! ia = Some a → items !! ib = Some b → (ia < ib)%nat →
  groupOf items a = groupOf items b →
  (∀ x, (x ≤ ia)%nat → ¬ upFrom items x ib) →
  ∃ a' b' ka kb,
    keyedItems !! ia = Some a' ∧ keyedItems !! ib = Some b' ∧
    laterItem a a' ∧ laterItem b b' ∧
    order a' = Some ka ∧ order b' = Some kb ∧ String.compare ka kb = Lt.
Proof.
  intros Hno Hsize Hpass Ha Hb Hlt Hg Hbefore.
  pose proof (lookup_lt_Some _ _ _ Hb) as Hlen.
  unfold keyPass in Hpass.
  replace (seq 0 (length items))
    with (seq 0 (S ia) ++ seq (S ia) (length items - S ia))%list in Hpass.
  2:{ rewrite <- seq_app. f_equal. lia. }
  rewrite populateAll_app in Hpass.
  destruct (populateAll defaults _ items (seq 0 (S ia))) as [mid| |] eqn:Hfirst; try done.
  pose proof (populateAll_later _ _ _ _ _ Hfirst) as Hl1.
  pose proof (populateAll_later _ _ _ _ _ Hpass) as Hl2.
  destruct (populateAll_wfKeys _ _ _ _ (wfKeys_unkeyed items Hno Hsize) Hfirst) as [Hw1 _].
  destruct (populateAll_wfKeys _ _ _ _ Hw1 Hpass) as [_ Hord].
  destruct (laterItems_lookup _ _ _ _ Hl1 Ha) as (a1 & Ha1 & La1).
  destruct (laterItems_lookup _ _ _ _ Hl1 Hb) as (b1 & Hb1 & Lb1).
  destruct (laterItems_lookup _ _ _ _ Hl2 Ha1) as (a2 & Ha2 & La2).
  destruct (laterItems_lookup _ _ _ _ Hl2 Hb1) as (b2 & Hb2 & Lb2).
  assert (keyed a1) as [ka Hka].
  { eapply (populateAll_keyed _ _ _ _ _ Hfirst ia); [|done]. apply elem_of_seq. lia. }
  assert (order b1 = None) as Hob1.
  { destruct (order b1) as [k|] eqn:E; [|done]. exfalso.
    destruct (populateAll_keys_chain _ _ _ _ _ Hfirst ib b b1) as (ci & Hci & Hup);
      [done|apply (Forall_lookup_1 _ _ _ _ Hno Hb)|done|by eexists|].
    apply elem_of_seq in Hci. apply (Hbefore ci); [lia|done]. }
  assert (keyed b2) as [kb Hkb].
  { eapply (populateAll_keyed _ _ _ _ _ Hpass ib); [|done]. apply elem_of_seq. lia. }
  exists a2, b2, ka, kb.
  assert (order a2 = Some ka) as Hka2 by (destruct La2 as (_ & _ & Hkeep); by apply Hkeep).
  split_and!; try done.
  - by eapply laterItem_trans.
  - by eapply laterItem_trans.
  - eapply (Hord ia a1 ib b1 b2); try done.
    by rewrite (groupOf_later items mid a a1), (groupOf_later items mid b b1).
Qed.

(** X15. With the default options, for a collection without keys on
    input in which every object comes after the object its parent
    reference resolves to, and no sibling group has more than 1296
    members: [sortThread] returns, and two objects of one sibling group
    (two roots, or two children of one parent) stand in the result in the
    order in which they stood in the input. *)
Theorem parents_first_keeps_sibling_order items ia ib a b :
  Forall (λ c, order c = None) items → groupsBounded items = true →
  parentsFirst items →
  items !! ia = Some a → items !! ib = Some b → (ia < ib)%nat →
  groupOf items a = groupOf items b →
  ∃ sorted ja jb ka kb,
    sortThread defaults items = Done sorted ∧ (ja < jb)%nat ∧
    sorted !! ja = Some {| id := id a; parent := parent a; order := Some ka |} ∧
    sorted !! jb = Some {| id := id b; parent := parent b; order := Some kb |}.
Proof.
  intros Hno Hbounded Hpf Ha Hb Hlt Hg.
  destruct (sortThread_returns defaults items (parentsFirst_acyclic items Hpf))
    as [sorted Hsorted].
  pose proof Hsorted as (keyedItems & Hpass & ->)%sortThread_Done.
  assert (∀ g, (groupSize items g ≤ 1296)%nat) as Hsize
    by (intros g; by apply groupsBounded_all).
  destruct (earlier_sibling_smaller_key items keyedItems ia ib a b)
    as (a' & b' & ka & kb & Ha' & Hb' & La & Lb & Hka & Hkb & Hcmp); [done..| |].
  { intros x Hx Hup. apply (upFrom_parentsFirst items x ib Hpf) in Hup. lia. }
  assert (a' = {| id := id a; parent := parent a; order := Some ka |}) as Ea.
  { destruct La as (? & ? & _). destruct a'; simpl in *; congruence. }
  assert (b' = {| id := id b; parent := parent b; order := Some kb |}) as Eb.
  { destruct Lb as (? & ? & _). destruct b'; simpl in *; congruence. }
  assert (a' ∈ Js.sort compareThread keyedItems) as [ja Hja]%list_elem_of_lookup.
  { apply sort_elem_of. by eapply list_elem_of_lookup_2. }
  assert (b' ∈ Js.sort compareThread keyedItems) as [jb Hjb]%list_elem_of_lookup.
  { apply sort_elem_of. by eapply list_elem_of_lookup_2. }
  exists (Js.sort compareThread keyedItems), ja, jb, ka, kb.
  split_and!; [done| |by rewrite <- Ea|by rewrite <- Eb].
  destruct (decide (ja < jb)%nat) as [|Hge]; [done|]. exfalso.
  destruct (decide (ja = jb)) as [->|Hne].
  - assert (ka = kb) as <- by congruence.
    by rewrite StrOrdFacts.compare_refl in Hcmp.
  - assert (compareThread b' a' ≠ Gt) as Hba.
    { apply (result_ascends_by_comparison defaults items _ Hsorted jb ja b' a');
        [done|done|lia]. }
    rewrite (compareThread_keyed b' a' kb ka) in Hba by done.
    apply Hba. by apply StrOrdFacts.compare_gt_lt.
Qed.

Lemma commentFirst_parentsFirst : parentsFirst commentFirst.
Proof.
  intros i c pi Hc Hp. destruct i as [|[|[|i]]]; [| | |done].
  - injection Hc as <-. vm_compute in Hp. discriminate.
  - injection Hc as <-. vm_compute in Hp. injection Hp as <-. lia.
  - injection Hc as <-. vm_compute in Hp. discriminate.
Qed.

Lemma parents_first_keeps_sibling_order_witness :
  Forall (λ c, order c = None) commentFirst ∧ groupsBounded commentFirst = true ∧
  parentsFirst commentFirst ∧
  ∃ sorted ja jb ka kb,
    sortThread defaults commentFirst = Done sorted ∧ (ja < jb)%nat ∧
    sorted !! ja = Some (mkItem "r" None (Some ka)) ∧
    sorted !! jb = Some (mkItem "s" None (Some kb)).
Proof.
  assert (Forall (λ c, order c = None) commentFirst) as Hno by (by repeat constructor).
  assert (groupsBounded commentFirst = true) as Hb by (by vm_compute).
  assert (0 < 2)%nat as Hlt by lia.
  split_and!; [done|done|apply commentFirst_parentsFirst|].
  exact (parents_first_keeps_sibling_order commentFirst 0 2
           (mkItem "r" None None) (mkItem "s" None None)
           Hno Hb commentFirst_parentsFirst eq_refl eq_refl Hlt eq_refl).
Defined.

(** *** The index of an object is the number of its earlier siblings *)

Lemma filter_length_Forall2 {A B} (R : A → B → Prop) (f : A → bool) (g : B → bool) l l' :
  Forall2 R l l' → (∀ x y, R x y → f x = g y) →
  length (List.filter f l) = length (List.filter g l').
Proof.
  intros H Hfg. induction H as [|x y l l' Hxy _ IH]; [done|].
  simpl. rewrite (Hfg x y Hxy). destruct (g y); simpl; by rewrite IH.
Qed.

Lemma filter_take_S {A} (f : A → bool) l i x :
  l !! i = Some x →
  List.filter f (take (S i) l) =
    (List.filter f (take i l) ++ (if f x then [x] else []))%list.
Proof.
  intros Hx. rewrite (take_S_r l i x Hx), List.filter_app. simpl. by destruct (f x).
Qed.

(** The last object before position [i] that satisfies [f]. *)
Lemma filter_take_previous {A} (f : A → bool) l i m :
  length (List.filter f (take i l)) = S m →
  ∃ i' x, (i' < i)%nat ∧ l !! i' = Some x ∧ f x = true ∧
    length (List.filter f (take i' l)) = m.
Proof.
  induction i as [|i IH]; [done|].
  destruct (l !! i) as [x|] eqn:Hx.
  - rewrite (filter_take_S f l i x Hx), length_app.
    destruct (f x) eqn:Hf; simpl.
    + intros Hlen. exists i, x. split_and!; [lia|done|done|lia].
    + rewrite Nat.add_0_r. intros (i' & y & ? & ? & ? & ?)%IH.
      exists i', y. split_and!; [lia|done..].
  - apply lookup_ge_None in Hx. rewrite !take_ge by lia.
    rewrite <- (take_ge l i) at 1 by lia.
    intros (i' & y & ? & ? & ? & ?)%IH. exists i', y. split_and!; [lia|done..].
Qed.

Lemma filter_keyed_none (f : Item → bool) new :
  Forall (λ c, order c = None) new → List.filter (λ c, f c && isKeyed c) new = [].
Proof.
  induction 1 as [|x new' Hx _ IH]; [done|].
  simpl. unfold isKeyed at 1. by rewrite Hx, andb_false_r.
Qed.

Section ParentsFirst.

Context (items keyedItems : list Item).

Hypothesis Hids : NoDup (map id items).

Hypothesis Hno : Forall (λ c, order c = None) items.

Hypothesis Hsize : ∀ g, (groupSize items g ≤ 1296)%nat.

Hypothesis Hpf : parentsFirst items.

Hypothesis Hpass : keyPass defaults items = Done keyedItems.

Lemma pass_wfKeys : wfKeys keyedItems ∧ Forall keyed keyedItems ∧ laterItems items keyedItems.
Proof. apply keyPass_wfKeys; [by apply wfKeys_unkeyed|done]. Qed.

(** The key of the object at [i] ends with an index. *)
Lemma pass_index i c :
  items !! i = Some c →
  ∃ c' q k, keyedItems !! i = Some c' ∧ laterItem c c' ∧ hasPath c' (q ++ [k]) ∧ 0 ≤ k.
Proof.
  intros Hc. destruct pass_wfKeys as (Hw & Hk & Hl).
  destruct (laterItems_lookup _ _ _ _ Hl Hc) as (c' & Hc' & Lc).
  destruct (wk_path keyedItems Hw i c' Hc') as [p Hp]; [by eapply Forall_lookup_1|].
  destruct (snoc_cases p) as (q & k & ->); [apply Hp|].
  exists c', q, k. split_and!; [done..|].
  destruct Hp as [_ Hwf]. apply PathFacts.wf_snoc_inv in Hwf as [_ Hr]. apply Hr.
Qed.

(** Of two siblings the one that comes first has the smaller index. *)
Lemma pass_index_order ia ib a b a' b' qa qb ka kb :
  items !! ia = Some a → items !! ib = Some b → (ia < ib)%nat →
  groupOf items a = groupOf items b →
  keyedItems !! ia = Some a' → keyedItems !! ib = Some b' →
  hasPath a' (qa ++ [ka]) → hasPath b' (qb ++ [kb]) → ka < kb.
Proof.
  intros Ha Hb Hlt Hg Ha' Hb' Hpa Hpb. destruct pass_wfKeys as (Hw & Hk & Hl).
  destruct (earlier_sibling_smaller_key items keyedItems ia ib a b)
    as (a2 & b2 & sa & sb & Ha2 & Hb2 & La & Lb & Hsa & Hsb & Hcmp); [done..| |].
  { intros x Hx Hup. apply (upFrom_parentsFirst items x ib Hpf) in Hup. lia. }
  assert (a2 = a') as -> by congruence. assert (b2 = b') as -> by congruence.
  assert (NoDup (map id keyedItems)) as Hids' by (by rewrite (laterItems_ids items keyedItems)).
  assert (∃ pq ka' kb', (qa ++ [ka] = pq ++ [ka'] ∧ qb ++ [kb] = pq ++ [kb'])%list)
    as (pq & ka' & kb' & Ea & Eb).
  { apply (siblings_share_prefix keyedItems a' b' _ _ Hids'
             (treeKeys_of_wfKeys keyedItems Hids' Hk Hw)); [| | |done|done].
    - by eapply list_elem_of_lookup_2.
    - by eapply list_elem_of_lookup_2.
    - unfold siblingsIn.
      by rewrite (groupOf_later items keyedItems a a'), (groupOf_later items keyedItems b b'). }
  apply app_inj_tail in Ea as [-> <-]. apply app_inj_tail in Eb as [-> <-].
  destruct Hpa as [Hoa Hwa], Hpb as [Hob Hwb].
  rewrite Hoa in Hsa. injection Hsa as <-. rewrite Hob in Hsb. injection Hsb as <-.
  rewrite PathFacts.compare_render, PathFacts.lexCompare_snoc in Hcmp by done.
  by apply Z.compare_lt_iff.
Qed.

Lemma pass_index_at_least i :
  ∀ c c' q k, items !! i = Some c → keyedItems !! i = Some c' → hasPath c' (q ++ [k]) →
    Z.of_nat (earlierSiblings items i c) ≤ k.
Proof.
  induction i as [i IH] using lt_wf_ind. intros c c' q k Hc Hc' Hp.
  unfold earlierSiblings.
  destruct (length (List.filter _ (take i items))) as [|m] eqn:Hm.
  - destruct (pass_index i c Hc) as (c2 & q2 & k2 & Hc2 & _ & Hp2 & Hk2).
    assert (c2 = c') as -> by congruence.
    pose proof (hasPath_unique c' _ _ Hp Hp2) as E. apply app_inj_tail in E as [_ ->]. lia.
  - destruct (filter_take_previous _ items i m Hm) as (i' & x & Hlt & Hx & Hg & Hm').
    unfold inGroup in Hg. apply strictEq_true in Hg.
    destruct (pass_index i' x Hx) as (x' & qx & kx & Hx' & _ & Hpx & _).
    pose proof (IH i' Hlt x x' qx kx Hx Hx' Hpx) as Hprev.
    unfold earlierSiblings in Hprev. rewrite Hg, Hm' in Hprev.
    pose proof (pass_index_order i' i x c x' c' qx q kx k Hx Hc Hlt Hg Hx' Hc' Hpx Hp). lia.
Qed.

Lemma pass_index_at_most i c c' q k :
  items !! i = Some c → keyedItems !! i = Some c' → hasPath c' (q ++ [k]) →
  k ≤ Z.of_nat (earlierSiblings items i c).
Proof.
  intros Hc Hc' Hp. pose proof (lookup_lt_Some _ _ _ Hc) as Hlen.
  pose proof Hpass as Hsplit. unfold keyPass in Hsplit.
  replace (seq 0 (length items))
    with (seq 0 (S i) ++ seq (S i) (length items - S i))%list in Hsplit.
  2:{ rewrite <- seq_app. f_equal. lia. }
  rewrite populateAll_app in Hsplit.
  destruct (populateAll defaults _ items (seq 0 (S i))) as [mid| |] eqn:Hfirst; try done.
  pose proof (populateAll_later _ _ _ _ _ Hfirst) as Hl1.
  pose proof (populateAll_later _ _ _ _ _ Hsplit) as Hl2.
  destruct (populateAll_wfKeys _ _ _ _ (wfKeys_unkeyed items Hno Hsize) Hfirst) as [Hw1 _].
  destruct (laterItems_lookup _ _ _ _ Hl1 Hc) as (c1 & Hc1 & Lc1).
  destruct (laterItems_lookup _ _ _ _ Hl2 Hc1) as (c2 & Hc2 & Lc2).
  assert (c2 = c') as -> by congruence.
  assert (hasPath c1 (q ++ [k])) as Hp1.
  { assert (keyed c1) as [k1 Hk1].
    { eapply (populateAll_keyed _ _ _ _ _ Hfirst i); [|done]. apply elem_of_seq. lia. }
    destruct Lc2 as (_ & _ & Hkeep). destruct Hp as [Ho Hwf]. split; [|done].
    rewrite (Hkeep k1 Hk1) in Ho. congruence. }
  pose proof (wk_dense mid Hw1 i c1 q k Hc1 Hp1) as Hdense.
  rewrite (groupOf_later items mid c c1) in Hdense by done.
  set (g := groupOf items c) in *.
  assert (keyedCount mid g ≤ S (earlierSiblings items i c))%nat; [|lia].
  unfold keyedCount, earlierSiblings. fold g.
  rewrite <- (take_drop (S i) mid), List.filter_app, length_app.
  rewrite (filter_keyed_none (inGroup (take (S i) mid ++ drop (S i) mid) g) (drop (S i) mid)).
  2:{ apply Forall_forall. intros x [j Hj]%list_elem_of_lookup.
    rewrite lookup_drop in Hj. destruct (order x) as [kx|] eqn:Hox; [|done]. exfalso.
    destruct (laterItems_lookup_r _ _ _ _ Hl1 Hj) as (x0 & Hx0 & _).
    destruct (populateAll_keys_chain _ _ _ _ _ Hfirst (S i + j)%nat x0 x) as (ci & Hci & Hup);
      [done|apply (Forall_lookup_1 _ _ _ _ Hno Hx0)|done|by eexists|].
    apply elem_of_seq in Hci. apply (upFrom_parentsFirst items ci _ Hpf) in Hup. lia. }
  rewrite (take_drop (S i) mid). simpl. rewrite Nat.add_0_r.
  etrans; [apply filter_length_le|].
  rewrite <- (filter_length_Forall2 laterItem (inGroup items g) (inGroup mid g)
                (take (S i) items) (take (S i) mid)).
  - rewrite (filter_take_S _ items i c Hc), length_app.
    unfold inGroup at 2. fold g. rewrite strictEq_refl. simpl. lia.
  - by apply Forall2_take.
  - intros x y Hxy. unfold inGroup. by rewrite (groupOf_later items mid x y).
Qed.

End ParentsFirst.

(** X16. With the default options, for a collection with unique ids and
    without keys on input in which every object comes after the object
    its parent reference resolves to, and no sibling group has more than
    1296 members: the sibling index of an object, read from its key in
    the result, is the number of objects of its sibling group that come
    before it in the input. *)
Theorem parents_first_numbers_siblings items sorted i c :
  NoDup (map id items) → Forall (λ c, order c = None) items →
  groupsBounded items = true → parentsFirst items →
  sortThread defaults items = Done sorted → items !! i = Some c →
  ∃ c', c' ∈ sorted ∧ id c' = id c ∧ parent c' = parent c ∧
    siblingIndex c' = Some (Z.of_nat (earlierSiblings items i c)).
Proof.
  intros Hids Hno Hb Hpf (keyedItems & Hpass & ->)%sortThread_Done Hc.
  assert (∀ g, (groupSize items g ≤ 1296)%nat) as Hsize
    by (intros g; by apply groupsBounded_all).
  destruct (pass_index items keyedItems Hno Hsize Hpass i c Hc)
    as (c' & q & k & Hc' & (Hid & Hpar & _) & Hp & _).
  exists c'. split_and!; [|done|done|].
  - apply sort_elem_of. by eapply list_elem_of_lookup_2.
  - unfold siblingIndex. rewrite (hasPath_pathOf c' _ Hp), last_snoc. f_equal.
    pose proof (pass_index_at_least items keyedItems Hids Hno Hsize Hpf Hpass
                  i c c' q k Hc Hc' Hp).
    pose proof (pass_index_at_most items keyedItems Hno Hsize Hpf Hpass
                  i c c' q k Hc Hc' Hp).
    lia.
Qed.

Lemma parents_first_numbers_siblings_witness :
  NoDup (map id commentFirst) ∧ Forall (λ c, order c = None) commentFirst ∧
  groupsBounded commentFirst = true ∧ parentsFirst commentFirst ∧
  sortThread defaults commentFirst = Done replyFirstSorted ∧
  ∃ c', c' ∈ replyFirstSorted ∧ id c' = "s" ∧ parent c' = None ∧
    siblingIndex c' = Some 1.
Proof.
  assert (NoDup (map id commentFirst)) as Hids.
  { apply NoDup_ListNoDup. repeat constructor; simpl; intuition discriminate. }
  assert (Forall (λ c, order c = None) commentFirst) as Hno by (by repeat constructor).
  assert (groupsBounded commentFirst = true) as Hb by (by vm_compute).
  split_and!; [done|done|done|apply commentFirst_parentsFirst|reflexivity|].
  exact (parents_first_numbers_siblings commentFirst replyFirstSorted 2
           (mkItem "s" None None) Hids Hno Hb commentFirst_parentsFirst eq_refl eq_refl).
Defined.

(** ** Keys kept from one call to the next *)

Lemma parentPos_perm l l' c :
  NoDup (map id l) → l ≡ₚ l' →
  match parentPos l c, parentPos l' c with
  | None, None => True
  | Some pi, Some pi' => ∃ q, l !! pi = Some q ∧ l' !! pi' = Some q
  | _, _ => False
  end.
Proof.
  intros Hnd Hperm.
  destruct (parentPos l c) as [pi|] eqn:Hp.
  - destruct (parentPos_lookup _ _ _ Hp) as (q & Hq & Hpar).
    assert (q ∈ l') as Hq' by (rewrite <- Hperm; by eapply list_elem_of_lookup_2).
    destruct (parentPos_resolves l' c q Hq' Hpar) as (pi' & q' & -> & Hpi' & Hid).
    exists q. split; [done|].
    assert (q' ∈ l) as [j Hj]%list_elem_of_lookup
      by (rewrite Hperm; by eapply list_elem_of_lookup_2).
    assert (j = pi) by (by apply (unique_id_lookup l j pi q' q)). congruence.
  - assert (parentPos l' c = None) as ->; [|done].
    apply parentPos_None_iff. intros q Hq. rewrite <- Hperm in Hq.
    by apply (proj1 (parentPos_None_iff l c) Hp).
Qed.

Lemma wfKeys_perm l l' : NoDup (map id l) → l ≡ₚ l' → wfKeys l → wfKeys l'.
Proof.
  intros Hnd Hperm Hw.
  assert (∀ i c, l' !! i = Some c → ∃ i0, l !! i0 = Some c) as Hback.
  { intros i c Hc. apply list_elem_of_lookup. rewrite Hperm. by eapply list_elem_of_lookup_2. }
  assert (∀ i c, l !! i = Some c → ∃ i', l' !! i' = Some c) as Hforth.
  { intros i c Hc. apply list_elem_of_lookup. rewrite <- Hperm. by eapply list_elem_of_lookup_2. }
  assert (NoDup l') as Hnd'.
  { rewrite <- Hperm. by apply NoDup_of_ids. }
  split.
  - intros i c Hc Hk. destruct (Hback i c Hc) as [i0 Hc0]. by apply (wk_path l Hw i0 c).
  - intros i c p Hc Hp. destruct (Hback i c Hc) as [i0 Hc0].
    pose proof (wk_parent l Hw i0 c p Hc0 Hp) as Hpar.
    pose proof (parentPos_perm l l' c Hnd Hperm) as Hpos.
    destruct (parentPos l c) as [pi|], (parentPos l' c) as [pi'|]; try done.
    destruct Hpos as (q & Hq & Hq'). destruct Hpar as (cp & pp & j & Hcp & Hpp & ->).
    exists cp, pp, j. split_and!; [congruence|done..].
  - intros i i' c c' k Hc Hc' Ho Ho'.
    destruct (Hback i c Hc) as [i0 Hc0], (Hback i' c' Hc') as [i0' Hc0'].
    assert (i0 = i0') by (by apply (wk_inj l Hw i0 i0' c c' k)).
    assert (c = c') by congruence. subst c'.
    by apply (NoDup_lookup l' i i' c).
  - intros i c p Hc Hp. destruct (Hback i c Hc) as [i0 Hc0].
    destruct (wk_root l Hw i0 c p Hc0 Hp) as (r & cr & Hr & Hpos & Hpr).
    destruct (Hforth r cr Hr) as [r' Hr']. exists r', cr. split_and!; [done| |done].
    pose proof (parentPos_perm l l' cr Hnd Hperm) as H. rewrite Hpos in H.
    by destruct (parentPos l' cr).
  - intros i c p j Hc Hp. destruct (Hback i c Hc) as [i0 Hc0].
    rewrite (keyedCount_perm l l'), (groupOf_perm l l') by done.
    by apply (wk_dense l Hw i0 c p j).
  - intros g. rewrite (groupSize_perm l l') by done. apply (wk_size l Hw).
Qed.

(** X17. With the default options: when the keys that a collection with
    unique ids and acyclic parent references carries are consistent with
    its tree, [sortThread] returns, the result is in preorder, its keys
    are consistent with the tree again, and every key given on input is
    kept. *)
Theorem consistent_keys_are_kept_consistent items :
  NoDup (map id items) → acyclic items → wfKeys items →
  ∃ sorted, sortThread defaults items = Done sorted ∧
    preorder sorted ∧ wfKeys sorted ∧ NoDup (map id sorted) ∧
    ∀ c, c ∈ items → keyed c → c ∈ sorted.
Proof.
  intros Hnd Hac Hw.
  destruct (sortThread_returns defaults items Hac) as [sorted Hs].
  exists sorted. split; [done|].
  apply sortThread_Done in Hs as (keyedItems & Hpass & ->).
  destruct (keyPass_wfKeys items keyedItems Hw Hpass) as (Hw' & Hk & Hl).
  assert (NoDup (map id keyedItems)) as Hnd' by (by rewrite (laterItems_ids items keyedItems)).
  pose proof (sort_perm compareThread keyedItems) as Hperm.
  split_and!.
  - by apply sorted_preorder.
  - by apply (wfKeys_perm keyedItems).
  - change (NoDup (id <$> Js.sort compareThread keyedItems)). by rewrite Hperm.
  - intros c (i & Hi)%list_elem_of_lookup_1 Hkc.
    destruct (laterItems_lookup _ _ _ _ Hl Hi) as (c' & Hc' & Lc).
    apply sort_elem_of. rewrite <- (laterItem_kept c c' Lc Hkc).
    by eapply list_elem_of_lookup_2.
Qed.

Lemma acyclic_later l1 l2 : laterItems l1 l2 → acyclic l1 → acyclic l2.
Proof.
  intros Hl Hac i c' pi Hc' Hp Hup.
  destruct (laterItems_lookup_r _ _ _ _ Hl Hc') as (c & Hc & Lc).
  apply (Hac i c pi Hc).
  - by rewrite <- (parentPos_later l1 l2 c c').
  - by apply (upFrom_later l1 l2).
Qed.

Lemma halfKeyed_pass : populateAll defaults 4 replyFirst [0%nat] = Done halfKeyed.
Proof. reflexivity. Qed.

Lemma halfKeyed_wfKeys : wfKeys halfKeyed.
Proof.
  refine (proj1 (populateAll_wfKeys 4 replyFirst [0%nat] halfKeyed _ halfKeyed_pass)).
  apply wfKeys_unkeyed; [by repeat constructor|].
  intros g. apply groupsBounded_all. by vm_compute.
Qed.

Lemma consistent_keys_are_kept_consistent_witness :
  NoDup (map id halfKeyed) ∧ acyclic halfKeyed ∧ wfKeys halfKeyed ∧
  ∃ sorted, sortThread defaults halfKeyed = Done sorted ∧
    preorder sorted ∧ wfKeys sorted ∧ NoDup (map id sorted) ∧
    ∀ c, c ∈ halfKeyed → keyed c → c ∈ sorted.
Proof.
  assert (acyclic halfKeyed) as Hac.
  { apply (acyclic_later replyFirst); [|apply replyFirst_acyclic].
    apply (populateAll_later defaults 4 replyFirst [0%nat]), halfKeyed_pass. }
  split_and!; [apply replyFirst_ids|exact Hac|apply halfKeyed_wfKeys|].
  exact (consistent_keys_are_kept_consistent halfKeyed replyFirst_ids Hac halfKeyed_wfKeys).
Defined.

(** *** Objects added after a call *)

Lemma parentPos_app_l l new c pi :
  parentPos l c = Some pi → parentPos (l ++ new)%list c = Some pi.
Proof.
  unfold parentPos, Js.find. intros ([pi' q] & Hf & ->)%fmap_Some.
  by rewrite (list_find_app_l _ l new pi' q Hf).
Qed.

Section Appended.

Context (l new : list Item).

Hypothesis Hnew : Forall (λ c, order c = None) new.

Hypothesis Hout : ∀ c n, c ∈ l → n ∈ new → parent c ≠ Some (id n).

Lemma parentPos_app_None c :
  c ∈ l → parentPos l c = None → parentPos (l ++ new)%list c = None.
Proof.
  intros Hc Hp. apply parentPos_None_iff. intros q [Hq|Hq]%elem_of_app.
  - by apply (proj1 (parentPos_None_iff l c) Hp).
  - by apply Hout.
Qed.

Lemma parentPos_app c : c ∈ l → parentPos (l ++ new)%list c = parentPos l c.
Proof.
  intros Hc. destruct (parentPos l c) as [pi|] eqn:Hp.
  - by apply parentPos_app_l.
  - by apply parentPos_app_None.
Qed.

Lemma groupOf_app c : c ∈ l → groupOf (l ++ new)%list c = groupOf l c.
Proof.
  intros Hc. unfold groupOf.
  assert (isRoot (l ++ new)%list c = isRoot l c) as ->; [|done].
  apply eq_true_iff_eq. by rewrite !isRoot_parentPos, parentPos_app.
Qed.

Lemma keyedCount_app g : keyedCount (l ++ new)%list g = keyedCount l g.
Proof.
  unfold keyedCount. rewrite List.filter_app, length_app.
  rewrite (filter_keyed_none (inGroup (l ++ new)%list g) new Hnew).
  simpl. rewrite Nat.add_0_r. f_equal. apply filter_ext_in.
  intros x Hx%list_elem_of_In. unfold inGroup. by rewrite groupOf_app.
Qed.

Lemma wfKeys_app :
  (∀ g, (groupSize (l ++ new)%list g ≤ 1296)%nat) → wfKeys l → wfKeys (l ++ new)%list.
Proof.
  intros Hsize Hw.
  assert (∀ i c, (l ++ new)%list !! i = Some c → keyed c → l !! i = Some c) as Hold.
  { intros i c Hc [k Hk]. apply lookup_app_Some in Hc as [Hc|[_ Hc]]; [done|].
    rewrite Forall_forall in Hnew. rewrite (Hnew c) in Hk; [done|].
    by eapply list_elem_of_lookup_2. }
  split.
  - intros i c Hc Hk. apply (wk_path l Hw i c); [by apply Hold|done].
  - intros i c p Hc Hp.
    assert (l !! i = Some c) as Hc0 by (by apply Hold; [|eapply hasPath_keyed]).
    rewrite parentPos_app by (by eapply list_elem_of_lookup_2).
    pose proof (wk_parent l Hw i c p Hc0 Hp) as Hpar.
    destruct (parentPos l c) as [pi|]; [|done].
    destruct Hpar as (cp & pp & j & Hcp & Hpp & ->).
    exists cp, pp, j. split_and!; [|done..]. by apply lookup_app_l_Some.
  - intros i i' c c' k Hc Hc' Ho Ho'.
    apply (wk_inj l Hw i i' c c' k); [|  |done|done].
    + apply Hold; [done|by exists k].
    + apply Hold; [done|by exists k].
  - intros i c p Hc Hp.
    assert (l !! i = Some c) as Hc0 by (by apply Hold; [|eapply hasPath_keyed]).
    destruct (wk_root l Hw i c p Hc0 Hp) as (r & cr & Hr & Hpos & Hpr).
    exists r, cr. split_and!; [by apply lookup_app_l_Some| |done].
    apply parentPos_app_None; [by eapply list_elem_of_lookup_2|done].
  - intros i c p j Hc Hp.
    assert (l !! i = Some c) as Hc0 by (by apply Hold; [|eapply hasPath_keyed]).
    rewrite keyedCount_app, groupOf_app by (by eapply list_elem_of_lookup_2).
    by apply (wk_dense l Hw i c p j).
  - done.
Qed.

End Appended.

(** X18. With the default options. Let [sorted] be the result of
    [sortThread] on a collection without keys on input in which no
    sibling group has more than 1296 members, and let [new] be objects
    without keys. When the ids of [sorted] and [new] together are unique
    and their parent references acyclic, no sibling group of the two
    together has more than 1296 members, and no object of [sorted] names
    an object of [new] as its parent, then [sortThread] on [sorted]
    followed by [new] returns a result in preorder in which the objects
    of [sorted] stand with the keys they had. *)
Theorem added_objects_are_threaded items sorted new :
  Forall (λ c, order c = None) items → groupsBounded items = true →
  sortThread defaults items = Done sorted →
  Forall (λ c, order c = None) new →
  NoDup (map id (sorted ++ new)%list) → acyclic (sorted ++ new)%list →
  groupsBounded (sorted ++ new)%list = true →
  (∀ c n, c ∈ sorted → n ∈ new → parent c ≠ Some (id n)) →
  ∃ again, sortThread defaults (sorted ++ new)%list = Done again ∧
    preorder again ∧ ∀ c, c ∈ sorted → c ∈ again.
Proof.
  intros Hno Hb Hs Hnew Hnd Hac Hb2 Hout.
  pose proof Hs as [Hk _]%sortThread_sorted.
  apply sortThread_Done in Hs as (keyedItems & Hpass & ->).
  pose proof (sort_perm compareThread keyedItems) as Hperm.
  assert (wfKeys items) as Hw0.
  { apply wfKeys_unkeyed; [done|]. intros g. by apply groupsBounded_all. }
  destruct (keyPass_wfKeys items keyedItems Hw0 Hpass) as (Hw1 & _ & _).
  assert (NoDup (map id keyedItems)) as Hnd1.
  { change (NoDup (id <$> keyedItems)). rewrite <- Hperm.
    rewrite map_app in Hnd. by apply NoDup_app in Hnd as [? _]. }
  assert (wfKeys (Js.sort compareThread keyedItems ++ new)%list) as Hw.
  { apply wfKeys_app; [done|done| |by apply (wfKeys_perm keyedItems)].
    intros g. by apply groupsBounded_all. }
  destruct (sortThread_returns defaults _ Hac) as [again Hagain].
  exists again. split; [done|].
  pose proof Hagain as (keyedAgain & Hpass2 & ->)%sortThread_Done.
  destruct (keyPass_wfKeys _ keyedAgain Hw Hpass2) as (Hw' & Hk' & Hl').
  split.
  - apply sorted_preorder; [|done..]. by rewrite (laterItems_ids _ keyedAgain Hl').
  - intros c Hc. rewrite Forall_forall in Hk.
    assert (c ∈ (Js.sort compareThread keyedItems ++ new)%list) as (i & Hi)%list_elem_of_lookup_1
      by (apply elem_of_app; by left).
    destruct (laterItems_lookup _ _ _ _ Hl' Hi) as (c' & Hc' & Lc).
    apply sort_elem_of. rewrite <- (laterItem_kept c c' Lc (Hk c Hc)).
    by eapply list_elem_of_lookup_2.
Qed.

Lemma added_objects_are_threaded_witness :
  Forall (λ c, order c = None) replyFirst ∧ groupsBounded replyFirst = true ∧
  sortThread defaults replyFirst = Done replyFirstSorted ∧
  Forall (λ c, order c = None) laterReplies ∧
  NoDup (map id (replyFirstSorted ++ laterReplies)%list) ∧
  acyclic (replyFirstSorted ++ laterReplies)%list ∧
  groupsBounded (replyFirstSorted ++ laterReplies)%list = true ∧
  (∀ c n, c ∈ replyFirstSorted → n ∈ laterReplies → parent c ≠ Some (id n)) ∧
  ∃ again, sortThread defaults (replyFirstSorted ++ laterReplies)%list = Done again ∧
    preorder again ∧ ∀ c, c ∈ replyFirstSorted → c ∈ again.
Proof.
  assert (Forall (λ c, order c = None) replyFirst) as Hno by (by repeat constructor).
  assert (groupsBounded replyFirst = true) as Hb by (by vm_compute).
  assert (Forall (λ c, order c = None) laterReplies) as Hnew by (by repeat constructor).
  assert (NoDup (map id (replyFirstSorted ++ laterReplies)%list)) as Hnd.
  { apply NoDup_ListNoDup. repeat constructor; simpl; intuition discriminate. }
  assert (acyclic (replyFirstSorted ++ laterReplies)%list) as Hac.
  { apply parentsFirst_acyclic. intros i c pi Hc Hp.
    destruct i as [|[|[|[|[|i]]]]]; [| | | | |done];
      injection Hc as <-; vm_compute in Hp; try discriminate;
      injection Hp as <-; lia. }
  assert (groupsBounded (replyFirstSorted ++ laterReplies)%list = true) as Hb2
    by (by vm_compute).
  assert (∀ c n, c ∈ replyFirstSorted → n ∈ laterReplies → parent c ≠ Some (id n)) as Hout.
  { intros c n Hc Hn. unfold replyFirstSorted in Hc. unfold laterReplies in Hn.
    repeat (apply elem_of_cons in Hc as [->|Hc]);
      repeat (apply elem_of_cons in Hn as [->|Hn]);
      try discriminate; by apply elem_of_nil in Hc || by apply elem_of_nil in Hn. }
  split_and!; [done..|].
  exact (added_objects_are_threaded replyFirst replyFirstSorted laterReplies
           Hno Hb eq_refl Hnew Hnd Hac Hb2 Hout).
Defined.

(** ** Options other than the defaults *)

Lemma built_child_key opt items sorted c0 c p :
  NoDup (map id items) → sortThread opt items = Done sorted →
  c0 ∈ items → order c0 = None → c ∈ sorted → id c = id c0 →
  p ∈ sorted → parent c = Some (id p) →
  ∃ kp n, order p = Some kp ∧
    order c = Some (newThread opt (Js.toStr (stripEor opt (Some kp)) ++ delimiter opt) n).
Proof.
  intros Hnd (keyedItems & Hpass & ->)%sortThread_Done Hc0 Ho0 Hc Hid Hp Hpar.
  pose proof (keyPass_later _ _ _ Hpass) as Hl.
  pose proof (populateAll_childKeysBuilt _ _ _ _ _ Hpass) as Hbuilt.
  apply sort_elem_of in Hc, Hp.
  apply list_elem_of_lookup in Hc0 as [j0 Hj0]. apply list_elem_of_lookup in Hc as [j Hj].
  destruct (laterItems_lookup_r _ _ _ _ Hl Hj) as (cj & Hcj & Lcj).
  assert (j = j0) as ->.
  { apply (unique_id_lookup items j j0 cj c0); [done..|]. destruct Lcj as (?&_). congruence. }
  assert (cj = c0) as -> by congruence.
  destruct (parentPos_resolves keyedItems c p Hp Hpar) as (pi & p' & Hpos & Hp' & Hidp).
  assert (p' = p) as ->.
  { apply list_elem_of_lookup in Hp as [pj Hpj].
    assert (pi = pj); [|congruence].
    apply (unique_id_lookup keyedItems pi pj p' p); [|done..].
    by rewrite (laterItems_ids items keyedItems). }
  destruct (Hbuilt j0 c0 c pi) as (p'' & kp & n & Hp'' & Hkp & Hkc); [done..| |done|].
  { apply (Forall_lookup_1 _ _ _ _ (keyPass_all_keyed _ _ _ Hpass) Hj). }
  assert (p'' = p) as -> by congruence.
  by exists kp, n.
Qed.

(** X19. With any options and unique ids: after [sortThread] returns, the
    key of an object that had no key on input and whose [parent] names an
    object of the collection is what [stripEor] makes of the key of that
    object, then the delimiter, then a segment of two characters or more,
    then the marker. *)
Theorem reply_key_built_from_parent_key opt items sorted :
  NoDup (map id items) → sortThread opt items = Done sorted →
  ∀ c0 c p, c0 ∈ items → order c0 = None →
    c ∈ sorted → id c = id c0 → p ∈ sorted → parent c = Some (id p) →
    ∃ kp bp seg,
      order p = Some kp ∧ stripEor opt (Some kp) = Some bp ∧
      (2 ≤ String.length seg)%nat ∧
      order c = Some (bp ++ delimiter opt ++ seg ++ endOfRecord opt).
Proof.
  intros Hnd Hs c0 c p Hc0 Ho0 Hc Hid Hp Hpar.
  destruct (built_child_key opt items sorted c0 c p) as (kp & n & Hkp & Hkc); [done..|].
  destruct (stripEor opt (Some kp)) as [bp|] eqn:Hbp.
  2:{ unfold stripEor in Hbp. by destruct (_ && _). }
  exists kp, bp, (Js.padStart2 (Js.toString36 (Js.incr n))).
  split_and!; [done|done|apply Radix36.padStart2_length|].
  rewrite Hkc. unfold newThread. simpl Js.toStr. by rewrite StrFacts.app_assoc.
Qed.

Lemma reply_key_built_from_parent_key_witness :
  NoDup (map id replyFirst) ∧
  sortThread dashOptions replyFirst =
    Done [ mkItem "c" (Some "r") (Some "00-00."); mkItem "r" None (Some "00.");
           mkItem "s" None (Some "01.") ] ∧
  ∃ kp bp seg,
    Some "00." = Some kp ∧ stripEor dashOptions (Some kp) = Some bp ∧
    (2 ≤ String.length seg)%nat ∧
    Some "00-00." = Some (bp ++ delimiter dashOptions ++ seg ++ endOfRecord dashOptions).
Proof.
  split; [apply replyFirst_ids|]. split; [reflexivity|].
  apply (reply_key_built_from_parent_key dashOptions replyFirst _ replyFirst_ids eq_refl
           (mkItem "c" (Some "r") None) (mkItem "c" (Some "r") (Some "00-00."))
           (mkItem "r" None (Some "00."))).
  - by left.
  - reflexivity.
  - by left.
  - reflexivity.
  - right. by left.
  - reflexivity.
Defined.

Lemma elem_of_setThread items ci v c :
  c ∈ setThread items ci v → c ∈ items ∨ order c = v.
Proof.
  intros [j Hj]%list_elem_of_lookup. destruct (decide (ci = j)) as [<-|Hne].
  - destruct (items !! ci) as [x|] eqn:Hx.
    + rewrite (setThread_lookup _ _ _ x) in Hj by done. injection Hj as <-. by right.
    + apply lookup_lt_Some in Hj. rewrite setThread_length in Hj.
      apply lookup_ge_None in Hx. lia.
  - rewrite setThread_lookup_ne in Hj by done. left. by eapply list_elem_of_lookup_2.
Qed.






Lemma lacks_dropLast d s : Str.lacks d s = true → Str.lacks d (Js.dropLast s) = true.
Proof.
  induction s as [|c s IH]; [done|]. simpl.
  intros [Hc Hs]%andb_true_iff. destruct s as [|c' s]; [done|].
  change (Str.lacks d (String c (Js.dropLast (String c' s))) = true).
  simpl Str.lacks at 1. rewrite Hc. simpl. by apply IH.
Qed.

Lemma lacks_stripped opt d o :
  (∀ k, o = Some k → Str.lacks d k = true) →
  Str.lacks d "undefined" = true →
  Str.lacks d (Js.toStr (stripEor opt o)) = true.
Proof.
  intros Hk Hu. destruct o as [k|]; [|done]. unfold stripEor.
  destruct (_ && _); simpl; [apply lacks_dropLast|]; by apply Hk.
Qed.

Lemma newThread_slashFree opt prefix n :
  Str.lacks "/" (endOfRecord opt) = true → Str.lacks "/" prefix = true →
  Str.lacks "/" (newThread opt prefix n) = true.
Proof.
  intros He Hp. unfold newThread.
  rewrite !StrFacts.lacks_app, Hp, He, NumFacts.rendered_lacks by auto. done.
Qed.

Lemma populate_slashFree opt f items ci items' :
  Str.lacks "/" (delimiter opt) = true → Str.lacks "/" (endOfRecord opt) = true →
  slashFree items → populateThreadForItem opt f items ci = Done items' → slashFree items'.
Proof.
  intros Hd He. revert items ci items'.
  induction f as [|f IH]; intros items ci items' Hfree; [done|].
  rewrite populate_unfold.
  destruct (items !! ci) as [c|]; [|by intros [= <-]].
  destruct (order c); [by intros [= <-]|].
  destruct (parentPos items c) as [pi|].
  - destruct (populateThreadForItem opt f items pi) as [items1| |] eqn:Hrec; try done.
    intros [= <-]. specialize (IH items pi items1 Hfree Hrec).
    intros x k [Hx|Hx]%elem_of_setThread Hk; [by eapply IH|].
    rewrite Hx in Hk. injection Hk as <-. unfold childThread.
    apply newThread_slashFree; [done|].
    rewrite StrFacts.lacks_app, Hd, andb_true_r.
    apply lacks_stripped; [|done]. unfold getThread.
    intros k. destruct (items1 !! pi) as [p|] eqn:Hp; [|done]. simpl.
    intros Hk. apply (IH p k); [by eapply list_elem_of_lookup_2|done].
  - intros [= <-] x k [Hx|Hx]%elem_of_setThread Hk; [by eapply Hfree|].
    rewrite Hx in Hk. injection Hk as <-. by apply newThread_slashFree.
Qed.

Lemma populateAll_slashFree opt f items todo items' :
  Str.lacks "/" (delimiter opt) = true → Str.lacks "/" (endOfRecord opt) = true →
  slashFree items → populateAll opt f items todo = Done items' → slashFree items'.
Proof.
  intros Hd He. revert items. induction todo as [|ci todo IH]; intros items Hfree; simpl.
  - by intros [= <-].
  - destruct (populateThreadForItem opt f items ci) as [items1| |] eqn:H1; try done.
    apply IH. by eapply populate_slashFree.
Qed.

(** X21. [formatThread] counts the segments of a key at the character
    '/', whatever delimiter the keys were built with. With options whose
    delimiter and marker do not hold '/', and no '/' in the keys given on
    input, every line of [formatThread] on the result of [sortThread]
    comes without indentation, replies included. *)
Theorem other_delimiter_renders_flat opt items sorted :
  Str.lacks "/" (delimiter opt) = true → Str.lacks "/" (endOfRecord opt) = true →
  slashFree items → sortThread opt items = Done sorted →
  formatThread sorted =
    String.concat newline (map (λ c, " - item " ++ id c ++ " " ++ parentClause c) sorted).
Proof.
  intros Hd He Hfree (keyedItems & Hpass & ->)%sortThread_Done.
  assert (slashFree (Js.sort compareThread keyedItems)) as Hs.
  { intros c k Hc%sort_elem_of. revert c k Hc.
    exact (populateAll_slashFree opt _ items _ keyedItems Hd He Hfree Hpass). }
  unfold formatThread. f_equal. apply map_ext_in. intros c Hc%list_elem_of_In.
  unfold formatLine, formatDepth.
  destruct (order c) as [k|] eqn:Ho; [|done]. cbn [from_option].
  rewrite StrFacts.split_single, StrFacts.splitChar_lacks by (by apply (Hs c k)). done.
Qed.

Lemma other_delimiter_renders_flat_witness :
  Str.lacks "/" (delimiter dashOptions) = true ∧
  Str.lacks "/" (endOfRecord dashOptions) = true ∧ slashFree replyFirst ∧
  sortThread dashOptions replyFirst =
    Done [ mkItem "c" (Some "r") (Some "00-00."); mkItem "r" None (Some "00.");
           mkItem "s" None (Some "01.") ] ∧
  formatThread [ mkItem "c" (Some "r") (Some "00-00."); mkItem "r" None (Some "00.");
                 mkItem "s" None (Some "01.") ] =
    String.concat newline [ " - item c (parent r)"; " - item r "; " - item s " ].
Proof.
  assert (slashFree replyFirst) as Hfree.
  { intros c k Hc Hk. unfold replyFirst in Hc.
    repeat (apply elem_of_cons in Hc as [->|Hc]; [discriminate Hk|]).
    by apply elem_of_nil in Hc. }
  split_and!; [reflexivity|reflexivity|exact Hfree|reflexivity|].
  exact (other_delimiter_renders_flat dashOptions replyFirst _ eq_refl eq_refl Hfree eq_refl).
Defined.

(** ** Keys that cannot be read *)




